(** * Smart-Archiving-System: a shallow embedding of the ingestion core

    The development follows the three source files of the repository:

    - [drive_uploader.py]  → [Module DriveUploader]  (validation, batch upload)
    - [topic_manager.py]   → [Module TopicManager]   (topic catalog, user selection)
    - [bot.py]             → [Module Bot]            (media-group aggregation)

    Python objects that are mutated in place are threaded explicitly through
    the functions; exceptions are values of type [exn] carried by [result]. *)

From Stdlib Require Import ZArith Lia Ascii.
From stdpp Require Import base option list gmap strings pretty.

Open Scope Z_scope.

(** ** Python prelude *)

Module Py.

(** The exceptions the three modules raise or let through. *)
Inductive exn :=
| FileTooLargeError (size max_size : Z)
| MimeNotAllowedError (mime_type : string)
| HttpError                      (* googleapiclient: a failed [execute()] *)
| TransportError                 (* telegram: a failed download *)
| ValueError (msg : string).

Inductive result (A : Type) :=
| Ok (a : A)
| Raise (e : exn).
Arguments Ok {A} a.
Arguments Raise {A} e.

(** [bytes] *)
Definition bytes := list Byte.byte.

(** [len(content)] *)
Definition len {A} (l : list A) : Z := Z.of_nat (length l).

(** Truthiness of a [str] and of an [Optional[str]]. *)
Definition str_truthy (s : string) : bool :=
  match s with EmptyString => false | String _ _ => true end.

Definition opt_truthy (o : option string) : bool :=
  match o with None => false | Some s => str_truthy s end.

(** [a or b] on an optional string with a string fallback. *)
Definition str_or (o : option string) (dflt : string) : string :=
  match o with
  | Some s => if str_truthy s then s else dflt
  | None => dflt
  end.

(** [x in xs] for a list of strings. *)
Definition str_in (x : string) (xs : list string) : bool :=
  existsb (String.eqb x) xs.

End Py.
Import Py.

(** ** drive_uploader.py *)

Module DriveUploader.

(** The configuration held by a [DriveUploader] instance. *)
Record Config := {
  max_file_size : Z;
  allowed_mime_types : option (list string);
}.

(** [20 * 1024 * 1024], the default of [max_file_size]. *)
Definition default_max_file_size : Z := 20 * 1024 * 1024.

(** What the storage backend holds.  The identifier of an object is its
    position in [objects], printed in decimal (see [fresh_id]). *)
Inductive DriveObject :=
| DriveFile (name : string) (parent : string) (content : bytes) (mimetype : string)
| DriveFolder (name : string) (parent : string).

(** The backend.  [faults] scripts the outcome of the coming calls of
    [execute()]: [true] makes the call raise [HttpError]; once the script
    is exhausted every call succeeds. *)
Record Drive := {
  objects : list DriveObject;
  faults : list bool;
}.

(** State-and-exception monad over the backend. *)
Definition M (A : Type) : Type := Drive → result A * Drive.

#[export] Instance M_ret : MRet M := λ A a d, (Ok a, d).
#[export] Instance M_bind : MBind M := λ A B k m d,
  match m d with
  | (Ok a, d') => k a d'
  | (Raise e, d') => (Raise e, d')
  end.
Definition lift {A} (r : result A) : M A := λ d, (r, d).

Definition fresh_id (d : Drive) : string := pretty (length (objects d)).

(** [self.service.files().create(...).execute()] and [file["id"]]. *)
Definition files_create (o : DriveObject) : M string :=
  λ d, match faults d with
       | true :: fs => (Raise HttpError, {| objects := objects d; faults := fs |})
       | false :: fs => (Ok (fresh_id d), {| objects := objects d ++ [o]; faults := fs |})
       | [] => (Ok (fresh_id d), {| objects := objects d ++ [o]; faults := [] |})
       end.

(** [_validate_size] *)
Definition _validate_size (cfg : Config) (size : Z) : result unit :=
  if size >? max_file_size cfg
  then Raise (FileTooLargeError size (max_file_size cfg))
  else Ok ().

(** [_validate_mime] *)
Definition _validate_mime (cfg : Config) (mime_type : option string) : result unit :=
  match allowed_mime_types cfg with
  | None => Ok ()
  | Some allowed =>
      match mime_type with
      | None => Ok ()
      | Some m =>
          if negb (str_truthy m) then Ok ()
          else if negb (str_in m allowed) then Raise (MimeNotAllowedError m)
          else Ok ()
      end
  end.

(** The two checks in the order every caller runs them. *)
Definition validate (cfg : Config) (size : Z) (mime_type : option string) : result unit :=
  match _validate_size cfg size with
  | Ok _ => _validate_mime cfg mime_type
  | Raise e => Raise e
  end.

(** [upload_file_bytes] *)
Definition upload_file_bytes (cfg : Config) (folder_id filename : string)
    (content : bytes) (mime_type : option string) : M string :=
  lift (_validate_size cfg (len content)) ;;
  lift (_validate_mime cfg mime_type) ;;
  files_create (DriveFile filename folder_id content
                  (str_or mime_type "application/octet-stream")).

(** [create_subfolder] *)
Definition create_subfolder (parent_id name : string) : M string :=
  files_create (DriveFolder name parent_id).

(** An element of [items]: [(filename, content_bytes, mime_type)]. *)
Definition Item : Type := string * bytes * option string.

(** The [for] loop of [upload_media_group]. *)
Fixpoint upload_items (cfg : Config) (subfolder_id : string) (items : list Item) : M unit :=
  match items with
  | [] => mret ()
  | (filename, content, mime_type) :: rest =>
      lift (_validate_size cfg (len content)) ;;
      lift (_validate_mime cfg mime_type) ;;
      upload_file_bytes cfg subfolder_id filename content mime_type ;;
      upload_items cfg subfolder_id rest
  end.

(** [upload_media_group]; [timestamp] is
    [datetime.now().strftime("%Y%m%d_%H%M%S")]. *)
Definition upload_media_group (cfg : Config) (timestamp : string)
    (folder_id : string) (items : list Item) : M string :=
  let subfolder_name := "Album_" +:+ timestamp in
  subfolder_id ← create_subfolder folder_id subfolder_name;
  upload_items cfg subfolder_id items ;;
  mret subfolder_id.

(** Validation of one batch item, as the loop applies it. *)
Definition validate_item (cfg : Config) (it : Item) : result unit :=
  let '(_, content, mime_type) := it in
  validate cfg (len content) mime_type.

(** The backend object an accepted item becomes. *)
Definition file_of (subfolder_id : string) (it : Item) : DriveObject :=
  let '(filename, content, mime_type) := it in
  DriveFile filename subfolder_id content (str_or mime_type "application/octet-stream").

(** The next [n] backend calls succeed. *)
Definition healthy (n : nat) (d : Drive) : Prop :=
  Forall (λ b, b = false) (take n (faults d)).

End DriveUploader.

(** ** Python's insertion-ordered [dict]

    The catalog and the user table are written to disk in iteration order
    ([list(self.topics.values())], [self.user_states.items()]), so both are
    kept as association lists in insertion order.  Assigning to a key that is
    present replaces its value in place; a new key goes to the end. *)

Module Dict.
Section dict.
Context {K V : Type} `{EqDecision K}.

(** [d.get(k)] *)
Fixpoint get (k : K) (d : list (K * V)) : option V :=
  match d with
  | [] => None
  | (k', v) :: rest => if decide (k = k') then Some v else get k rest
  end.

(** [k in d] *)
Definition contains (k : K) (d : list (K * V)) : bool :=
  match get k d with Some _ => true | None => false end.

(** [d[k] = v] *)
Fixpoint set (k : K) (v : V) (d : list (K * V)) : list (K * V) :=
  match d with
  | [] => [(k, v)]
  | (k', v') :: rest =>
      if decide (k = k') then (k', v) :: rest else (k', v') :: set k v rest
  end.

(** [del d[k]] *)
Fixpoint del (k : K) (d : list (K * V)) : list (K * V) :=
  match d with
  | [] => []
  | (k', v') :: rest =>
      if decide (k = k') then rest else (k', v') :: del k rest
  end.

(** [list(d.values())] *)
Definition values (d : list (K * V)) : list V := d.*2.

(** A dict comprehension [{k: v for ...}] over the pairs of [kvs]. *)
Definition of_items (kvs : list (K * V)) : list (K * V) :=
  foldl (λ d kv, set kv.1 kv.2 d) [] kvs.
End dict.
End Dict.

(** ** topic_manager.py *)

Module TopicManager.

(** A topic is a JSON object; the code reads the keys ["name"],
    ["drive_folder_id"], ["hashtag"] and ["description"]. *)
Abbreviation Topic := (gmap string string).

(** [bool(topic)] for a dict. *)
Definition dict_truthy (t : Topic) : bool := negb (bool_decide (t = ∅)).

(** What a loader makes of a file.  On [Malformed] content the load raises:
    the text ([raw], kept as it is) is not JSON, or it is JSON of another
    shape than the loader works on.  Otherwise the file holds [data]. *)
Inductive json_file (A : Type) :=
| Malformed (raw : string)
| Parsed (data : A).
Arguments Malformed {A} raw.
Arguments Parsed {A} data.

(** The two shapes [_load_topics] accepts: a root-level array, or an object
    whose optional key ["topics"] holds the array. *)
Inductive TopicsJson :=
| TopicsArray (l : list Topic)
| TopicsObject (topics_key : option (list Topic)).

(** The user-state document: an object from stringified user ids to topic
    names, in file order. *)
Abbreviation UserStatesJson := (list (string * string)).

(** Durable storage: each file is absent ([None]) or present.  When
    [writable] is [false], opening a file for writing raises. *)
Record Disk := {
  topics_file : option (json_file TopicsJson);
  user_state_file : option (json_file UserStatesJson);
  writable : bool;
}.

(** The fields of a [TopicManager] instance, together with the disk its two
    paths point into.  The two [asyncio.Lock]s guard blocks that contain no
    [await], so every method below runs atomically and the locks need no
    state of their own. *)
Record State := {
  default_folder_id : option string;
  topics : list (string * Topic);
  user_states : list (Z * string);
  disk : Disk;
}.

Definition with_topics (tm : State) (ts : list (string * Topic)) : State :=
  {| default_folder_id := default_folder_id tm; topics := ts;
     user_states := user_states tm; disk := disk tm |}.

Definition with_user_states (tm : State) (us : list (Z * string)) : State :=
  {| default_folder_id := default_folder_id tm; topics := topics tm;
     user_states := us; disk := disk tm |}.

Definition with_disk (tm : State) (d : Disk) : State :=
  {| default_folder_id := default_folder_id tm; topics := topics tm;
     user_states := user_states tm; disk := d |}.

(** *** [int(s)] and [str(n)] on user ids *)

Fixpoint digits_go (acc : Z) (after_digit : bool) (s : string) : option Z :=
  match s with
  | "" => if after_digit then Some acc else None
  | String c rest =>
      if Ascii.eqb c "_"%char
      then (if after_digit then digits_go acc false rest else None)
      else match Ascii.is_nat c with
           | Some n => digits_go (10 * acc + Z.of_nat n) true rest
           | None => None
           end
  end.

Fixpoint lstrip (s : string) : string :=
  match s with
  | String c rest => if Ascii.is_space c then lstrip rest else s
  | "" => ""
  end.

Definition strip (s : string) : string :=
  String.rev (lstrip (String.rev (lstrip s))).

(** [int(s)] for an ASCII string: surrounding white space, an optional
    sign, decimal digits with single underscores between them.  [None] is
    the raised [ValueError]. *)
Definition py_int (s : string) : option Z :=
  match strip s with
  | String "-" rest => Z.opp <$> digits_go 0 false rest
  | String "+" rest => digits_go 0 false rest
  | rest => digits_go 0 false rest
  end.

(** [str(n)] *)
Definition py_str (n : Z) : string := pretty n.

(** *** Persistence *)

(** [_save_topics]: a failed write is logged and swallowed. *)
Definition _save_topics (tm : State) : State :=
  let topics_list := Dict.values (topics tm) in
  if writable (disk tm)
  then with_disk tm {| topics_file := Some (Parsed (TopicsArray topics_list));
                       user_state_file := user_state_file (disk tm);
                       writable := true |}
  else tm.

(** [_load_topics] *)
Definition _load_topics (tm : State) : State :=
  match topics_file (disk tm) with
  | Some (Parsed data) =>
      let topics_list :=
        match data with
        | TopicsArray l => l
        | TopicsObject o => default [] o
        end in
      match mapM (λ topic : Topic, (λ n, (n, topic)) <$> topic !! "name") topics_list with
      | Some kvs => with_topics tm (Dict.of_items kvs)
      | None => with_topics tm []          (* KeyError, caught *)
      end
  | Some (Malformed _) => with_topics tm []  (* JSONDecodeError, caught *)
  | None => _save_topics (with_topics tm [])
  end.

(** [_save_user_states] *)
Definition _save_user_states (tm : State) : State :=
  let data := (λ kv : Z * string, (py_str kv.1, kv.2)) <$> user_states tm in
  if writable (disk tm)
  then with_disk tm {| topics_file := topics_file (disk tm);
                       user_state_file := Some (Parsed data);
                       writable := true |}
  else tm.

(** [_load_user_states] *)
Definition _load_user_states (tm : State) : State :=
  match user_state_file (disk tm) with
  | Some (Parsed data) =>
      match mapM (λ kv : string * string, (λ n, (n, kv.2)) <$> py_int kv.1) data with
      | Some kvs => with_user_states tm (Dict.of_items kvs)
      | None => with_user_states tm []     (* ValueError from int(), caught *)
      end
  | Some (Malformed _) => with_user_states tm []
  | None => _save_user_states (with_user_states tm [])
  end.

(** [__init__] *)
Definition init (default_folder_id : option string) (d : Disk) : State :=
  let tm := {| default_folder_id := default_folder_id; topics := [];
               user_states := []; disk := d |} in
  _load_user_states (_load_topics tm).

(** *** Operations *)

(** [get_topic] *)
Definition get_topic (topic_name : string) (tm : State) : option Topic :=
  Dict.get topic_name (topics tm).

(** [get_all_topics] *)
Definition get_all_topics (tm : State) : list Topic :=
  Dict.values (topics tm).

(** [if not topic] on the result of [get_topic]. *)
Definition topic_truthy (o : option Topic) : bool :=
  match o with Some t => dict_truthy t | None => false end.

(** [set_user_topic] *)
Definition set_user_topic (user_id : Z) (topic_name : string) (tm : State)
    : bool * State :=
  let topic := get_topic topic_name tm in
  if negb (topic_truthy topic) then (false, tm)
  else
    let tm1 := with_user_states tm (Dict.set user_id topic_name (user_states tm)) in
    (true, _save_user_states tm1).

(** [get_user_topic] *)
Definition get_user_topic (user_id : Z) (tm : State) : option string :=
  Dict.get user_id (user_states tm).

(** The error message of [get_folder_id_for_user]. *)
Definition no_folder_msg : string :=
  "No topic set and no default folder configured".

(** The fallback of [get_folder_id_for_user]. *)
Definition default_or_raise (tm : State) : result string :=
  match default_folder_id tm with
  | Some f => if str_truthy f then Ok f else Raise (ValueError no_folder_msg)
  | None => Raise (ValueError no_folder_msg)
  end.

(** [get_folder_id_for_user] *)
Definition get_folder_id_for_user (user_id : Z) (tm : State) : result string :=
  let topic_name := get_user_topic user_id tm in
  match topic_name with
  | Some n =>
      if str_truthy n then
        match get_topic n tm with
        | Some topic =>
            if dict_truthy topic then
              match topic !! "drive_folder_id" with
              | Some folder => Ok folder
              | None => default_or_raise tm
              end
            else default_or_raise tm
        | None => default_or_raise tm
        end
      else default_or_raise tm
  | None => default_or_raise tm
  end.

(** [get_hashtag_for_user] *)
Definition get_hashtag_for_user (user_id : Z) (tm : State) : option string :=
  match get_user_topic user_id tm with
  | Some n =>
      if str_truthy n then
        match get_topic n tm with
        | Some topic => if dict_truthy topic then topic !! "hashtag" else None
        | None => None
        end
      else None
  | None => None
  end.

(** [clear_user_topic] *)
Definition clear_user_topic (user_id : Z) (tm : State) : State :=
  if Dict.contains user_id (user_states tm)
  then _save_user_states (with_user_states tm (Dict.del user_id (user_states tm)))
  else tm.

(** The dict [add_topic] builds. *)
Definition new_topic (name drive_folder_id : string)
    (hashtag description : option string) : Topic :=
  <["name" := name]>
    (<["drive_folder_id" := drive_folder_id]>
       (<["hashtag" := str_or hashtag ("#" +:+ name)]>
          (<["description" := str_or description (name +:+ " related content")]> ∅))).

(** [add_topic] *)
Definition add_topic (name drive_folder_id : string)
    (hashtag description : option string) (tm : State) : bool * State :=
  if Dict.contains name (topics tm) then (false, tm)
  else
    let topic := new_topic name drive_folder_id hashtag description in
    (true, _save_topics (with_topics tm (Dict.set name topic (topics tm)))).

(** *** The vocabulary of the specification *)

(** The destination of the selected topic, as C4 words it: the user has a
    selection, the catalog has that topic, the topic has a destination. *)
Definition selected_destination (user_id : Z) (tm : State) : option string :=
  n ← get_user_topic user_id tm;
  topic ← get_topic n tm;
  topic !! "drive_folder_id".

(** The same, for a selection the code takes as one: a topic name that is
    not the empty string. *)
Definition usable_destination (user_id : Z) (tm : State) : option string :=
  n ← get_user_topic user_id tm;
  if str_truthy n then topic ← get_topic n tm; topic !! "drive_folder_id"
  else None.

(** A default destination is configured: [if self.default_folder_id]. *)
Definition has_default (tm : State) : bool := opt_truthy (default_folder_id tm).

Definition raises {A} (r : result A) : Prop := ∃ e, r = Raise e.

(** C4 as it is worded. *)
Definition resolve_claim : Prop :=
  ∀ (user_id : Z) (tm : State),
    (∀ d, selected_destination user_id tm = Some d →
          get_folder_id_for_user user_id tm = Ok d)
    ∧ (get_user_topic user_id tm = None →
       ∀ f, default_folder_id tm = Some f → f ≠ "" →
            get_folder_id_for_user user_id tm = Ok f)
    ∧ (raises (get_folder_id_for_user user_id tm) ↔
       selected_destination user_id tm = None ∧ has_default tm = false).

(** C8 as it is worded. *)
Definition roundtrip_claim : Prop :=
  ∀ (tm : State) (n d : string) (hashtag description : option string) (u : Z),
    Dict.get n (topics tm) = None →
    ∃ tm1 tm2,
      add_topic n d hashtag description tm = (true, tm1)
      ∧ set_user_topic u n tm1 = (true, tm2)
      ∧ get_folder_id_for_user u tm2 = Ok d.

(** C7 as it is worded. *)
Definition corrupted_restart_claim : Prop :=
  ∀ (dflt : option string) (d : Disk) (raw : string),
    user_state_file d = Some (Malformed raw) →
    user_states (init dflt d) = []
    ∧ user_state_file (disk (init dflt d)) = Some (Parsed []).

(** *** Sample stores *)

Definition empty_disk : Disk :=
  {| topics_file := None; user_state_file := None; writable := true |}.

(** A first start without default destination. *)
Definition tm_fresh : State := init None empty_disk.

(** On it, the topic named by the empty string is added and user 7 selects
    it. *)
Definition tm_empty_name : State :=
  (set_user_topic 7 "" (add_topic "" "F1" None None tm_fresh).2).2.

(** A first start with default destination ["ROOT"], then the topic
    ["work"] is added and user 7 selects it. *)
Definition tm_work : State :=
  (set_user_topic 7 "work"
     (add_topic "work" "F1" None None (init (Some "ROOT") empty_disk)).2).2.

End TopicManager.

(** ** bot.py: media-group aggregation *)

Module Bot.
Import DriveUploader.

(** [MEDIA_GROUP_DELAY_SEC = 1.5], counted in milliseconds of loop time. *)
Definition MEDIA_GROUP_DELAY : Z := 1500.

(** *** The chat transport's objects *)

(** A file handle of the transport; [download_as_bytearray] is [None] when
    fetching it raises. *)
Record TgFile := { download_as_bytearray : option bytes }.

Record PhotoSize := { photo_file : TgFile }.
Record Video := {
  video_file : TgFile;
  video_mime_type : option string;
  video_file_name : option string;
}.
Record Voice := { voice_file : TgFile; voice_mime_type : option string }.
Record Audio := {
  audio_file : TgFile;
  audio_mime_type : option string;
  audio_file_name : option string;
}.
Record Document := {
  document_file : TgFile;
  document_mime_type : option string;
  document_file_name : option string;
}.

Record Message := {
  message_id : Z;
  chat_id : Z;
  from_user : option Z;
  media_group_id : option string;
  photo : list PhotoSize;
  video : option Video;
  voice : option Voice;
  audio : option Audio;
  document : option Document;
}.

(** The handler's [context] argument, an opaque handle. *)
Definition Context := nat.

(** An element of a buffered group: [(msg, context)]. *)
Abbreviation Entry := (Message * Context)%type.

Inductive Reaction := REACTION_PROCESSING | REACTION_SUCCESS | REACTION_ERROR.

(** [_get_attachment_info]; [ts] is the reading of
    [datetime.now().strftime('%Y%m%d_%H%M%S')] and [None] stands for the
    triple [(None, None, None)]. *)
Definition _get_attachment_info (ts : string) (message : Message)
    : option (TgFile * string * string) :=
  match last (photo message) with
  | Some p => Some (photo_file p, "photo_" +:+ ts +:+ ".jpg", "image/jpeg")
  | None =>
  match video message with
  | Some v =>
      Some (video_file v,
            str_or (video_file_name v) ("video_" +:+ ts +:+ ".mp4"),
            str_or (video_mime_type v) "video/mp4")
  | None =>
  match voice message with
  | Some vo =>
      Some (voice_file vo, "voice_" +:+ ts +:+ ".ogg",
            str_or (voice_mime_type vo) "audio/ogg")
  | None =>
  match audio message with
  | Some a =>
      Some (audio_file a,
            str_or (audio_file_name a) ("audio_" +:+ ts +:+ ".mp3"),
            str_or (audio_mime_type a) "audio/mpeg")
  | None =>
  match document message with
  | Some d =>
      Some (document_file d,
            str_or (document_file_name d) ("document_" +:+ ts),
            str_or (document_mime_type d) "application/octet-stream")
  | None => None
  end end end end end.

(** *** The shared state of the event loop *)

(** A [process_media_group] activation that has left its locked block:
    the key it served, the list object it popped, the loop time. *)
Record Flush := {
  fl_key : string;
  fl_entries : nat;
  fl_time : Z;
}.

(** A coroutine handed to [asyncio.create_task] that the loop has not
    started yet: [schedule_media_group(mgid)], created by the handler, or
    the [_task()] it creates in turn. *)
Inductive Job :=
| RunSchedule (media_group_id : string)
| RunTask (media_group_id : string).

Definition job_key (job : Job) : string :=
  match job with
  | RunSchedule media_group_id => media_group_id
  | RunTask media_group_id => media_group_id
  end.

(** The module-level globals and what the loop holds for them.

    - [lists] is the store of the list objects created by
      [_media_group_buffer[mgid] = []], by identity;
    - [_media_group_buffer] maps a key to the list object it refers to;
    - [_media_group_tasks] maps a key to the stored task, named by the
      loop time at which it was created;
    - [ready] is the loop's queue of created tasks that have not started,
      oldest first;
    - [sleepers] holds the [_task] coroutines inside [asyncio.sleep], each
      with the loop time at which it resumes, oldest first;
    - [in_flight] records the flushes that have begun, oldest first.

    [_media_group_lock] guards blocks without [await]: no holder is ever
    suspended, the lock is free whenever a coroutine asks for it, and it
    needs no state. *)
Record Loop := {
  now : Z;
  lists : gmap nat (list Entry);
  _media_group_buffer : gmap string nat;
  _media_group_tasks : gmap string Z;
  ready : list Job;
  sleepers : list (Z * string);
  in_flight : list Flush;
}.

Definition init : Loop :=
  {| now := 0; lists := ∅; _media_group_buffer := ∅; _media_group_tasks := ∅;
     ready := []; sleepers := []; in_flight := [] |}.

(** [asyncio.create_task(coro)]: the coroutine is queued and starts in a
    later turn of the loop. *)
Definition create_task (job : Job) (s : Loop) : Loop :=
  {| now := now s; lists := lists s;
     _media_group_buffer := _media_group_buffer s;
     _media_group_tasks := _media_group_tasks s;
     ready := ready s ++ [job];
     sleepers := sleepers s; in_flight := in_flight s |}.

(** [schedule_media_group], from its start to its end (nothing in it
    suspends): [_task()] is created and its handle stored under the key. *)
Definition schedule_media_group (media_group_id : string) (s : Loop) : Loop :=
  let t := now s in
  let s1 := create_task (RunTask media_group_id) s in
  {| now := now s1; lists := lists s1;
     _media_group_buffer := _media_group_buffer s1;
     _media_group_tasks := <[media_group_id := t]> (_media_group_tasks s1);
     ready := ready s1;
     sleepers := sleepers s1; in_flight := in_flight s1 |}.

(** [_task] from its start to its [await asyncio.sleep(...)]: the sleep
    ends one delay after the loop time at which it begins. *)
Definition _task (media_group_id : string) (s : Loop) : Loop :=
  {| now := now s; lists := lists s;
     _media_group_buffer := _media_group_buffer s;
     _media_group_tasks := _media_group_tasks s;
     ready := ready s;
     sleepers := sleepers s ++ [(now s + MEDIA_GROUP_DELAY, media_group_id)];
     in_flight := in_flight s |}.

Definition run_job (job : Job) (s : Loop) : Loop :=
  match job with
  | RunSchedule media_group_id => schedule_media_group media_group_id s
  | RunTask media_group_id => _task media_group_id s
  end.

(** One turn of the loop on its queue: the oldest created task starts and
    runs up to its first suspension. *)
Definition step (s : Loop) : Loop :=
  match ready s with
  | [] => s
  | job :: rest =>
      run_job job
        {| now := now s; lists := lists s;
           _media_group_buffer := _media_group_buffer s;
           _media_group_tasks := _media_group_tasks s;
           ready := rest;
           sleepers := sleepers s; in_flight := in_flight s |}
  end.

(** The queue is run until it is empty, at the present loop time.  A
    queued [schedule_media_group] queues one [_task] and a queued [_task]
    queues nothing, so twice the length of the queue is turns enough. *)
Definition settle (s : Loop) : Loop :=
  Nat.iter (2 * length (ready s)) step s.

(** [_media_group_buffer[mgid] = []]: a new list object. *)
Definition new_group (mgid : string) (s : Loop) : Loop :=
  let r := fresh (dom (lists s)) in
  {| now := now s; lists := <[r := []]> (lists s);
     _media_group_buffer := <[mgid := r]> (_media_group_buffer s);
     _media_group_tasks := _media_group_tasks s;
     ready := ready s;
     sleepers := sleepers s; in_flight := in_flight s |}.

(** [_media_group_buffer[mgid].append((msg, context))]: the list object is
    extended in place. *)
Definition append_entry (mgid : string) (e : Entry) (s : Loop) : Loop :=
  match _media_group_buffer s !! mgid with
  | Some r =>
      {| now := now s; lists := alter (λ l, l ++ [e]) r (lists s);
         _media_group_buffer := _media_group_buffer s;
         _media_group_tasks := _media_group_tasks s;
         ready := ready s;
         sleepers := sleepers s; in_flight := in_flight s |}
  | None => s
  end.

(** Where [handle_media_with_group] sends an update. *)
Inductive Dispatch := Buffered | Single.

(** The key an update carries: [if mgid:]. *)
Definition group_key (msg : Message) : option string :=
  match media_group_id msg with
  | Some mgid => if str_truthy mgid then Some mgid else None
  | None => None
  end.

(** [handle_media_with_group]: for a key that is not in the buffer the
    handler creates the list and queues [schedule_media_group(mgid)]; it
    neither stores a task handle nor starts a sleep itself.  [Single] is
    the call of [handle_single_media], which leaves the shared state
    alone. *)
Definition handle_media_with_group (msg : Message) (context : Context) (s : Loop)
    : Loop * Dispatch :=
  match group_key msg with
  | Some mgid =>
      let s1 :=
        match _media_group_buffer s !! mgid with
        | None => create_task (RunSchedule mgid) (new_group mgid s)
        | Some _ => s
        end in
      (append_entry mgid (msg, context) s1, Buffered)
  | None => (s, Single)
  end.

(** The locked block of [process_media_group]. *)
Definition process_media_group_locked (media_group_id : string) (s : Loop) : Loop :=
  match _media_group_buffer s !! media_group_id with
  | None => s
  | Some entries =>
      {| now := now s; lists := lists s;
         _media_group_buffer := delete media_group_id (_media_group_buffer s);
         _media_group_tasks := delete media_group_id (_media_group_tasks s);
         ready := ready s;
         sleepers := sleepers s;
         in_flight := in_flight s ++
           [{| fl_key := media_group_id; fl_entries := entries; fl_time := now s |}] |}
  end.

(** A [_task] whose sleep has ended: the loop time is that of its timer
    and [process_media_group] runs through its locked block. *)
Definition wake (timer : Z * string) (s : Loop) : Loop :=
  process_media_group_locked timer.2
    {| now := timer.1; lists := lists s;
       _media_group_buffer := _media_group_buffer s;
       _media_group_tasks := _media_group_tasks s;
       ready := ready s;
       sleepers := sleepers s; in_flight := in_flight s |}.

(** The timers of [due] fire, oldest first. *)
Definition fire (due : list (Z * string)) (s : Loop) : Loop :=
  foldl (λ s timer, wake timer s) s due.

(** Loop time passes up to [t]: the timers due by then fire and the
    others keep sleeping; what is queued stays queued. *)
Definition advance_to (t : Z) (s : Loop) : Loop :=
  let due := filter (λ timer, timer.1 ≤ t) (sleepers s) in
  let s1 := {| now := now s; lists := lists s;
               _media_group_buffer := _media_group_buffer s;
               _media_group_tasks := _media_group_tasks s;
               ready := ready s;
               sleepers := filter (λ timer, t < timer.1) (sleepers s);
               in_flight := in_flight s |} in
  let s2 := fire due s1 in
  {| now := Z.max (now s) t; lists := lists s2;
     _media_group_buffer := _media_group_buffer s2;
     _media_group_tasks := _media_group_tasks s2;
     ready := ready s2;
     sleepers := sleepers s2; in_flight := in_flight s2 |}.

(** An update reaching the handler at loop time [at_time]. *)
Record Arrival := {
  at_time : Z;
  arr_msg : Message;
  arr_context : Context;
}.

(** A timed run takes the turns of the queue at once: the handler runs at
    the arrival time and what it queued runs at that same loop time. *)
Definition deliver (a : Arrival) (s : Loop) : Loop :=
  settle (handle_media_with_group (arr_msg a) (arr_context a) (advance_to (at_time a) s)).1.

Definition run (arrivals : list Arrival) (s : Loop) : Loop :=
  foldl (λ s a, deliver a s) s arrivals.

(** The states the loop can be in: handlers, turns of the queue and the
    passing of time interleave in any order. *)
Inductive reachable : Loop → Prop :=
| reachable_init : reachable init
| reachable_handle s msg context :
    reachable s → reachable (handle_media_with_group msg context s).1
| reachable_step s :
    reachable s → reachable (step s)
| reachable_advance s t :
    reachable s → reachable (advance_to t s).

(** The flushes begun so far for one key. *)
Definition flushes_of (k : string) (s : Loop) : list Flush :=
  filter (λ fl, fl_key fl = k) (in_flight s).

(** The buffered entries a list of arrivals contributes to one key. *)
Definition members_of (k : string) (arrivals : list Arrival) : list Entry :=
  (λ a, (arr_msg a, arr_context a)) <$>
    filter (λ a, group_key (arr_msg a) = Some k) arrivals.

(** The keys with something pending, the queued coroutines first and the
    sleeping timers after them. *)
Definition pending (s : Loop) : list string :=
  (job_key <$> ready s) ++ (sleepers s).*2.

(** What every reachable state satisfies: a key of the buffer refers to a
    list object of its own, a queued coroutine or a sleeping timer belongs
    to a buffered key and a key has at most one of them, and the list of a
    flush that has begun is no longer referred to by the buffer. *)
Record wf (s : Loop) : Prop := {
  wf_buffer_live : ∀ k r,
    _media_group_buffer s !! k = Some r → is_Some (lists s !! r);
  wf_buffer_inj : ∀ k1 k2 r,
    _media_group_buffer s !! k1 = Some r →
    _media_group_buffer s !! k2 = Some r → k1 = k2;
  wf_pending_key : ∀ k,
    k ∈ pending s → is_Some (_media_group_buffer s !! k);
  wf_pending_nodup : NoDup (pending s);
  wf_flush_live : ∀ fl,
    fl ∈ in_flight s → is_Some (lists s !! fl_entries fl);
  wf_flush_detached : ∀ fl k,
    fl ∈ in_flight s → _media_group_buffer s !! k ≠ Some (fl_entries fl);
}.

(** *** The rest of [process_media_group] *)

(** The loop that fills [items]; [clock i] is the reading of the wall
    clock while entry [i] is handled. *)
Fixpoint collect_items_from (clock : nat → string) (i : nat)
    (entries : list Entry) (items : list Item) : result (list Item) :=
  match entries with
  | [] => Ok items
  | (msg, _) :: rest =>
      match _get_attachment_info (clock i) msg with
      | None => collect_items_from clock (S i) rest items
      | Some (file_obj, filename, mime_type) =>
          match download_as_bytearray file_obj with
          | Some blob =>
              collect_items_from clock (S i) rest
                (items ++ [(filename, blob, Some mime_type)])
          | None => Raise TransportError
          end
      end
  end.

Definition collect_items (clock : nat → string) (entries : list Entry)
    : result (list Item) :=
  collect_items_from clock 0 entries [].

(** The item a buffered message becomes when it has an attachment whose
    download succeeds. *)
Definition item_of (ts : string) (msg : Message) : option Item :=
  match _get_attachment_info ts msg with
  | Some (file_obj, filename, mime_type) =>
      (λ blob, (filename, blob, Some mime_type)) <$> download_as_bytearray file_obj
  | None => None
  end.

(** What a flush leaves outside the loop state. *)
Record Outside := {
  drive : Drive;
  reactions : list (Z * Z * Reaction);
}.

(** [set_reaction]: a failure of the call is swallowed there. *)
Definition set_reaction (chat : Z) (message : Z) (r : Reaction) (w : Outside) : Outside :=
  {| drive := drive w; reactions := reactions w ++ [(chat, message, r)] |}.

(** [get_folder_and_hashtag] *)
Definition get_folder_and_hashtag (user_id : Z) (tm : TopicManager.State)
    : result (string * option string) :=
  match TopicManager.get_folder_id_for_user user_id tm with
  | Ok folder_id => Ok (folder_id, TopicManager.get_hashtag_for_user user_id tm)
  | Raise e => Raise e
  end.

(** [process_media_group] after its locked block, on the popped list
    [entries]; [album_ts] is the clock reading inside
    [upload_media_group].  Every [except] branch ends in the error
    reaction (the optional reply text is not kept). *)
Definition process_media_group_rest (cfg : Config) (tm : TopicManager.State)
    (clock : nat → string) (album_ts : string) (entries : list Entry)
    (w : Outside) : Outside :=
  match entries with
  | [] => w
  | (first_msg, _) :: _ =>
      let chat := chat_id first_msg in
      let first_message_id := message_id first_msg in
      let user_id := default 0 (from_user first_msg) in
      let w1 := set_reaction chat first_message_id REACTION_PROCESSING w in
      match get_folder_and_hashtag user_id tm with
      | Raise _ => set_reaction chat first_message_id REACTION_ERROR w1
      | Ok (folder_id, _) =>
          match collect_items clock entries with
          | Raise _ => set_reaction chat first_message_id REACTION_ERROR w1
          | Ok [] => set_reaction chat first_message_id REACTION_ERROR w1
          | Ok items =>
              match upload_media_group cfg album_ts folder_id items (drive w1) with
              | (Ok _, d) =>
                  set_reaction chat first_message_id REACTION_SUCCESS
                    {| drive := d; reactions := reactions w1 |}
              | (Raise _, d) =>
                  set_reaction chat first_message_id REACTION_ERROR
                    {| drive := d; reactions := reactions w1 |}
              end
          end
      end
  end.

(** *** One debounce window *)

(** The keys of the queued [_task]s and of the queued
    [schedule_media_group]s, oldest first. *)
Definition task_keys (jobs : list Job) : list string :=
  omap (λ job, match job with RunTask k => Some k | RunSchedule _ => None end) jobs.

Definition schedule_keys (jobs : list Job) : list string :=
  omap (λ job, match job with RunSchedule k => Some k | RunTask _ => None end) jobs.

(** The loop once its queue has been run at the present loop time, in
    closed form: the queued [_task]s have started their sleep, in order,
    then those created by the queued [schedule_media_group]s, whose
    handles are stored. *)
Definition settled (s : Loop) : Loop :=
  {| now := now s; lists := lists s;
     _media_group_buffer := _media_group_buffer s;
     _media_group_tasks :=
       foldl (λ m k, <[k := now s]> m) (_media_group_tasks s) (schedule_keys (ready s));
     ready := [];
     sleepers := sleepers s ++
       ((λ k, (now s + MEDIA_GROUP_DELAY, k)) <$>
          (task_keys (ready s) ++ schedule_keys (ready s)));
     in_flight := in_flight s |}.

(** Key [k] is collecting: its live group is the list object [r] with
    content [es], no other key refers to [r], its one timer is due at
    [deadline], its flushes so far are [F], and nothing is queued. *)
Definition collecting (k : string) (r : nat) (deadline : Z)
    (es : list Entry) (F : list Flush) (s : Loop) : Prop :=
  _media_group_buffer s !! k = Some r
  ∧ lists s !! r = Some es
  ∧ (∀ k', _media_group_buffer s !! k' = Some r → k' = k)
  ∧ filter (λ timer, timer.2 = k) (sleepers s) = [(deadline, k)]
  ∧ flushes_of k s = F
  ∧ ready s = [].

(** What each entry of a popped list should become, in order. *)
Definition expected_items (clock : nat → string) (entries : list Entry)
    : list (option DriveUploader.Item) :=
  imap (λ i e, item_of (clock i) e.1) entries.

(** *** Sample updates *)

(** A photo update of user 42 in chat 1. *)
Definition photo_msg (id : Z) (mgid : string) : Message :=
  {| message_id := id; chat_id := 1; from_user := Some 42;
     media_group_id := Some mgid;
     photo := [{| photo_file := {| download_as_bytearray := Some [Byte.x89; Byte.x50] |} |}];
     video := None; voice := None; audio := None; document := None |}.

Definition arrival (t : Z) (id : Z) (mgid : string) : Arrival :=
  {| at_time := t; arr_msg := photo_msg id mgid; arr_context := 0%nat |}.

Definition noon (_ : nat) : string := "20250202_120000".

End Bot.

(** ** Further vocabulary for the upload orchestrator *)

Module UploaderTerms.
Import DriveUploader.

(** The MIME type passes [_validate_mime]: no allow-list, no MIME type to
    speak of, or a MIME type of the list. *)
Definition mime_allowed (cfg : Config) (mime_type : option string) : Prop :=
  match allowed_mime_types cfg, mime_type with
  | None, _ => True
  | Some _, None => True
  | Some allowed, Some m => m = "" ∨ m ∈ allowed
  end.

(** The objects a batch call may leave behind when it has got through [j]
    items: the album folder and the files of the first [j] items in it. *)
Definition album (ts folder : string) (d : Drive) (items : list Item) (j : nat)
    : list DriveObject :=
  DriveFolder ("Album_" +:+ ts) folder :: (file_of (fresh_id d) <$> take j items).

End UploaderTerms.

(** ** Further vocabulary for the state store *)

Module StoreTerms.
Import TopicManager.

(** A string without white space. *)
Fixpoint no_space (s : string) : Prop :=
  match s with
  | "" => True
  | String c rest => Ascii.is_space c = false ∧ no_space rest
  end.

(** What a [dict] guarantees by construction and the catalog by the way it
    is filled: one entry per topic name, one entry per user, and every
    topic filed under the name it carries. *)
Definition store_ok (tm : State) : Prop :=
  NoDup (topics tm).*1
  ∧ NoDup (user_states tm).*1
  ∧ ∀ k t, (k, t) ∈ topics tm → t !! "name" = Some k.

(** The process stops and a new [TopicManager] is built over the same
    paths with the same default. *)
Definition restart (tm : State) : State :=
  init (default_folder_id tm) (disk tm).

(** A restart would rebuild this very store and leave the disk alone. *)
Definition durable (tm : State) : Prop := restart tm = tm.

(** What [_load_topics] makes of the topics file, and what
    [_load_user_states] makes of the user-state file. *)
Definition catalog_of (f : option (json_file TopicsJson)) : list (string * Topic) :=
  match f with
  | Some (Parsed data) =>
      let topics_list :=
        match data with TopicsArray l => l | TopicsObject o => default [] o end in
      match mapM (λ topic : Topic, (λ n, (n, topic)) <$> topic !! "name") topics_list with
      | Some kvs => Dict.of_items kvs
      | None => []
      end
  | _ => []
  end.

Definition table_of (f : option (json_file UserStatesJson)) : list (Z * string) :=
  match f with
  | Some (Parsed data) =>
      match mapM (λ kv : string * string, (λ n, (n, kv.2)) <$> py_int kv.1) data with
      | Some kvs => Dict.of_items kvs
      | None => []
      end
  | _ => []
  end.

(** The disk once [__init__] is through: a file that was absent has been
    created empty when the disk takes the write. *)
Definition disk_after_start (d : Disk) : Disk :=
  {| topics_file :=
       match topics_file d with
       | None => if writable d then Some (Parsed (TopicsArray [])) else None
       | f => f
       end;
     user_state_file :=
       match user_state_file d with
       | None => if writable d then Some (Parsed []) else None
       | f => f
       end;
     writable := writable d |}.

End StoreTerms.

(** ** bot.py: the single-item path and further vocabulary *)

Module BotTerms.
Import DriveUploader Bot.

(** [handle_single_media] on an update with a message, whose
    [effective_user] is the sender of that message; [ts] is the clock
    reading inside [_get_attachment_info].  The attachment is looked up before anything
    else, the download comes before the folder is resolved, and every
    [except] branch ends in the error reaction (the optional reply text is
    not kept). *)
Definition handle_single_media (cfg : Config) (tm : TopicManager.State)
    (ts : string) (msg : Message) (w : Outside) : Outside :=
  match _get_attachment_info ts msg with
  | None => w
  | Some (file_obj, filename, mime_type) =>
      let chat := chat_id msg in
      let message := message_id msg in
      let user_id := default 0 (from_user msg) in
      let w1 := set_reaction chat message REACTION_PROCESSING w in
      match download_as_bytearray file_obj with
      | None => set_reaction chat message REACTION_ERROR w1
      | Some blob =>
          match get_folder_and_hashtag user_id tm with
          | Raise _ => set_reaction chat message REACTION_ERROR w1
          | Ok (folder_id, _) =>
              match upload_file_bytes cfg folder_id filename blob (Some mime_type)
                      (drive w1) with
              | (Ok _, d) =>
                  set_reaction chat message REACTION_SUCCESS
                    {| drive := d; reactions := reactions w1 |}
              | (Raise _, d) =>
                  set_reaction chat message REACTION_ERROR
                    {| drive := d; reactions := reactions w1 |}
              end
          end
      end
  end.

(** The message has an attachment and fetching it raises. *)
Definition download_fails (ts : string) (msg : Message) : Prop :=
  match _get_attachment_info ts msg with
  | Some (file_obj, _, _) => download_as_bytearray file_obj = None
  | None => False
  end.

(** The message has no attachment of the five kinds. *)
Definition bare (msg : Message) : Prop :=
  photo msg = [] ∧ video msg = None ∧ voice msg = None
  ∧ audio msg = None ∧ document msg = None.

(** The entries of the live group of a key, if it has one. *)
Definition live_entries (k : string) (s : Loop) : list Entry :=
  match _media_group_buffer s !! k with
  | Some r => default [] (lists s !! r)
  | None => []
  end.

(** Everything buffered for a key so far: what its flushes popped, oldest
    flush first, then what its live group holds. *)
Definition history (k : string) (s : Loop) : list Entry :=
  (fl ← flushes_of k s; default [] (lists s !! fl_entries fl)) ++ live_entries k s.

(** What holds of the pending work in every reachable state: a key with a
    live group has something pending (a queued coroutine or a sleeping
    timer), a sleeping timer is due after now and at most one delay ahead,
    and a task handle is stored for a key exactly when the key has a live
    group whose [schedule_media_group] has run. *)
Record timers_ok (s : Loop) : Prop := {
  timers_live : ∀ k, is_Some (_media_group_buffer s !! k) → k ∈ pending s;
  timers_window : ∀ timer, timer ∈ sleepers s →
    now s < timer.1 ≤ now s + MEDIA_GROUP_DELAY;
  timers_tasks : ∀ k, is_Some (_media_group_tasks s !! k)
                      ↔ is_Some (_media_group_buffer s !! k)
                        ∧ RunSchedule k ∉ ready s;
}.

End BotTerms.

(** ** bot.py: the commands that only read *)

Module Commands.
Import TopicManager Bot.

(** What the two commands read of an [Update]: [update.message] and
    [update.effective_user.id]. *)
Record Update := {
  message : option Message;
  effective_user : option Z;
}.

(** What a command does in the chat: one [reply_text], or an
    [AttributeError] where [update.message] is [None]. *)
Inductive Outcome :=
| Reply (text : string)
| AttributeError.

Definition nl : string := String "010"%char EmptyString.

(** [sep.join(lines)] *)
Fixpoint join (sep : string) (lines : list string) : string :=
  match lines with
  | [] => ""
  | [line] => line
  | line :: rest => line +:+ sep +:+ join sep rest
  end.

(** One line of the listing. *)
Definition topic_line (t : Topic) : string :=
  let name := default "?" (t !! "name") in
  let desc := default "" (t !! "description") in
  "• /" +:+ name +:+ " — " +:+ desc.

Definition no_topics_msg : string :=
  "No topics configured. Add entries to topics.json.".

Definition no_topic_set_msg : string :=
  "No topic set. Use /topic <name> or /work, /marketing etc.".

(** [cmd_topics] *)
Definition cmd_topics (update : Update) (tm : State) : Outcome :=
  let topics := get_all_topics tm in
  match topics with
  | [] =>
      match message update with
      | Some _ => Reply no_topics_msg
      | None => AttributeError
      end
  | _ =>
      let lines := topic_line <$> topics in
      match message update with
      | Some _ => Reply ("Topics:" +:+ nl +:+ join nl lines)
      | None => AttributeError
      end
  end.

(** [cmd_current] *)
Definition cmd_current (update : Update) (tm : State) : Outcome :=
  let user_id := default 0 (effective_user update) in
  let topic_name := get_user_topic user_id tm in
  if opt_truthy topic_name then
    match message update with
    | Some _ => Reply ("Current topic: " +:+ default "" topic_name)
    | None => AttributeError
    end
  else
    match message update with
    | Some _ => Reply no_topic_set_msg
    | None => AttributeError
    end.

End Commands.

(** * Properties *)

(** ** Facts about the prelude *)

Module PyFacts.

Lemma gtb_true (a b : Z) : a > b → (a >? b) = true.
Proof. intros H. destruct (Z.gtb_spec a b); [done | lia]. Qed.

Lemma str_in_false (m : string) (l : list string) : m ∉ l → str_in m l = false.
Proof.
  unfold str_in. induction l as [|x l IH]; intros Hn; [done|].
  simpl. apply not_elem_of_cons in Hn as [Hne Hl].
  destruct (String.eqb_spec m x); [done|]. by apply IH.
Qed.

Lemma str_truthy_true (m : string) : m ≠ "" → str_truthy m = true.
Proof. by destruct m. Qed.

End PyFacts.

(** ** The upload orchestrator *)

Module UploaderProofs.
Import DriveUploader PyFacts.

(** C6.  A size above the limit is rejected with [FileTooLargeError]
    whatever the MIME type is; without an allow-list every MIME type passes
    the MIME check; with an allow-list an absent or empty MIME type passes
    and a non-empty one outside the list is rejected with
    [MimeNotAllowedError]. *)
Theorem validate_contract (cfg : Config) (size : Z) (mime_type : option string) :
  (size > max_file_size cfg →
     _validate_size cfg size = Raise (FileTooLargeError size (max_file_size cfg)) ∧
     validate cfg size mime_type = Raise (FileTooLargeError size (max_file_size cfg)))
  ∧ (allowed_mime_types cfg = None → _validate_mime cfg mime_type = Ok ())
  ∧ (∀ allowed, allowed_mime_types cfg = Some allowed →
       (mime_type = None ∨ mime_type = Some "" → _validate_mime cfg mime_type = Ok ())
       ∧ (∀ m, mime_type = Some m → m ≠ "" → m ∉ allowed →
            _validate_mime cfg mime_type = Raise (MimeNotAllowedError m))).
Proof.
  split; [|split].
  - intros Hgt. unfold validate, _validate_size. by rewrite gtb_true.
  - intros Hnone. unfold _validate_mime. by rewrite Hnone.
  - intros allowed Hsome. unfold _validate_mime. rewrite Hsome. split.
    + by intros [-> | ->].
    + intros m -> Hne Hnotin.
      by rewrite str_truthy_true, str_in_false.
Qed.

Lemma validate_contract_witness :
  let cfg := {| max_file_size := default_max_file_size;
                allowed_mime_types := Some ["image/jpeg"; "video/mp4"] |} in
  let open := {| max_file_size := default_max_file_size; allowed_mime_types := None |} in
  validate cfg 20971521 (Some "image/jpeg") = Raise (FileTooLargeError 20971521 20971520)
  ∧ _validate_mime open (Some "application/x-anything") = Ok ()
  ∧ _validate_mime cfg (Some "") = Ok ()
  ∧ _validate_mime cfg (Some "text/html") = Raise (MimeNotAllowedError "text/html").
Proof.
  intros cfg open. split; [|split; [|split]].
  - apply (validate_contract cfg 20971521 (Some "image/jpeg")). reflexivity.
  - apply (validate_contract open 0 (Some "application/x-anything")). reflexivity.
  - eapply (validate_contract cfg 0 (Some "")); [reflexivity | by right].
  - eapply (validate_contract cfg 0 (Some "text/html")); [reflexivity.. | | ].
    + discriminate.
    + intros Hin. repeat (apply elem_of_cons in Hin as [Hin | Hin]; [discriminate|]).
      by apply elem_of_nil in Hin.
Defined.

(** *** The batch loop *)

Lemma validate_item_ok cfg filename content mime_type :
  validate_item cfg (filename, content, mime_type) = Ok () →
  _validate_size cfg (len content) = Ok () ∧ _validate_mime cfg mime_type = Ok ().
Proof.
  unfold validate_item, validate.
  destruct (_validate_size cfg (len content)) as [[]|]; [done|discriminate].
Qed.

Lemma validate_item_raise cfg filename content mime_type e :
  validate_item cfg (filename, content, mime_type) = Raise e →
  _validate_size cfg (len content) = Raise e
  ∨ (_validate_size cfg (len content) = Ok () ∧ _validate_mime cfg mime_type = Raise e).
Proof.
  unfold validate_item, validate.
  destruct (_validate_size cfg (len content)) as [[]|]; [by right|].
  intros [= ->]. by left.
Qed.

Lemma healthy_succ_inv n d :
  healthy (S n) d →
  (faults d = [] ∨ ∃ fs, faults d = false :: fs ∧ Forall (λ b, b = false) (take n fs)).
Proof.
  unfold healthy. destruct (faults d) as [|b fs]; [by left|].
  simpl. intros [-> Hfs]%Forall_cons. right. eauto.
Qed.

(** The loop stops at the first item that fails validation: it has
    uploaded a prefix of the items before it, all of them when the backend
    does not fail. *)
Lemma upload_items_rejects cfg sub (items : list Item) :
  ∀ (k : nat) it e d,
    items !! k = Some it →
    validate_item cfg it = Raise e →
    (∀ j it', (j < k)%nat → items !! j = Some it' → validate_item cfg it' = Ok ()) →
    ∃ e' d' (j : nat),
      upload_items cfg sub items d = (Raise e', d')
      ∧ (j ≤ k)%nat
      ∧ objects d' = objects d ++ (file_of sub <$> take j items)
      ∧ (healthy k d → j = k ∧ e' = e).
Proof.
  induction items as [|[[filename content] mime_type] rest IH];
    intros k it e d Hk Hbad Hgood; [done|].
  destruct k as [|k]; simpl in Hk.
  - injection Hk as <-.
    exists e, d, 0%nat. split; [|split; [lia|split; [|done]]].
    + simpl. unfold mbind, M_bind, lift.
      destruct (validate_item_raise _ _ _ _ _ Hbad) as [-> | [-> ->]]; done.
    + simpl. by rewrite app_nil_r.
  - pose proof (Hgood 0%nat _ ltac:(lia) eq_refl) as [Hsz Hmime]%validate_item_ok.
    assert (Hrest : ∀ j it', (j < k)%nat → rest !! j = Some it' →
              validate_item cfg it' = Ok ()).
    { intros j it' Hj Hit'. apply (Hgood (S j)); [lia | done]. }
    simpl. unfold upload_file_bytes, mbind, M_bind, lift, files_create.
    rewrite Hsz, Hmime.
    destruct (faults d) as [|[] fs] eqn:Hf.
    + edestruct (IH k it e {| objects := objects d ++
          [DriveFile filename sub content (str_or mime_type "application/octet-stream")];
          faults := [] |} Hk Hbad Hrest) as (e' & d' & j & Hrun & Hj & Hobj & Hh).
      exists e', d', (S j). split; [|split; [lia|split]].
      * unfold mbind, M_bind in Hrun. by rewrite Hrun.
      * rewrite Hobj. simpl. by rewrite <- app_assoc.
      * intros _. destruct Hh as [-> ->]; [|done].
        unfold healthy. simpl. by rewrite take_nil.
    + exists HttpError, {| objects := objects d; faults := fs |}, 0%nat.
      split; [done|split; [lia|split]].
      * simpl. by rewrite app_nil_r.
      * intros [Hnil | (fs' & Heq & _)]%healthy_succ_inv; congruence.
    + edestruct (IH k it e {| objects := objects d ++
          [DriveFile filename sub content (str_or mime_type "application/octet-stream")];
          faults := fs |} Hk Hbad Hrest) as (e' & d' & j & Hrun & Hj & Hobj & Hh).
      exists e', d', (S j). split; [|split; [lia|split]].
      * unfold mbind, M_bind in Hrun. by rewrite Hrun.
      * rewrite Hobj. simpl. by rewrite <- app_assoc.
      * intros [Hnil | (fs' & Heq & Hfs')]%healthy_succ_inv; [congruence|].
        rewrite Hf in Heq. injection Heq as <-.
        destruct Hh as [-> ->]; done.
Qed.

(** C5.  When item [k] is the first one that validation rejects, the batch
    fails; what the backend gained is either nothing (the subfolder could
    not be created) or the subfolder followed by the files of a prefix of
    the items before [k], so no item at position [k] or later is uploaded
    and nothing that was uploaded is taken back.  When the backend does
    not fail, the error is the validation error and every item before [k]
    is uploaded. *)
Theorem upload_media_group_not_transactional
    (cfg : Config) (ts folder : string) (items : list Item)
    (k : nat) (it : Item) (e : exn) (d : Drive) :
  items !! k = Some it →
  validate_item cfg it = Raise e →
  (∀ j it', (j < k)%nat → items !! j = Some it' → validate_item cfg it' = Ok ()) →
  ∃ e' d' created,
    upload_media_group cfg ts folder items d = (Raise e', d')
    ∧ objects d' = objects d ++ created
    ∧ (created = [] ∨
       ∃ j : nat, (j ≤ k)%nat ∧
         created = DriveFolder ("Album_" +:+ ts) folder
                     :: (file_of (fresh_id d) <$> take j items))
    ∧ (healthy (S k) d →
         e' = e ∧
         created = DriveFolder ("Album_" +:+ ts) folder
                     :: (file_of (fresh_id d) <$> take k items)).
Proof.
  intros Hk Hbad Hgood.
  unfold upload_media_group, create_subfolder, mbind, M_bind, files_create.
  destruct (faults d) as [|[] fs] eqn:Hf.
  - destruct (upload_items_rejects cfg (fresh_id d) items k it e
        {| objects := objects d ++ [DriveFolder ("Album_" +:+ ts) folder];
           faults := [] |} Hk Hbad Hgood) as (e' & d' & j & Hrun & Hj & Hobj & Hh).
    exists e', d', (DriveFolder ("Album_" +:+ ts) folder
                      :: (file_of (fresh_id d) <$> take j items)).
    rewrite Hrun. split; [done|split; [|split]].
    + rewrite Hobj. simpl. by rewrite <- app_assoc.
    + right. eauto.
    + intros _. destruct Hh as [-> ->]; [|done].
      unfold healthy. simpl. by rewrite take_nil.
  - exists HttpError, {| objects := objects d; faults := fs |}, [].
    split; [done|split; [by rewrite app_nil_r|split; [by left|]]].
    intros [Hnil | (fs' & Heq & _)]%healthy_succ_inv; congruence.
  - destruct (upload_items_rejects cfg (fresh_id d) items k it e
        {| objects := objects d ++ [DriveFolder ("Album_" +:+ ts) folder];
           faults := fs |} Hk Hbad Hgood) as (e' & d' & j & Hrun & Hj & Hobj & Hh).
    exists e', d', (DriveFolder ("Album_" +:+ ts) folder
                      :: (file_of (fresh_id d) <$> take j items)).
    rewrite Hrun. split; [done|split; [|split]].
    + rewrite Hobj. simpl. by rewrite <- app_assoc.
    + right. eauto.
    + intros [Hnil | (fs' & Heq & Hfs')]%healthy_succ_inv; [congruence|].
      rewrite Hf in Heq. injection Heq as <-.
      destruct Hh as [-> ->]; done.
Qed.

Lemma upload_media_group_not_transactional_witness :
  let cfg := {| max_file_size := 2; allowed_mime_types := Some ["image/jpeg"] |} in
  let items : list Item :=
    [("a.jpg", [Byte.x01], Some "image/jpeg");
     ("b.jpg", [Byte.x01; Byte.x02; Byte.x03], Some "image/jpeg");
     ("c.jpg", [Byte.x01], Some "image/jpeg")] in
  let d := {| objects := []; faults := [] |} in
  ∃ d',
    upload_media_group cfg "20250202_143022" "ROOT" items d
    = (Raise (FileTooLargeError 3 2), d')
    ∧ objects d' = [DriveFolder "Album_20250202_143022" "ROOT";
                    DriveFile "a.jpg" "0" [Byte.x01] "image/jpeg"].
Proof.
  intros cfg items d.
  destruct (upload_media_group_not_transactional cfg "20250202_143022" "ROOT" items
              1 ("b.jpg", [Byte.x01; Byte.x02; Byte.x03], Some "image/jpeg")
              (FileTooLargeError 3 2) d)
    as (e' & d' & created & Hrun & Hobj & _ & Hhealthy).
  - reflexivity.
  - reflexivity.
  - intros [|j] it' Hj Hit'; [|lia].
    simpl in Hit'. injection Hit' as <-. reflexivity.
  - destruct Hhealthy as [He Hcreated]; [apply Forall_nil_2|].
    exists d'. rewrite <- He, Hobj, Hcreated. split; [exact Hrun | reflexivity].
Defined.

(** C10.  The subfolder is created before any item is looked at: when the
    very first item fails validation (and the folder-creating call itself
    succeeds), the batch fails with that validation error, no file has
    been uploaded, and the backend keeps the new, empty subfolder. *)
Theorem upload_media_group_leaves_empty_album
    (cfg : Config) (ts folder : string) (it : Item) (rest : list Item)
    (e : exn) (d : Drive) :
  validate_item cfg it = Raise e →
  head (faults d) ≠ Some true →
  upload_media_group cfg ts folder (it :: rest) d
  = (Raise e, {| objects := objects d ++ [DriveFolder ("Album_" +:+ ts) folder];
                 faults := tail (faults d) |}).
Proof.
  intros Hbad Hcall. destruct it as [[filename content] mime_type].
  unfold upload_media_group, create_subfolder, mbind, M_bind, files_create.
  destruct (faults d) as [|[] fs]; simpl in Hcall; simpl; [|done|];
    unfold mbind, M_bind, lift;
    destruct (validate_item_raise _ _ _ _ _ Hbad) as [-> | [-> ->]]; done.
Qed.

Lemma upload_media_group_leaves_empty_album_witness :
  let cfg := {| max_file_size := default_max_file_size;
                allowed_mime_types := Some ["image/jpeg"] |} in
  let d := {| objects := [DriveFolder "work" "root"]; faults := [] |} in
  upload_media_group cfg "20250202_143022" "0"
    [("notes.pdf", [Byte.x25], Some "application/pdf");
     ("a.jpg", [Byte.x01], Some "image/jpeg")] d
  = (Raise (MimeNotAllowedError "application/pdf"),
     {| objects := [DriveFolder "work" "root";
                    DriveFolder "Album_20250202_143022" "0"];
        faults := [] |}).
Proof.
  intros cfg d.
  apply (upload_media_group_leaves_empty_album cfg "20250202_143022" "0"
           ("notes.pdf", [Byte.x25], Some "application/pdf")
           [("a.jpg", [Byte.x01], Some "image/jpeg")]
           (MimeNotAllowedError "application/pdf") d).
  - reflexivity.
  - discriminate.
Defined.

End UploaderProofs.

(** ** The state store *)

Module DictFacts.
Section dict.
Context {K V : Type} `{EqDecision K}.
Implicit Types (k : K) (v : V) (d : list (K * V)).

Lemma get_set_eq k v d : Dict.get k (Dict.set k v d) = Some v.
Proof.
  induction d as [|[k' v'] d IH]; simpl.
  - by rewrite decide_True.
  - destruct (decide (k = k')) as [->|Hne]; simpl.
    + by rewrite decide_True.
    + by rewrite decide_False.
Qed.

Lemma get_set_ne k k' v d : k ≠ k' → Dict.get k' (Dict.set k v d) = Dict.get k' d.
Proof.
  intros Hne. induction d as [|[k0 v0] d IH]; simpl.
  - by rewrite decide_False.
  - destruct (decide (k = k0)) as [->|Hne0]; simpl.
    + by rewrite !decide_False.
    + by rewrite IH.
Qed.

Lemma set_absent k v d : Dict.get k d = None → Dict.set k v d = d ++ [(k, v)].
Proof.
  induction d as [|[k' v'] d IH]; simpl; [done|].
  destruct (decide (k = k')); [done|]. intros Hd. by rewrite IH.
Qed.

Lemma contains_get k d : Dict.contains k d = bool_decide (is_Some (Dict.get k d)).
Proof.
  unfold Dict.contains. destruct (Dict.get k d).
  - by rewrite bool_decide_eq_true_2.
  - rewrite bool_decide_eq_false_2; [done|]. by intros [? ?].
Qed.
End dict.
End DictFacts.

Module TopicProofs.
Import TopicManager DictFacts PyFacts.

(** Saving touches the disk and nothing else. *)
Lemma save_user_states_fields tm :
  topics (_save_user_states tm) = topics tm
  ∧ user_states (_save_user_states tm) = user_states tm
  ∧ default_folder_id (_save_user_states tm) = default_folder_id tm
  ∧ topics_file (disk (_save_user_states tm)) = topics_file (disk tm).
Proof. unfold _save_user_states. by destruct (writable (disk tm)). Qed.

Lemma save_topics_fields tm :
  topics (_save_topics tm) = topics tm
  ∧ user_states (_save_topics tm) = user_states tm
  ∧ default_folder_id (_save_topics tm) = default_folder_id tm
  ∧ user_state_file (disk (_save_topics tm)) = user_state_file (disk tm).
Proof. unfold _save_topics. by destruct (writable (disk tm)). Qed.

Lemma dict_truthy_lookup (t : Topic) k v : t !! k = Some v → dict_truthy t = true.
Proof.
  intros Hk. unfold dict_truthy. rewrite bool_decide_eq_false_2; [done|].
  intros ->. by rewrite lookup_empty in Hk.
Qed.

Lemma new_topic_name name folder hashtag description :
  new_topic name folder hashtag description !! "name" = Some name.
Proof. unfold new_topic. by rewrite lookup_insert_eq. Qed.

Lemma new_topic_folder name folder hashtag description :
  new_topic name folder hashtag description !! "drive_folder_id" = Some folder.
Proof.
  unfold new_topic. rewrite lookup_insert_ne; [|done]. by rewrite lookup_insert_eq.
Qed.

Lemma set_user_topic_present user_id topic_name tm t :
  Dict.get topic_name (topics tm) = Some t →
  dict_truthy t = true →
  set_user_topic user_id topic_name tm
  = (true, _save_user_states
             (with_user_states tm (Dict.set user_id topic_name (user_states tm)))).
Proof. intros Ht Htruthy. unfold set_user_topic, get_topic. rewrite Ht. simpl. by rewrite Htruthy. Qed.

Lemma add_topic_absent name folder hashtag description tm :
  Dict.get name (topics tm) = None →
  add_topic name folder hashtag description tm
  = (true, _save_topics
             (with_topics tm
                (topics tm ++ [(name, new_topic name folder hashtag description)]))).
Proof.
  intros Hnone. unfold add_topic, Dict.contains. rewrite Hnone.
  by rewrite (set_absent _ _ _ Hnone).
Qed.

(** C3.  With a topic name that is absent from the catalog [set_user_topic]
    returns [False] and the whole state, the user table and the disk
    included, is as before.  When it returns [True] the table maps the user
    to the topic and every other user as before, and the user-state file
    holds the full new table (when the disk takes the write). *)
Theorem set_user_topic_contract (user_id : Z) (topic_name : string) (tm : State) :
  (Dict.get topic_name (topics tm) = None →
     set_user_topic user_id topic_name tm = (false, tm))
  ∧ (∀ tm', set_user_topic user_id topic_name tm = (true, tm') →
       is_Some (Dict.get topic_name (topics tm))
       ∧ user_states tm' = Dict.set user_id topic_name (user_states tm)
       ∧ get_user_topic user_id tm' = Some topic_name
       ∧ (∀ u, u ≠ user_id → get_user_topic u tm' = get_user_topic u tm)
       ∧ topics tm' = topics tm
       ∧ (writable (disk tm) = true →
            user_state_file (disk tm')
            = Some (Parsed ((λ kv : Z * string, (py_str kv.1, kv.2)) <$> user_states tm')))).
Proof.
  unfold set_user_topic, get_topic. split.
  - by intros ->.
  - intros tm'. destruct (Dict.get topic_name (topics tm)) as [t|] eqn:Ht; [|done].
    simpl. destruct (dict_truthy t); [|done]. simpl. intros [= <-].
    destruct (save_user_states_fields
                (with_user_states tm (Dict.set user_id topic_name (user_states tm))))
      as (Htop & Hus & _ & _).
    split; [by eexists|]. split; [by rewrite Hus|]. unfold get_user_topic.
    rewrite Hus. simpl. split; [apply get_set_eq|].
    split; [intros u Hu; by apply get_set_ne|]. split; [by rewrite Htop|].
    intros Hw. unfold _save_user_states. simpl. by rewrite Hw.
Qed.

Lemma set_user_topic_contract_witness :
  set_user_topic 42 "holiday" tm_work = (false, tm_work)
  ∧ ∃ tm', set_user_topic 42 "work" tm_work = (true, tm')
      ∧ user_states tm' = [(7, "work"); (42, "work")]
      ∧ user_state_file (disk tm') = Some (Parsed [("7", "work"); ("42", "work")]).
Proof.
  split.
  - apply (set_user_topic_contract 42 "holiday" tm_work). reflexivity.
  - eexists. split; [reflexivity|].
    destruct (set_user_topic_contract 42 "work" tm_work) as [_ H].
    destruct (H _ eq_refl) as (_ & Hus & _ & _ & _ & Hfile).
    split; [exact Hus | exact (Hfile eq_refl)].
Defined.

(** C9.  With a name that is in the catalog [add_topic] returns [False] and
    the whole state, catalog and disk included, is as before.  With a new
    name it returns [True], the catalog gains the new topic at its end,
    and the topics file holds the full new catalog (when the disk takes
    the write). *)
Theorem add_topic_contract (name folder : string) (hashtag description : option string)
    (tm : State) :
  (is_Some (Dict.get name (topics tm)) →
     add_topic name folder hashtag description tm = (false, tm))
  ∧ (Dict.get name (topics tm) = None →
     ∃ tm', add_topic name folder hashtag description tm = (true, tm')
       ∧ topics tm' = topics tm ++ [(name, new_topic name folder hashtag description)]
       ∧ user_states tm' = user_states tm
       ∧ (writable (disk tm) = true →
            topics_file (disk tm')
            = Some (Parsed (TopicsArray (Dict.values (topics tm')))))).
Proof.
  split.
  - unfold add_topic, Dict.contains. by intros [t ->].
  - intros Hnone. rewrite (add_topic_absent _ _ _ _ _ Hnone).
    eexists. split; [done|].
    destruct (save_topics_fields
                (with_topics tm
                   (topics tm ++ [(name, new_topic name folder hashtag description)])))
      as (Htop & Hus & _ & _).
    rewrite Htop, Hus. simpl. split; [done|split; [done|]].
    intros Hw. unfold _save_topics. simpl. by rewrite Hw.
Qed.

Lemma add_topic_contract_witness :
  add_topic "work" "F2" None None tm_work = (false, tm_work)
  ∧ ∃ tm', add_topic "home" "F3" (Some "#h") None tm_work = (true, tm')
      ∧ topics tm' = topics tm_work ++ [("home", new_topic "home" "F3" (Some "#h") None)]
      ∧ topics_file (disk tm')
        = Some (Parsed (TopicsArray [new_topic "work" "F1" None None;
                                     new_topic "home" "F3" (Some "#h") None])).
Proof.
  split.
  - apply (add_topic_contract "work" "F2" None None tm_work). by eexists.
  - destruct (add_topic_contract "home" "F3" (Some "#h") None tm_work) as [_ H].
    destruct (H eq_refl) as (tm' & Hrun & Htop & _ & Hfile).
    exists tm'. split; [exact Hrun|]. split; [exact Htop|].
    rewrite (Hfile eq_refl), Htop. reflexivity.
Defined.

(** *** Resolving the destination *)

(** C4, counterexample: on a fresh store without default, the topic [""]
    is added with destination ["F1"] and user 7 selects it; both calls
    return [True].  Resolving then takes the empty name for "no topic" and
    raises. *)
Lemma resolve_claim_fails : ¬ resolve_claim.
Proof.
  intros H. destruct (H 7 tm_empty_name) as [Hsel _].
  specialize (Hsel "F1" eq_refl). discriminate Hsel.
Qed.

Lemma default_or_raise_spec tm :
  (∀ f, default_folder_id tm = Some f → f ≠ "" → default_or_raise tm = Ok f)
  ∧ (has_default tm = false → default_or_raise tm = Raise (ValueError no_folder_msg))
  ∧ (has_default tm = true → ¬ raises (default_or_raise tm)).
Proof.
  unfold default_or_raise, has_default, opt_truthy.
  destruct (default_folder_id tm) as [[|c f]|]; simpl.
  - split; [by intros ? [= <-]|]. split; [done|discriminate].
  - split; [by intros ? [= <-]|]. split; [discriminate|]. by intros _ [e He].
  - split; [done|]. split; [done|discriminate].
Qed.

Lemma get_folder_id_for_user_cases user_id tm :
  get_folder_id_for_user user_id tm =
    match usable_destination user_id tm with
    | Some d => Ok d
    | None => default_or_raise tm
    end.
Proof.
  unfold get_folder_id_for_user, usable_destination.
  destruct (get_user_topic user_id tm) as [n|]; simpl; [|done].
  destruct (str_truthy n); [|done].
  destruct (get_topic n tm) as [topic|]; simpl; [|done].
  destruct (topic !! "drive_folder_id") as [d|] eqn:Hd; simpl.
  - by rewrite (dict_truthy_lookup _ _ _ Hd).
  - by destruct (dict_truthy topic).
Qed.

(** C4, amended.  A selection counts when it is a non-empty topic name
    whose catalog entry has a destination: that destination is returned.
    In every other case the configured default is returned, and the call
    raises [ValueError] exactly when there is neither. *)
Theorem get_folder_id_for_user_contract (user_id : Z) (tm : State) :
  (∀ d, usable_destination user_id tm = Some d →
        get_folder_id_for_user user_id tm = Ok d)
  ∧ (usable_destination user_id tm = None →
     ∀ f, default_folder_id tm = Some f → f ≠ "" →
          get_folder_id_for_user user_id tm = Ok f)
  ∧ (get_user_topic user_id tm = None → usable_destination user_id tm = None)
  ∧ (raises (get_folder_id_for_user user_id tm) ↔
     usable_destination user_id tm = None ∧ has_default tm = false)
  ∧ (raises (get_folder_id_for_user user_id tm) →
     get_folder_id_for_user user_id tm = Raise (ValueError no_folder_msg)).
Proof.
  rewrite get_folder_id_for_user_cases.
  destruct (default_or_raise_spec tm) as (Hdef & Hnodef & Hhas).
  split; [by intros d ->|]. split; [intros -> f Hf Hne; by apply Hdef|].
  split; [unfold usable_destination; by intros ->|].
  destruct (usable_destination user_id tm) as [d|].
  - split; [|by intros [e He]]. split; [by intros [e He]|by intros [? _]].
  - split.
    + split.
      * intros Hr. split; [done|]. destruct (has_default tm) eqn:Hd; [|done].
        by destruct (Hhas eq_refl).
      * intros [_ Hd]. rewrite (Hnodef Hd). by eexists.
    + intros Hr. apply Hnodef. destruct (has_default tm) eqn:Hd; [|done].
      by destruct (Hhas eq_refl).
Qed.

Lemma get_folder_id_for_user_contract_witness :
  get_folder_id_for_user 7 tm_work = Ok "F1"
  ∧ get_folder_id_for_user 8 tm_work = Ok "ROOT"
  ∧ get_folder_id_for_user 7 tm_empty_name = Raise (ValueError no_folder_msg).
Proof.
  split; [|split].
  - destruct (get_folder_id_for_user_contract 7 tm_work) as (Hsel & _).
    apply Hsel. reflexivity.
  - destruct (get_folder_id_for_user_contract 8 tm_work) as (_ & Hdef & _).
    apply Hdef; [reflexivity | reflexivity | discriminate].
  - destruct (get_folder_id_for_user_contract 7 tm_empty_name)
      as (_ & _ & _ & Hiff & Hmsg).
    apply Hmsg, Hiff. split; reflexivity.
Defined.

(** *** Round trip *)

(** C8, counterexample: the topic name [""] on a fresh store.  It is added
    and selected, and resolving raises instead of returning ["F1"]. *)
Lemma roundtrip_claim_fails : ¬ roundtrip_claim.
Proof.
  intros H.
  destruct (H tm_fresh "" "F1" None None 42 eq_refl) as (tm1 & tm2 & H1 & H2 & H3).
  injection H1 as <-. injection H2 as <-. discriminate H3.
Qed.

(** C8, amended: for a topic name other than the empty string. *)
Theorem add_set_resolve_roundtrip
    (tm : State) (n d : string) (hashtag description : option string) (u : Z) :
  n ≠ "" →
  Dict.get n (topics tm) = None →
  ∃ tm1 tm2,
    add_topic n d hashtag description tm = (true, tm1)
    ∧ set_user_topic u n tm1 = (true, tm2)
    ∧ get_folder_id_for_user u tm2 = Ok d.
Proof.
  intros Hn Hnone.
  set (T := new_topic n d hashtag description).
  set (tm1 := _save_topics (with_topics tm (topics tm ++ [(n, T)]))).
  set (tm2 := _save_user_states (with_user_states tm1 (Dict.set u n (user_states tm1)))).
  destruct (save_topics_fields (with_topics tm (topics tm ++ [(n, T)])))
    as (Htop1 & _).
  assert (Hget1 : Dict.get n (topics tm1) = Some T).
  { unfold tm1. rewrite Htop1. simpl.
    rewrite <- (set_absent _ _ _ Hnone). apply get_set_eq. }
  destruct (save_user_states_fields
              (with_user_states tm1 (Dict.set u n (user_states tm1))))
    as (Htop2 & Hus2 & _).
  exists tm1, tm2. split; [by apply add_topic_absent|]. split.
  - apply (set_user_topic_present _ _ _ T Hget1).
    apply (dict_truthy_lookup _ _ _ (new_topic_name n d hashtag description)).
  - rewrite get_folder_id_for_user_cases.
    unfold usable_destination, get_user_topic, get_topic, tm2.
    rewrite Hus2, Htop2. simpl. rewrite get_set_eq. simpl.
    rewrite (str_truthy_true n Hn), Hget1. simpl.
    unfold T. by rewrite new_topic_folder.
Qed.

Lemma add_set_resolve_roundtrip_witness :
  ∃ tm1 tm2,
    add_topic "work" "F1" None None tm_fresh = (true, tm1)
    ∧ set_user_topic 42 "work" tm1 = (true, tm2)
    ∧ get_folder_id_for_user 42 tm2 = Ok "F1".
Proof.
  apply (add_set_resolve_roundtrip tm_fresh "work" "F1" None None 42).
  - discriminate.
  - reflexivity.
Defined.

(** *** Start-up *)

Lemma load_topics_fields tm :
  user_state_file (disk (_load_topics tm)) = user_state_file (disk tm)
  ∧ user_states (_load_topics tm) = user_states tm
  ∧ writable (disk (_load_topics tm)) = writable (disk tm).
Proof.
  unfold _load_topics.
  destruct (topics_file (disk tm)) as [[raw|data]|]; [done| |].
  - by destruct (mapM _ _).
  - unfold _save_topics. simpl. by destruct (writable (disk tm)) eqn:Hw.
Qed.

(** C7, counterexample: a writable disk whose user-state file is cut
    short.  The table comes up empty and the file is still the corrupted
    one: the [except] branch of [_load_user_states] does not save. *)
Lemma corrupted_restart_claim_fails : ¬ corrupted_restart_claim.
Proof.
  intros H.
  destruct (H None {| topics_file := Some (Parsed (TopicsArray []));
                      user_state_file := Some (Malformed "{42: wor");
                      writable := true |} _ eq_refl) as [_ Hfile].
  discriminate Hfile.
Qed.

(** C7, amended.  Start-up always returns a store, and it writes the
    user-state file only when that file is absent.  A file that is there
    is left as it is, whatever it holds: with malformed content, or with
    a key that [int()] rejects, the table comes up empty and the file
    stays; a file that loads stays as well.  When the file is absent the
    table is empty and the empty file is written, unless the disk refuses
    the write, in which case there is still no file. *)
Theorem init_user_state_file (dflt : option string) (d : Disk) :
  (∀ raw, user_state_file d = Some (Malformed raw) →
     user_states (init dflt d) = []
     ∧ user_state_file (disk (init dflt d)) = Some (Malformed raw))
  ∧ (∀ data, user_state_file d = Some (Parsed data) →
     Exists (λ kv : string * string, py_int kv.1 = None) data →
     user_states (init dflt d) = []
     ∧ user_state_file (disk (init dflt d)) = Some (Parsed data))
  ∧ (∀ file, user_state_file d = Some file →
     user_state_file (disk (init dflt d)) = Some file)
  ∧ (user_state_file d = None →
     user_states (init dflt d) = []
     ∧ user_state_file (disk (init dflt d))
       = if writable d then Some (Parsed []) else None).
Proof.
  unfold init.
  set (tm0 := {| default_folder_id := dflt; topics := []; user_states := []; disk := d |}).
  destruct (load_topics_fields tm0) as (Hfile & Hus & Hw).
  unfold _load_user_states. rewrite Hfile. simpl.
  split; [|split; [|split]].
  - intros raw Hraw. rewrite Hraw. simpl. by rewrite Hfile.
  - intros data Hdata Hbad. rewrite Hdata.
    rewrite (mapM_None_2 _ data).
    + simpl. by rewrite Hfile.
    + eapply Exists_impl; [done|]. intros kv Hkv. simpl. by rewrite Hkv.
  - intros file Hpresent. rewrite Hpresent.
    destruct file as [raw|data]; simpl; [by rewrite Hfile|].
    destruct (mapM _ data); simpl; by rewrite Hfile.
  - intros Habsent. rewrite Habsent. unfold _save_user_states. simpl. rewrite Hw. simpl.
    destruct (writable d); simpl; [done|]. by rewrite Hfile.
Qed.

Lemma init_user_state_file_witness :
  let corrupted := {| topics_file := None;
                      user_state_file := Some (Malformed "not json");
                      writable := true |} in
  let bad_key := {| topics_file := None;
                    user_state_file := Some (Parsed [("7", "work"); ("seven", "home")]);
                    writable := true |} in
  let loaded := {| topics_file := None;
                   user_state_file := Some (Parsed [("7", "work")]);
                   writable := true |} in
  let absent := {| topics_file := None; user_state_file := None; writable := true |} in
  (user_states (init (Some "ROOT") corrupted) = []
   ∧ user_state_file (disk (init (Some "ROOT") corrupted)) = Some (Malformed "not json"))
  ∧ (user_states (init (Some "ROOT") bad_key) = []
     ∧ user_state_file (disk (init (Some "ROOT") bad_key))
       = Some (Parsed [("7", "work"); ("seven", "home")]))
  ∧ user_state_file (disk (init (Some "ROOT") loaded)) = Some (Parsed [("7", "work")])
  ∧ user_state_file (disk (init (Some "ROOT") absent)) = Some (Parsed []).
Proof.
  intros corrupted bad_key loaded absent. split; [|split; [|split]].
  - apply (init_user_state_file (Some "ROOT") corrupted). reflexivity.
  - destruct (init_user_state_file (Some "ROOT") bad_key) as (_ & Hbad & _).
    apply (Hbad [("7", "work"); ("seven", "home")]); [reflexivity|].
    apply Exists_cons_tl, Exists_cons_hd. reflexivity.
  - destruct (init_user_state_file (Some "ROOT") loaded) as (_ & _ & Hkeep & _).
    by apply Hkeep.
  - destruct (init_user_state_file (Some "ROOT") absent) as (_ & _ & _ & Habsent).
    by destruct Habsent as [_ ->].
Defined.

End TopicProofs.

(** ** The aggregation engine *)

Module BotProofs.
Import Bot.

(** *** What a firing timer changes *)

Lemma wake_lists timer s : lists (wake timer s) = lists s.
Proof.
  unfold wake, process_media_group_locked. simpl.
  by destruct (_media_group_buffer s !! timer.2).
Qed.

Lemma wake_sleepers timer s : sleepers (wake timer s) = sleepers s.
Proof.
  unfold wake, process_media_group_locked. simpl.
  by destruct (_media_group_buffer s !! timer.2).
Qed.

Lemma wake_ready timer s : ready (wake timer s) = ready s.
Proof.
  unfold wake, process_media_group_locked. simpl.
  by destruct (_media_group_buffer s !! timer.2).
Qed.

Lemma wake_buffer timer s :
  _media_group_buffer (wake timer s) = delete timer.2 (_media_group_buffer s).
Proof.
  unfold wake, process_media_group_locked. simpl.
  destruct (_media_group_buffer s !! timer.2) eqn:Hk; simpl; [done|].
  by rewrite delete_id.
Qed.

Lemma wake_in_flight timer s :
  in_flight (wake timer s) =
    in_flight s ++
      match _media_group_buffer s !! timer.2 with
      | Some r => [{| fl_key := timer.2; fl_entries := r; fl_time := timer.1 |}]
      | None => []
      end.
Proof.
  unfold wake, process_media_group_locked. simpl.
  destruct (_media_group_buffer s !! timer.2); simpl; [done|].
  by rewrite app_nil_r.
Qed.

Lemma fire_cons timer due s : fire (timer :: due) s = fire due (wake timer s).
Proof. done. Qed.

Lemma fire_lists due s : lists (fire due s) = lists s.
Proof.
  revert s. induction due as [|timer due IH]; intros s; [done|].
  by rewrite fire_cons, IH, wake_lists.
Qed.

Lemma fire_sleepers due s : sleepers (fire due s) = sleepers s.
Proof.
  revert s. induction due as [|timer due IH]; intros s; [done|].
  by rewrite fire_cons, IH, wake_sleepers.
Qed.

Lemma fire_ready due s : ready (fire due s) = ready s.
Proof.
  revert s. induction due as [|timer due IH]; intros s; [done|].
  by rewrite fire_cons, IH, wake_ready.
Qed.

Lemma fire_buffer_Some due s k r :
  _media_group_buffer (fire due s) !! k = Some r →
  _media_group_buffer s !! k = Some r.
Proof.
  revert s. induction due as [|timer due IH]; intros s; [done|].
  rewrite fire_cons. intros H%IH. rewrite wake_buffer in H.
  by apply lookup_delete_Some in H as [_ H].
Qed.

Lemma fire_buffer_None due s k :
  _media_group_buffer s !! k = None →
  _media_group_buffer (fire due s) !! k = None.
Proof.
  intros Hk. destruct (_media_group_buffer (fire due s) !! k) eqn:H; [|done].
  apply fire_buffer_Some in H. congruence.
Qed.



(** *** What the passing of time changes *)

Lemma advance_to_lists t s : lists (advance_to t s) = lists s.
Proof. unfold advance_to. simpl. by rewrite fire_lists. Qed.

Lemma advance_to_now t s : now (advance_to t s) = Z.max (now s) t.
Proof. done. Qed.

Lemma advance_to_sleepers t s :
  sleepers (advance_to t s) = filter (λ timer, t < timer.1) (sleepers s).
Proof. unfold advance_to. simpl. by rewrite fire_sleepers. Qed.

Lemma advance_to_ready t s : ready (advance_to t s) = ready s.
Proof. unfold advance_to. simpl. by rewrite fire_ready. Qed.



(** *** What an arriving update changes *)

Lemma handle_single msg context s :
  group_key msg = None → (handle_media_with_group msg context s).1 = s.
Proof. unfold handle_media_with_group. by intros ->. Qed.

Lemma handle_existing msg context s k r :
  group_key msg = Some k →
  _media_group_buffer s !! k = Some r →
  (handle_media_with_group msg context s).1 =
    {| now := now s;
       lists := alter (λ l, l ++ [(msg, context)]) r (lists s);
       _media_group_buffer := _media_group_buffer s;
       _media_group_tasks := _media_group_tasks s;
       ready := ready s;
       sleepers := sleepers s; in_flight := in_flight s |}.
Proof.
  intros Hkey Hk. unfold handle_media_with_group. rewrite Hkey, Hk. simpl.
  unfold append_entry. by rewrite Hk.
Qed.

(** A new group: the list is created with the update in it and
    [schedule_media_group] is queued; no handle and no timer yet. *)
Lemma handle_new msg context s k :
  group_key msg = Some k →
  _media_group_buffer s !! k = None →
  (handle_media_with_group msg context s).1 =
    {| now := now s;
       lists := <[fresh (dom (lists s)) := [(msg, context)]]> (lists s);
       _media_group_buffer := <[k := fresh (dom (lists s))]> (_media_group_buffer s);
       _media_group_tasks := _media_group_tasks s;
       ready := ready s ++ [RunSchedule k];
       sleepers := sleepers s;
       in_flight := in_flight s |}.
Proof.
  intros Hkey Hk. unfold handle_media_with_group. rewrite Hkey, Hk. simpl.
  unfold append_entry, create_task, new_group. simpl.
  rewrite lookup_insert_eq. by rewrite alter_insert_eq.
Qed.

Lemma fresh_list_None (s : Loop) : lists s !! fresh (dom (lists s)) = None.
Proof. apply not_elem_of_dom, is_fresh. Qed.

(** *** What a turn of the queue changes *)

Lemma step_nil s : ready s = [] → step s = s.
Proof. unfold step. by intros ->. Qed.

Lemma step_schedule s k q :
  ready s = RunSchedule k :: q →
  step s =
    {| now := now s; lists := lists s;
       _media_group_buffer := _media_group_buffer s;
       _media_group_tasks := <[k := now s]> (_media_group_tasks s);
       ready := q ++ [RunTask k];
       sleepers := sleepers s; in_flight := in_flight s |}.
Proof. unfold step. by intros ->. Qed.

Lemma step_task s k q :
  ready s = RunTask k :: q →
  step s =
    {| now := now s; lists := lists s;
       _media_group_buffer := _media_group_buffer s;
       _media_group_tasks := _media_group_tasks s;
       ready := q;
       sleepers := sleepers s ++ [(now s + MEDIA_GROUP_DELAY, k)];
       in_flight := in_flight s |}.
Proof. unfold step. by intros ->. Qed.

(** A turn of the queue touches neither the clock, nor the buffer, nor
    any list, nor the flushes. *)
Lemma step_frame s :
  now (step s) = now s
  ∧ lists (step s) = lists s
  ∧ _media_group_buffer (step s) = _media_group_buffer s
  ∧ in_flight (step s) = in_flight s.
Proof.
  destruct (ready s) as [|[k|k] q] eqn:Hq.
  - by rewrite step_nil.
  - by rewrite (step_schedule s k q).
  - by rewrite (step_task s k q).
Qed.

Lemma iter_step_frame (n : nat) s :
  now (Nat.iter n step s) = now s
  ∧ lists (Nat.iter n step s) = lists s
  ∧ _media_group_buffer (Nat.iter n step s) = _media_group_buffer s
  ∧ in_flight (Nat.iter n step s) = in_flight s.
Proof.
  induction n as [|n (Hnow & Hlists & Hbuf & Hfl)]; [done|].
  simpl. destruct (step_frame (Nat.iter n step s)) as (-> & -> & -> & ->). done.
Qed.

Lemma settle_lists s : lists (settle s) = lists s.
Proof. apply iter_step_frame. Qed.

Lemma settle_buffer s : _media_group_buffer (settle s) = _media_group_buffer s.
Proof. apply iter_step_frame. Qed.

Lemma settle_in_flight s : in_flight (settle s) = in_flight s.
Proof. apply iter_step_frame. Qed.

Lemma settle_now s : now (settle s) = now s.
Proof. apply iter_step_frame. Qed.


Lemma settled_nil s : ready s = [] → settled s = s.
Proof.
  destruct s as [t ls buf tasks q sl fls]. simpl. intros ->.
  unfold settled. simpl. by rewrite app_nil_r.
Qed.

Lemma task_keys_app q1 q2 : task_keys (q1 ++ q2) = task_keys q1 ++ task_keys q2.
Proof. apply omap_app. Qed.

Lemma schedule_keys_app q1 q2 :
  schedule_keys (q1 ++ q2) = schedule_keys q1 ++ schedule_keys q2.
Proof. apply omap_app. Qed.

(** Running the queue for long enough gives the closed form. *)
Lemma iter_step_settled (n : nat) :
  ∀ s, (length (ready s) + length (schedule_keys (ready s)) ≤ n)%nat →
       Nat.iter n step s = settled s.
Proof.
  induction n as [|n IH]; intros s Hn.
  - destruct (ready s) as [|job q] eqn:Hq; [|simpl in Hn; lia].
    simpl. by rewrite settled_nil.
  - rewrite Nat.iter_succ_r.
    destruct (ready s) as [|[k|k] q] eqn:Hq.
    + rewrite step_nil by done. apply IH. rewrite Hq. simpl. lia.
    + rewrite (step_schedule s k q Hq), IH.
      * unfold settled. simpl. rewrite Hq. simpl.
        rewrite task_keys_app, schedule_keys_app. simpl.
        rewrite !app_nil_r. f_equal. f_equal.
        rewrite !fmap_app. simpl. by rewrite <- app_assoc.
      * simpl. rewrite schedule_keys_app, !length_app.
        simpl in *. lia.
    + rewrite (step_task s k q Hq), IH.
      * unfold settled. simpl. rewrite Hq. simpl.
        by rewrite <- app_assoc.
      * simpl in *. lia.
Qed.

Lemma schedule_keys_length q : (length (schedule_keys q) ≤ length q)%nat.
Proof.
  induction q as [|[k|k] q IH]; simpl; [lia| |]; unfold schedule_keys in *; simpl; lia.
Qed.

Lemma settle_settled s : settle s = settled s.
Proof.
  unfold settle. apply iter_step_settled.
  pose proof (schedule_keys_length (ready s)). lia.
Qed.

Lemma settle_ready s : ready (settle s) = [].
Proof. by rewrite settle_settled. Qed.

Lemma settle_sleepers s :
  sleepers (settle s) = sleepers s ++
    ((λ k, (now s + MEDIA_GROUP_DELAY, k)) <$>
       (task_keys (ready s) ++ schedule_keys (ready s))).
Proof. by rewrite settle_settled. Qed.

Lemma task_keys_elem k q : k ∈ task_keys q → k ∈ job_key <$> q.
Proof.
  unfold task_keys. intros (job & Hin & Hjob)%list_elem_of_omap.
  destruct job as [k'|k']; [done|]. injection Hjob as ->.
  by apply (list_elem_of_fmap_2 job_key _ (RunTask k)).
Qed.

Lemma schedule_keys_elem k q : k ∈ schedule_keys q ↔ RunSchedule k ∈ q.
Proof.
  unfold schedule_keys. rewrite list_elem_of_omap. split.
  - intros (job & Hin & Hjob). destruct job as [k'|k']; [|done]. by injection Hjob as ->.
  - intros Hin. by exists (RunSchedule k).
Qed.

(** Whoever is queued keeps its key: the keys with something pending are
    the same after a turn, in another order. *)
Lemma step_pending s : pending (step s) ≡ₚ pending s.
Proof.
  destruct (ready s) as [|[k|k] q] eqn:Hq.
  - by rewrite step_nil.
  - rewrite (step_schedule s k q Hq). unfold pending. rewrite Hq. simpl.
    rewrite fmap_app. simpl.
    rewrite <- app_assoc. simpl. by rewrite <- Permutation_middle.
  - rewrite (step_task s k q Hq). unfold pending. rewrite Hq. simpl.
    rewrite fmap_app. simpl.
    rewrite app_assoc. by rewrite <- Permutation_cons_append.
Qed.

(** *** Well-formedness *)

Lemma wf_init : wf init.
Proof.
  split; unfold pending; simpl; try done; try apply NoDup_nil_2;
    intros; match goal with H : _ ∈ [] |- _ => by apply elem_of_nil in H end.
Qed.

Lemma wf_timer_key s timer :
  wf s → timer ∈ sleepers s → is_Some (_media_group_buffer s !! timer.2).
Proof.
  intros Hwf Hin. apply (wf_pending_key s Hwf). unfold pending.
  apply elem_of_app. right. by apply list_elem_of_fmap_2.
Qed.

Lemma wf_job_key s job :
  wf s → job ∈ ready s → is_Some (_media_group_buffer s !! job_key job).
Proof.
  intros Hwf Hin. apply (wf_pending_key s Hwf). unfold pending.
  apply elem_of_app. left. by apply list_elem_of_fmap_2.
Qed.

Lemma wf_timer_nodup s : wf s → NoDup (sleepers s).*2.
Proof.
  intros Hwf. pose proof (wf_pending_nodup s Hwf) as Hnodup. unfold pending in Hnodup.
  by apply NoDup_app in Hnodup as (_ & _ & ?).
Qed.

Lemma wf_handle msg context s : wf s → wf (handle_media_with_group msg context s).1.
Proof.
  intros [Hlive Hinj Hpend Hnodup Hflive Hfdet].
  destruct (group_key msg) as [k|] eqn:Hkey; [|by rewrite handle_single].
  destruct (_media_group_buffer s !! k) as [r|] eqn:Hk.
  - rewrite (handle_existing _ _ _ _ _ Hkey Hk).
    split; simpl; try done.
    + intros k' r' Hk'. apply lookup_alter_is_Some. eauto.
    + intros fl Hin. apply lookup_alter_is_Some. eauto.
  - rewrite (handle_new _ _ _ _ Hkey Hk).
    pose proof (fresh_list_None s) as Hfresh.
    assert (Hperm : (job_key <$> ready s ++ [RunSchedule k]) ++ (sleepers s).*2
                    ≡ₚ k :: pending s).
    { unfold pending. rewrite fmap_app. simpl. rewrite <- app_assoc. simpl.
      by rewrite <- Permutation_middle. }
    split; simpl.
    + intros k' r' Hk'. apply lookup_insert_is_Some'.
      apply lookup_insert_Some in Hk' as [[_ <-] | [_ Hk']]; [by left|].
      right. eauto.
    + intros k1 k2 r' H1 H2.
      apply lookup_insert_Some in H1 as [[<- <-] | [Hne1 H1]];
        apply lookup_insert_Some in H2 as [[<- Heq] | [Hne2 H2]]; try done.
      * destruct (Hlive _ _ H2) as [? ?]. congruence.
      * destruct (Hlive _ _ H1) as [? ?]. congruence.
      * eauto.
    + intros k'. unfold pending. simpl. rewrite Hperm.
      intros Hin. apply lookup_insert_is_Some'.
      apply elem_of_cons in Hin as [->|Hin]; [by left|]. right. eauto.
    + unfold pending. simpl. rewrite Hperm. apply NoDup_cons. split; [|done].
      intros Hin. destruct (Hpend _ Hin) as [? ?]. congruence.
    + intros fl Hin. apply lookup_insert_is_Some'. right. eauto.
    + intros fl k' Hin Hk'.
      apply lookup_insert_Some in Hk' as [[_ Heq] | [_ Hk']].
      * destruct (Hflive _ Hin) as [? ?]. congruence.
      * by apply (Hfdet fl k').
Qed.

Lemma wf_step s : wf s → wf (step s).
Proof.
  intros [Hlive Hinj Hpend Hnodup Hflive Hfdet].
  destruct (step_frame s) as (_ & Hlists & Hbuf & Hfl).
  split; rewrite ?Hlists, ?Hbuf, ?Hfl, ?step_pending; try done.
  intros k. rewrite step_pending. apply Hpend.
Qed.

Lemma wf_iter_step (n : nat) s : wf s → wf (Nat.iter n step s).
Proof. intros Hwf. induction n as [|n IH]; [done|]. simpl. by apply wf_step. Qed.

Lemma wf_settle s : wf s → wf (settle s).
Proof. apply wf_iter_step. Qed.

Lemma wake_pending timer s : pending (wake timer s) = pending s.
Proof. unfold pending. by rewrite wake_ready, wake_sleepers. Qed.

Lemma wf_wake timer s : wf s → timer.2 ∉ pending s → wf (wake timer s).
Proof.
  intros [Hlive Hinj Hpend Hnodup Hflive Hfdet] Hnotin.
  split; rewrite ?wake_lists, ?wake_buffer, ?wake_pending, ?wake_in_flight; try done.
  - intros k r [_ Hk]%lookup_delete_Some. eauto.
  - intros k1 k2 r [_ H1]%lookup_delete_Some [_ H2]%lookup_delete_Some. eauto.
  - intros k Hin. apply lookup_delete_is_Some. split; [|eauto]. by intros <-.
  - intros fl [Hin | Hin]%elem_of_app; [eauto|].
    destruct (_media_group_buffer s !! timer.2) as [r|] eqn:Hk;
      [|by apply elem_of_nil in Hin].
    apply list_elem_of_singleton in Hin as ->. simpl. eauto.
  - intros fl k [Hin | Hin]%elem_of_app [Hne Hk]%lookup_delete_Some.
    + by apply (Hfdet fl k).
    + destruct (_media_group_buffer s !! timer.2) as [r|] eqn:Ht;
        [|by apply elem_of_nil in Hin].
      apply list_elem_of_singleton in Hin as ->. simpl in Hk.
      apply Hne. eauto.
Qed.

Lemma wf_fire due s :
  wf s → (∀ timer, timer ∈ due → timer.2 ∉ pending s) → wf (fire due s).
Proof.
  revert s. induction due as [|timer due IH]; intros s Hwf Hdue; [done|].
  rewrite fire_cons. apply IH.
  - apply wf_wake; [done|]. apply Hdue. by left.
  - intros timer' Hin. rewrite wake_pending. apply Hdue. by right.
Qed.

(** Under distinct keys, a timer that is due shares its key with no timer
    that keeps sleeping. *)
Lemma due_key_not_sleeping (t : Z) (timers : list (Z * string)) timer :
  NoDup timers.*2 →
  timer ∈ filter (λ timer, timer.1 ≤ t) timers →
  timer.2 ∉ (filter (λ timer, t < timer.1) timers).*2.
Proof.
  induction timers as [|timer' timers IH]; intros Hnodup Hin; [by apply elem_of_nil in Hin|].
  rewrite fmap_cons in Hnodup. apply NoDup_cons in Hnodup as [Hnotin Hnodup].
  apply list_elem_of_filter in Hin as [Hdue Hin].
  intros Hkeep. apply list_elem_of_fmap in Hkeep as (other & Hkey & Hother).
  apply list_elem_of_filter in Hother as [Hlater Hother].
  apply elem_of_cons in Hin as [-> | Hin];
    apply elem_of_cons in Hother as [-> | Hother].
  - lia.
  - apply Hnotin. rewrite Hkey. by apply list_elem_of_fmap_2.
  - apply Hnotin. rewrite <- Hkey. by apply list_elem_of_fmap_2.
  - apply (IH Hnodup).
    + apply list_elem_of_filter. by split.
    + rewrite Hkey. apply list_elem_of_fmap_2. apply list_elem_of_filter. by split.
Qed.

(** Nor with anything that is queued. *)
Lemma due_key_not_pending (t : Z) s timer :
  wf s →
  timer ∈ filter (λ timer, timer.1 ≤ t) (sleepers s) →
  timer.2 ∉ (job_key <$> ready s) ++ (filter (λ timer, t < timer.1) (sleepers s)).*2.
Proof.
  intros Hwf Hin [Hjob|Hlater]%elem_of_app.
  - pose proof (wf_pending_nodup s Hwf) as Hnodup. unfold pending in Hnodup.
    apply NoDup_app in Hnodup as (_ & Hdisj & _).
    apply (Hdisj _ Hjob). apply list_elem_of_fmap_2.
    by apply list_elem_of_filter in Hin as [_ ?].
  - by apply (due_key_not_sleeping t (sleepers s) timer (wf_timer_nodup s Hwf)).
Qed.

Lemma wf_advance t s : wf s → wf (advance_to t s).
Proof.
  intros Hwf. pose proof Hwf as [Hlive Hinj Hpend Hnodup Hflive Hfdet].
  set (s1 := {| now := now s; lists := lists s;
                _media_group_buffer := _media_group_buffer s;
                _media_group_tasks := _media_group_tasks s;
                ready := ready s;
                sleepers := filter (λ timer, t < timer.1) (sleepers s);
                in_flight := in_flight s |}).
  assert (Hsub : sublist (pending s1) (pending s)).
  { unfold pending. simpl. apply sublist_app; [done|].
    apply fmap_sublist, sublist_filter. }
  assert (Hwf1 : wf s1).
  { split; simpl; try done.
    - intros k Hin. apply Hpend. by apply (sublist_subseteq _ _ Hsub).
    - by eapply sublist_NoDup. }
  assert (Hwf2 : wf (fire (filter (λ timer, timer.1 ≤ t) (sleepers s)) s1)).
  { apply wf_fire; [done|]. intros timer Hin.
    by apply (due_key_not_pending t s timer). }
  destruct Hwf2 as [? ? ? ? ? ?]. by split.
Qed.

Lemma reachable_wf s : reachable s → wf s.
Proof.
  induction 1; [apply wf_init | by apply wf_handle | by apply wf_step | by apply wf_advance].
Qed.

Lemma reachable_iter_step (n : nat) s : reachable s → reachable (Nat.iter n step s).
Proof. intros Hr. induction n as [|n IH]; [done|]. simpl. by apply reachable_step. Qed.

Lemma reachable_settle s : reachable s → reachable (settle s).
Proof. apply reachable_iter_step. Qed.

(** *** Flushed lists are out of reach *)

Lemma fire_in_flight_mono due s fl : fl ∈ in_flight s → fl ∈ in_flight (fire due s).
Proof.
  revert s. induction due as [|timer due IH]; intros s Hin; [done|].
  rewrite fire_cons. apply IH. rewrite wake_in_flight. apply elem_of_app. by left.
Qed.

Lemma advance_to_in_flight_mono t s fl :
  fl ∈ in_flight s → fl ∈ in_flight (advance_to t s).
Proof. intros Hin. unfold advance_to. simpl. by apply fire_in_flight_mono. Qed.

Lemma handle_in_flight msg context s :
  in_flight (handle_media_with_group msg context s).1 = in_flight s.
Proof.
  destruct (group_key msg) as [k|] eqn:Hkey; [|by rewrite handle_single].
  destruct (_media_group_buffer s !! k) as [r|] eqn:Hk.
  - by rewrite (handle_existing _ _ _ _ _ Hkey Hk).
  - by rewrite (handle_new _ _ _ _ Hkey Hk).
Qed.

Lemma handle_flushed_list msg context s fl :
  wf s → fl ∈ in_flight s →
  lists (handle_media_with_group msg context s).1 !! fl_entries fl
  = lists s !! fl_entries fl.
Proof.
  intros Hwf Hin.
  destruct (group_key msg) as [k|] eqn:Hkey; [|by rewrite handle_single].
  destruct (_media_group_buffer s !! k) as [r|] eqn:Hk.
  - rewrite (handle_existing _ _ _ _ _ Hkey Hk). simpl.
    apply lookup_alter_ne. intros ->. by apply (wf_flush_detached s Hwf fl k).
  - rewrite (handle_new _ _ _ _ Hkey Hk). simpl.
    apply lookup_insert_ne. intros Heq.
    destruct (wf_flush_live s Hwf fl Hin) as [es Hes].
    pose proof (fresh_list_None s) as Hfresh. congruence.
Qed.

Lemma wf_deliver a s : wf s → wf (deliver a s).
Proof. intros Hwf. by apply wf_settle, wf_handle, wf_advance. Qed.

Lemma deliver_flushed_list a s fl :
  wf s → fl ∈ in_flight s →
  lists (deliver a s) !! fl_entries fl = lists s !! fl_entries fl
  ∧ fl ∈ in_flight (deliver a s).
Proof.
  intros Hwf Hin. unfold deliver. rewrite settle_lists, settle_in_flight. split.
  - rewrite handle_flushed_list.
    + by rewrite advance_to_lists.
    + by apply wf_advance.
    + by apply advance_to_in_flight_mono.
  - rewrite handle_in_flight. by apply advance_to_in_flight_mono.
Qed.

Lemma run_cons a arrivals s : run (a :: arrivals) s = run arrivals (deliver a s).
Proof. done. Qed.

Lemma run_flushed_list arrivals s fl :
  wf s → fl ∈ in_flight s →
  lists (run arrivals s) !! fl_entries fl = lists s !! fl_entries fl.
Proof.
  revert s. induction arrivals as [|a arrivals IH]; intros s Hwf Hin; [done|].
  rewrite run_cons. destruct (deliver_flushed_list a s fl Hwf Hin) as [Heq Hin'].
  rewrite IH; [done| by apply wf_deliver | done].
Qed.

(** Once its flush has begun, a group's key is free again. *)
Lemma wake_frees_key timer s : _media_group_buffer (wake timer s) !! timer.2 = None.
Proof. rewrite wake_buffer. apply lookup_delete_eq. Qed.

(** *** One debounce window *)


Lemma filter_key_nil (k : string) (timers : list (Z * string)) :
  k ∉ timers.*2 → filter (λ timer, timer.2 = k) timers = [].
Proof.
  induction timers as [|timer timers IH]; intros Hk; [done|].
  rewrite fmap_cons in Hk. apply not_elem_of_cons in Hk as [Hne Hk].
  rewrite filter_cons_False by congruence. by apply IH.
Qed.





Lemma members_of_cons k a arrivals :
  members_of k (a :: arrivals) =
    (if decide (group_key (arr_msg a) = Some k)
     then [(arr_msg a, arr_context a)] else []) ++ members_of k arrivals.
Proof.
  unfold members_of. rewrite filter_cons. by destruct (decide _).
Qed.



Lemma filter_timers_notin (t : Z) (k : string) (l : list string) :
  k ∉ l → filter (λ timer : Z * string, timer.2 = k) ((λ k', (t, k')) <$> l) = [].
Proof.
  induction l as [|k' l IH]; intros Hk; [done|].
  apply not_elem_of_cons in Hk as [Hne Hk]. rewrite fmap_cons.
  rewrite filter_cons_False by (simpl; congruence). by apply IH.
Qed.

(** The first update of a group: once the queue has run, the group is
    collecting and its timer is due one delay from now. *)
Lemma collecting_start k s msg context :
  wf s →
  _media_group_buffer s !! k = None →
  group_key msg = Some k →
  collecting k (fresh (dom (lists s))) (now s + MEDIA_GROUP_DELAY)
    [(msg, context)] (flushes_of k s)
    (settle (handle_media_with_group msg context s).1).
Proof.
  intros Hwf Hk Hkey. rewrite settle_settled, (handle_new _ _ _ _ Hkey Hk).
  pose proof (fresh_list_None s) as Hfresh.
  assert (Hjobs : k ∉ job_key <$> ready s).
  { intros Hin. apply list_elem_of_fmap in Hin as (job & -> & Hin).
    destruct (wf_job_key s job Hwf Hin) as [? ?]. congruence. }
  unfold settled. simpl.
  split; [|split; [|split; [|split; [|split]]]]; simpl.
  - apply lookup_insert_eq.
  - apply lookup_insert_eq.
  - intros k' [[Heq _] | [_ Hk']]%lookup_insert_Some; [done|].
    destruct (wf_buffer_live s Hwf _ _ Hk') as [? ?]. congruence.
  - rewrite task_keys_app, schedule_keys_app. simpl. rewrite app_nil_r.
    rewrite app_assoc, fmap_app, !filter_app. simpl.
    rewrite filter_cons_True, filter_nil by done.
    rewrite filter_key_nil.
    2:{ intros Hin. apply list_elem_of_fmap in Hin as (timer & -> & Hin).
        destruct (wf_timer_key s timer Hwf Hin) as [? ?]. congruence. }
    rewrite filter_timers_notin; [done|].
    intros [Hin|Hin]%elem_of_app; apply Hjobs.
    + by apply task_keys_elem.
    + apply schedule_keys_elem in Hin.
      by apply (list_elem_of_fmap_2 job_key _ (RunSchedule k)).
  - done.
  - done.
Qed.



(** *** From the popped entries to the batch *)





(** C2.  In any reachable state, take a flush that has begun and an update
    that carries the key of that flush.  The list object the flush popped
    is not touched, neither by this update nor by anything that arrives
    later.  The update is appended to a list object other than the
    flushed one; when the key has no live group (as is the case from the
    moment the flush removed it), that list is a new object holding just
    this update, with a [schedule_media_group] of its own queued, which
    gives it, once the queue has run, its one flush timer, a full delay
    ahead. *)
Theorem late_arrival_starts_new_group
    (s : Loop) (fl : Flush) (msg : Message) (context : Context) :
  reachable s →
  fl ∈ in_flight s →
  group_key msg = Some (fl_key fl) →
  let s' := (handle_media_with_group msg context s).1 in
  (∀ later, lists (run later s') !! fl_entries fl = lists s !! fl_entries fl)
  ∧ ∃ r',
      _media_group_buffer s' !! fl_key fl = Some r'
      ∧ r' ≠ fl_entries fl
      ∧ (∃ es, lists s' !! r' = Some (es ++ [(msg, context)]))
      ∧ (_media_group_buffer s !! fl_key fl = None →
           lists s !! r' = None
           ∧ lists s' !! r' = Some [(msg, context)]
           ∧ sleepers s' = sleepers s
           ∧ ready s' = ready s ++ [RunSchedule (fl_key fl)]
           ∧ filter (λ timer, timer.2 = fl_key fl) (sleepers (settle s'))
             = [(now s + MEDIA_GROUP_DELAY, fl_key fl)]
           ∧ (ready s = [] →
              sleepers (settle s') =
                sleepers s ++ [(now s + MEDIA_GROUP_DELAY, fl_key fl)])).
Proof.
  intros Hreach Hin Hkey s'. pose proof (reachable_wf s Hreach) as Hwf.
  split.
  - intros later. unfold s'. rewrite run_flushed_list.
    + by apply handle_flushed_list.
    + by apply wf_handle.
    + by rewrite handle_in_flight.
  - unfold s'. destruct (_media_group_buffer s !! fl_key fl) as [r|] eqn:Hk.
    + rewrite (handle_existing _ _ _ _ _ Hkey Hk). simpl.
      exists r. split; [done|]. split.
      { intros ->. by apply (wf_flush_detached s Hwf fl (fl_key fl)). }
      split; [|done].
      destruct (wf_buffer_live s Hwf _ _ Hk) as [es Hes].
      exists es. by rewrite lookup_alter_eq, Hes.
    + destruct (collecting_start (fl_key fl) s msg context Hwf Hk Hkey)
        as (_ & _ & _ & Htimer & _).
      rewrite settle_sleepers. rewrite settle_sleepers in Htimer.
      rewrite (handle_new _ _ _ _ Hkey Hk) in *. simpl in *.
      pose proof (fresh_list_None s) as Hfresh.
      exists (fresh (dom (lists s))). rewrite !lookup_insert_eq.
      split; [done|]. split.
      { intros Heq. destruct (wf_flush_live s Hwf fl Hin) as [es Hes]. congruence. }
      split; [by exists []|]. intros _.
      split; [done|]. split; [done|]. split; [done|]. split; [done|].
      split; [exact Htimer|]. by intros ->.
Qed.

Lemma late_arrival_starts_new_group_witness :
  let s := advance_to 1500 (deliver (arrival 0 1 "G1") init) in
  let fl := {| fl_key := "G1"; fl_entries := 0%nat; fl_time := 1500 |} in
  let s' := (handle_media_with_group (photo_msg 2 "G1") 0%nat s).1 in
  lists s' !! 0%nat = Some [(photo_msg 1 "G1", 0%nat)]
  ∧ ∃ r', _media_group_buffer s' !! "G1" = Some r'
      ∧ r' ≠ 0%nat
      ∧ lists s' !! r' = Some [(photo_msg 2 "G1", 0%nat)]
      ∧ sleepers s' = []
      ∧ ready s' = [RunSchedule "G1"]
      ∧ sleepers (settle s') = [(3000, "G1")].
Proof.
  intros s fl s'.
  destruct (late_arrival_starts_new_group s fl (photo_msg 2 "G1") 0%nat)
    as (Hkept & r' & Hbuf & Hne & _ & Hnew).
  - unfold s, deliver.
    apply reachable_advance, reachable_settle, reachable_handle, reachable_advance,
      reachable_init.
  - vm_compute. left.
  - reflexivity.
  - split.
    + etrans; [exact (Hkept [])|reflexivity].
    + exists r'. split; [exact Hbuf|]. split; [exact Hne|].
      destruct Hnew as (_ & Hlist & Hsleep & Hready & _ & Hsettled); [reflexivity|].
      split; [exact Hlist|]. split; [exact Hsleep|]. split; [exact Hready|].
      apply Hsettled. reflexivity.
Defined.

End BotProofs.

(** ** The model on concrete inputs *)

Module Examples.
Import DriveUploader.

(** [int()] on the keys of the user-state file. *)
Example py_int_accepts :
  (TopicManager.py_int "42", TopicManager.py_int " -1_000 ", TopicManager.py_int "+7")
  = (Some 42, Some (-1000), Some 7).
Proof. reflexivity. Qed.

Example py_int_rejects :
  (TopicManager.py_int "", TopicManager.py_int "4x2", TopicManager.py_int "1__0",
   TopicManager.py_int "_1", TopicManager.py_int "-")
  = (None, None, None, None, None).
Proof. reflexivity. Qed.

Example py_str_signed : (TopicManager.py_str (-5), TopicManager.py_str 1234567890)
  = ("-5", "1234567890").
Proof. reflexivity. Qed.

(** Insertion order: an update keeps the position, a new key goes last. *)
Example dict_set_order :
  Dict.set 1 "c" (Dict.set 2 "b" (Dict.set 1 "a" [])) = [(1, "c"); (2, "b")].
Proof. reflexivity. Qed.

(** What the sample store has on disk after its two mutations. *)
Example tm_work_disk :
  TopicManager.user_state_file (TopicManager.disk TopicManager.tm_work)
  = Some (TopicManager.Parsed [("7", "work")]).
Proof. reflexivity. Qed.

(** A restart from that disk brings back the catalog and the user table. *)
Example tm_work_restart :
  let tm := TopicManager.init (Some "ROOT") (TopicManager.disk TopicManager.tm_work) in
  TopicManager.topics tm = TopicManager.topics TopicManager.tm_work
  ∧ TopicManager.user_states tm = [(7, "work")].
Proof. split; reflexivity. Qed.

(** A user-state file whose key is not an integer is dropped whole. *)
Example load_bad_key :
  TopicManager.user_states
    (TopicManager.init None
       {| TopicManager.topics_file := None;
          TopicManager.user_state_file :=
            Some (TopicManager.Parsed [("7", "work"); ("seven", "home")]);
          TopicManager.writable := true |})
  = [].
Proof. reflexivity. Qed.

Example hashtag_default :
  TopicManager.get_hashtag_for_user 7 TopicManager.tm_work = Some "#work".
Proof. reflexivity. Qed.

(** A failing backend call stops the batch like a rejected item does. *)
Example upload_backend_fault :
  upload_media_group
    {| max_file_size := default_max_file_size; allowed_mime_types := None |}
    "20250202_143022" "ROOT"
    [("a.jpg", [Byte.x01], Some "image/jpeg"); ("b.jpg", [Byte.x02], None)]
    {| objects := []; faults := [false; false; true] |}
  = (Raise HttpError,
     {| objects := [DriveFolder "Album_20250202_143022" "ROOT";
                    DriveFile "a.jpg" "0" [Byte.x01] "image/jpeg"];
        faults := [] |}).
Proof. reflexivity. Qed.

(** Three photos of one group at 0 s, 0.5 s and 1 s: one flush at 1.5 s,
    then one new album with the three files and the success reaction on
    the first message. *)
Example three_photos_one_album :
  let user := (TopicManager.set_user_topic 42 "work" TopicManager.tm_work).2 in
  let s := Bot.advance_to 1500
             (Bot.run [Bot.arrival 0 1 "G1"; Bot.arrival 500 2 "G1";
                       Bot.arrival 1000 3 "G1"] Bot.init) in
  Bot.in_flight s = [{| Bot.fl_key := "G1"; Bot.fl_entries := 0%nat; Bot.fl_time := 1500 |}]
  ∧ Bot.process_media_group_rest
      {| max_file_size := default_max_file_size; allowed_mime_types := None |}
      user Bot.noon "20250202_120001"
      (default [] (Bot.lists s !! 0%nat))
      {| Bot.drive := {| objects := []; faults := [] |}; Bot.reactions := [] |}
    = {| Bot.drive :=
           {| objects :=
                [DriveFolder "Album_20250202_120001" "F1";
                 DriveFile "photo_20250202_120000.jpg" "0" [Byte.x89; Byte.x50] "image/jpeg";
                 DriveFile "photo_20250202_120000.jpg" "0" [Byte.x89; Byte.x50] "image/jpeg";
                 DriveFile "photo_20250202_120000.jpg" "0" [Byte.x89; Byte.x50] "image/jpeg"];
              faults := [] |};
         Bot.reactions := [(1, 1, Bot.REACTION_PROCESSING); (1, 1, Bot.REACTION_SUCCESS)] |}.
Proof. split; vm_compute; reflexivity. Qed.

(** An update at the very time the timer is due comes after the flush and
    opens the next group. *)
Example arrival_at_deadline :
  let s := Bot.run [Bot.arrival 0 1 "G1"; Bot.arrival 1500 2 "G1"] Bot.init in
  Bot.in_flight s = [{| Bot.fl_key := "G1"; Bot.fl_entries := 0%nat; Bot.fl_time := 1500 |}]
  ∧ Bot.sleepers s = [(3000, "G1")].
Proof. split; vm_compute; reflexivity. Qed.

(** The handler of a first update leaves the key buffered with its
    [schedule_media_group] queued, and neither handle nor timer; the next
    turn of the queue stores the handle and queues [_task]; the turn after
    starts the sleep. *)
Example first_update_hops :
  let s := (Bot.handle_media_with_group (Bot.photo_msg 1 "G1") 0%nat Bot.init).1 in
  (Bot.ready s, Bot._media_group_tasks s !! "G1", Bot.sleepers s)
    = ([Bot.RunSchedule "G1"], None, [])
  ∧ (Bot.ready (Bot.step s), Bot._media_group_tasks (Bot.step s) !! "G1",
     Bot.sleepers (Bot.step s))
    = ([Bot.RunTask "G1"], Some 0, [])
  ∧ (Bot.ready (Bot.step (Bot.step s)), Bot.sleepers (Bot.step (Bot.step s)))
    = ([], [(1500, "G1")])
  ∧ Bot.settle s = Bot.step (Bot.step s).
Proof. repeat split; vm_compute; reflexivity. Qed.

(** An update without group key, or with the empty one, goes to the single
    path and leaves the buffer alone. *)
Example empty_key_is_single :
  Bot.handle_media_with_group (Bot.photo_msg 1 "") 0%nat Bot.init = (Bot.init, Bot.Single).
Proof. reflexivity. Qed.

End Examples.

(** * Further properties *)

(** ** The upload orchestrator, beyond rejection *)

Module UploaderMore.
Import DriveUploader UploaderTerms PyFacts.

Lemma str_in_true (m : string) (l : list string) : m ∈ l → str_in m l = true.
Proof.
  unfold str_in. induction l as [|x l IH]; intros Hin; [by apply elem_of_nil in Hin|].
  simpl. destruct (String.eqb_spec m x); [done|].
  apply elem_of_cons in Hin as [?|Hin]; [done|]. by apply IH.
Qed.

Lemma validate_mime_ok_iff cfg mime_type :
  _validate_mime cfg mime_type = Ok () ↔ mime_allowed cfg mime_type.
Proof.
  unfold _validate_mime, mime_allowed.
  destruct (allowed_mime_types cfg) as [allowed|]; [|done].
  destruct mime_type as [m|]; [|done].
  destruct m as [|c m]; simpl; [split; [by left|done]|].
  destruct (str_in (String c m) allowed) eqn:Hin; simpl.
  - split; [|done]. intros _. right.
    unfold str_in in Hin. apply existsb_exists in Hin as (x & Hx & Heq).
    apply String.eqb_eq in Heq as ->. by apply list_elem_of_In.
  - split; [done|]. intros [?|Hel]; [done|].
    by rewrite (str_in_true _ _ Hel) in Hin.
Qed.

(** X1.  [validate] accepts exactly the payloads within the size limit
    whose MIME type the allow-list lets through. *)
Theorem validate_accepts_iff (cfg : Config) (size : Z) (mime_type : option string) :
  validate cfg size mime_type = Ok ()
  ↔ size ≤ max_file_size cfg ∧ mime_allowed cfg mime_type.
Proof.
  unfold validate, _validate_size.
  destruct (Z.gtb_spec size (max_file_size cfg)) as [Hgt|Hle].
  - split; [done|]. intros [? _]. lia.
  - rewrite validate_mime_ok_iff. split; [by split|by intros [_ ?]].
Qed.


(** X2.  A single upload stores all or nothing.  When validation rejects
    the payload the backend is not even called; whenever the call raises,
    the stored objects are as before; and when it returns an id, exactly
    one file has been added, at the position the id names, in the given
    folder, typed [application/octet-stream] when no MIME type came along. *)
Theorem upload_file_bytes_all_or_nothing
    (cfg : Config) (folder filename : string) (content : bytes)
    (mime_type : option string) (d : Drive) :
  (∀ e, validate cfg (len content) mime_type = Raise e →
        upload_file_bytes cfg folder filename content mime_type d = (Raise e, d))
  ∧ (∀ e d', upload_file_bytes cfg folder filename content mime_type d = (Raise e, d') →
        objects d' = objects d)
  ∧ (∀ id d', upload_file_bytes cfg folder filename content mime_type d = (Ok id, d') →
        validate cfg (len content) mime_type = Ok ()
        ∧ id = pretty (length (objects d))
        ∧ objects d' = objects d ++
            [DriveFile filename folder content
               (str_or mime_type "application/octet-stream")]).
Proof.
  unfold upload_file_bytes, validate, mbind, M_bind, lift, files_create, fresh_id.
  destruct (_validate_size cfg (len content)) as [[]|e1]; simpl.
  - destruct (_validate_mime cfg mime_type) as [[]|e2]; simpl.
    + split; [done|].
      destruct (faults d) as [|[] fs]; split; intros ? ? [= <- <-]; done.
    + split; [by intros ? [= <-]|]. split; [by intros ? ? [= <- <-]|done].
  - split; [by intros ? [= <-]|]. split; [by intros ? ? [= <- <-]|done].
Qed.

Lemma upload_file_bytes_all_or_nothing_witness :
  let cfg := {| max_file_size := 4; allowed_mime_types := Some ["image/jpeg"] |} in
  let d := {| objects := [DriveFolder "work" "root"]; faults := [] |} in
  upload_file_bytes cfg "0" "a.gif" [Byte.x47] (Some "image/gif") d
  = (Raise (MimeNotAllowedError "image/gif"), d)
  ∧ ∃ d', upload_file_bytes cfg "0" "a.jpg" [Byte.xff] (Some "image/jpeg") d = (Ok "1", d')
      ∧ objects d' = [DriveFolder "work" "root";
                      DriveFile "a.jpg" "0" [Byte.xff] "image/jpeg"].
Proof.
  intros cfg d. split.
  - apply (upload_file_bytes_all_or_nothing cfg "0" "a.gif" [Byte.x47]
             (Some "image/gif") d). reflexivity.
  - eexists. split; [reflexivity|].
    destruct (upload_file_bytes_all_or_nothing cfg "0" "a.jpg" [Byte.xff]
                (Some "image/jpeg") d) as (_ & _ & Hok).
    destruct (Hok _ _ eq_refl) as (_ & _ & Hobj). exact Hobj.
Defined.

(** The loop in full: it gets through some [j] items, stores their files
    in order and nothing else, and returns normally only after the last
    item, every item having passed validation. *)
Lemma upload_items_progress cfg sub (items : list Item) :
  ∀ d, ∃ r d' (j : nat),
    upload_items cfg sub items d = (r, d')
    ∧ (j ≤ length items)%nat
    ∧ objects d' = objects d ++ (file_of sub <$> take j items)
    ∧ (r = Ok () → j = length items ∧ Forall (λ it, validate_item cfg it = Ok ()) items)
    ∧ (Forall (λ it, validate_item cfg it = Ok ()) items →
       healthy (length items) d → r = Ok ()).
Proof.
  induction items as [|[[filename content] mime_type] rest IH]; intros d.
  - exists (Ok ()), d, 0%nat. simpl. rewrite app_nil_r. by repeat split.
  - destruct (validate_item cfg (filename, content, mime_type)) as [[]|e] eqn:Hv.
    2:{ exists (Raise e), d, 0%nat. simpl. rewrite app_nil_r.
        split.
        { unfold mbind, M_bind, lift.
          destruct (UploaderProofs.validate_item_raise _ _ _ _ _ Hv) as [-> | [-> ->]]; done. }
        split; [lia|]. split; [done|]. split; [done|].
        intros [Hit _]%Forall_cons. congruence. }
    destruct (UploaderProofs.validate_item_ok _ _ _ _ Hv) as [Hsz Hmime].
    simpl. unfold upload_file_bytes, mbind, M_bind, lift, files_create.
    rewrite Hsz, Hmime.
    destruct (faults d) as [|[] fs] eqn:Hf.
    + destruct (IH {| objects := objects d ++
          [DriveFile filename sub content (str_or mime_type "application/octet-stream")];
          faults := [] |}) as (r & d' & j & Hrun & Hj & Hobj & Hok & Hall).
      exists r, d', (S j). unfold mbind, M_bind in Hrun. rewrite Hrun.
      split; [done|]. split; [simpl; lia|]. split.
      { rewrite Hobj. simpl. by rewrite <- app_assoc. }
      split.
      * intros Hr. destruct (Hok Hr) as [-> Hrest]. split; [done|].
        by apply Forall_cons.
      * intros [_ Hrest]%Forall_cons _. apply Hall; [done|].
        unfold healthy. simpl. by rewrite take_nil.
    + exists (Raise HttpError), {| objects := objects d; faults := fs |}, 0%nat.
      simpl. rewrite app_nil_r.
      split; [done|]. split; [lia|]. split; [done|]. split; [done|].
      intros _ Hh. unfold healthy in Hh. rewrite Hf in Hh. simpl in Hh.
      by apply Forall_cons in Hh as [? _].
    + destruct (IH {| objects := objects d ++
          [DriveFile filename sub content (str_or mime_type "application/octet-stream")];
          faults := fs |}) as (r & d' & j & Hrun & Hj & Hobj & Hok & Hall).
      exists r, d', (S j). unfold mbind, M_bind in Hrun. rewrite Hrun.
      split; [done|]. split; [simpl; lia|]. split.
      { rewrite Hobj. simpl. by rewrite <- app_assoc. }
      split.
      * intros Hr. destruct (Hok Hr) as [-> Hrest]. split; [done|].
        by apply Forall_cons.
      * intros [_ Hrest]%Forall_cons Hh. apply Hall; [done|].
        unfold healthy in *. rewrite Hf in Hh. simpl in Hh.
        by apply Forall_cons in Hh as [_ ?].
Qed.

Lemma upload_media_group_returns cfg ts folder items d sid d' :
  upload_media_group cfg ts folder items d = (Ok sid, d') →
  sid = fresh_id d
  ∧ Forall (λ it, validate_item cfg it = Ok ()) items
  ∧ objects d' = objects d ++ album ts folder d items (length items).
Proof.
  unfold upload_media_group, create_subfolder, mbind, M_bind, files_create, album.
  destruct (faults d) as [|[] fs] eqn:Hf; [|done|].
  - destruct (upload_items_progress cfg (fresh_id d) items
        {| objects := objects d ++ [DriveFolder ("Album_" +:+ ts) folder];
           faults := [] |}) as (r & d0 & j & Hrun & Hj & Hobj & Hok & _).
    unfold mbind, M_bind in Hrun. rewrite Hrun. simpl in Hobj.
    destruct r as [[]|e]; [|done]. intros [= <- <-].
    destruct (Hok eq_refl) as [-> Hvalid].
    split; [done|]. split; [done|]. rewrite Hobj. by rewrite <- app_assoc.
  - destruct (upload_items_progress cfg (fresh_id d) items
        {| objects := objects d ++ [DriveFolder ("Album_" +:+ ts) folder];
           faults := fs |}) as (r & d0 & j & Hrun & Hj & Hobj & Hok & _).
    unfold mbind, M_bind in Hrun. rewrite Hrun. simpl in Hobj.
    destruct r as [[]|e]; [|done]. intros [= <- <-].
    destruct (Hok eq_refl) as [-> Hvalid].
    split; [done|]. split; [done|]. rewrite Hobj. by rewrite <- app_assoc.
Qed.


(** X3.  A batch call that returns has uploaded everything: the id it
    returns is that of the new album folder, every item passed validation,
    and the backend gained the album followed by one file per item, in the
    order of the batch, each inside the album.  It does return whenever
    every item is valid and the backend takes the folder call and one call
    per item; an empty batch then yields an empty album. *)
Theorem upload_media_group_success
    (cfg : Config) (ts folder : string) (items : list Item) (d : Drive) :
  (∀ sid d', upload_media_group cfg ts folder items d = (Ok sid, d') →
     sid = fresh_id d
     ∧ Forall (λ it, validate_item cfg it = Ok ()) items
     ∧ objects d' = objects d ++ album ts folder d items (length items))
  ∧ (Forall (λ it, validate_item cfg it = Ok ()) items →
     healthy (S (length items)) d →
     ∃ d', upload_media_group cfg ts folder items d = (Ok (fresh_id d), d')
       ∧ objects d' = objects d ++ album ts folder d items (length items)).
Proof.
  split; [intros sid d'; apply upload_media_group_returns|].
  intros Hvalid Hh.
  unfold upload_media_group, create_subfolder, mbind, M_bind, files_create, album.
  unfold healthy in Hh.
  destruct (faults d) as [|[] fs] eqn:Hf; simpl in Hh.
  - destruct (upload_items_progress cfg (fresh_id d) items
        {| objects := objects d ++ [DriveFolder ("Album_" +:+ ts) folder];
           faults := [] |}) as (r & d' & j & Hrun & Hj & Hobj & Hok & Hall).
    unfold mbind, M_bind in Hrun. rewrite Hrun. simpl in Hobj.
    assert (r = Ok ()) as ->.
    { apply Hall; [done|]. unfold healthy. simpl. by rewrite take_nil. }
    destruct (Hok eq_refl) as [-> _]. eexists. split; [done|].
    rewrite Hobj. by rewrite <- app_assoc.
  - by apply Forall_cons in Hh as [? _].
  - destruct (upload_items_progress cfg (fresh_id d) items
        {| objects := objects d ++ [DriveFolder ("Album_" +:+ ts) folder];
           faults := fs |}) as (r & d' & j & Hrun & Hj & Hobj & Hok & Hall).
    unfold mbind, M_bind in Hrun. rewrite Hrun. simpl in Hobj.
    apply Forall_cons in Hh as [_ Hh]. specialize (Hall Hvalid Hh). subst r.
    destruct (Hok eq_refl) as [-> _]. eexists. split; [done|].
    rewrite Hobj. by rewrite <- app_assoc.
Qed.

Lemma upload_media_group_success_witness :
  let cfg := {| max_file_size := 4; allowed_mime_types := None |} in
  let items : list Item := [("a.jpg", [Byte.x01], Some "image/jpeg");
                            ("b.bin", [Byte.x02; Byte.x03], None)] in
  let d := {| objects := [DriveFolder "work" "root"]; faults := [false] |} in
  ∃ d', upload_media_group cfg "20250202_143022" "0" items d = (Ok "1", d')
    ∧ objects d' = [DriveFolder "work" "root";
                    DriveFolder "Album_20250202_143022" "0";
                    DriveFile "a.jpg" "1" [Byte.x01] "image/jpeg";
                    DriveFile "b.bin" "1" [Byte.x02; Byte.x03] "application/octet-stream"].
Proof.
  intros cfg items d.
  destruct (upload_media_group_success cfg "20250202_143022" "0" items d) as [_ Hok].
  destruct Hok as (d' & Hrun & Hobj).
  - repeat (apply Forall_cons; split; [reflexivity|]). apply Forall_nil_2.
  - unfold healthy. simpl. apply Forall_cons. split; [reflexivity|apply Forall_nil_2].
  - exists d'. split; [exact Hrun|]. rewrite Hobj. reflexivity.
Defined.

(** X4.  Whatever the outcome of a batch call, the objects the backend
    had are still there, unchanged and in place, and what was added is
    nothing at all or the album folder under the given parent followed by
    files inside the album for the first so-many items of the batch, in
    order.  No file is stored outside the new album and no item is skipped
    in favour of a later one. *)
Theorem upload_media_group_only_adds
    (cfg : Config) (ts folder : string) (items : list Item) (d : Drive)
    (r : result string) (d' : Drive) :
  upload_media_group cfg ts folder items d = (r, d') →
  objects d' = objects d
  ∨ ∃ j : nat, (j ≤ length items)%nat
      ∧ objects d' = objects d ++ album ts folder d items j.
Proof.
  unfold upload_media_group, create_subfolder, mbind, M_bind, files_create, album.
  destruct (faults d) as [|[] fs].
  - destruct (upload_items_progress cfg (fresh_id d) items
        {| objects := objects d ++ [DriveFolder ("Album_" +:+ ts) folder];
           faults := [] |}) as (r0 & d0 & j & Hrun & Hj & Hobj & _).
    unfold mbind, M_bind in Hrun. rewrite Hrun. simpl in Hobj.
    intros Heq. right. exists j. split; [done|].
    assert (d' = d0) as ->.
    { destruct r0 as [[]|]; by injection Heq. }
    rewrite Hobj. by rewrite <- app_assoc.
  - intros [= _ <-]. by left.
  - destruct (upload_items_progress cfg (fresh_id d) items
        {| objects := objects d ++ [DriveFolder ("Album_" +:+ ts) folder];
           faults := fs |}) as (r0 & d0 & j & Hrun & Hj & Hobj & _).
    unfold mbind, M_bind in Hrun. rewrite Hrun. simpl in Hobj.
    intros Heq. right. exists j. split; [done|].
    assert (d' = d0) as ->.
    { destruct r0 as [[]|]; by injection Heq. }
    rewrite Hobj. by rewrite <- app_assoc.
Qed.

Lemma upload_media_group_only_adds_witness :
  let cfg := {| max_file_size := 1; allowed_mime_types := None |} in
  let items : list Item :=
    [("a.jpg", [Byte.x01], None); ("b.jpg", [Byte.x01; Byte.x02], None)] in
  let d := {| objects := [DriveFolder "work" "root"]; faults := [] |} in
  let d' := {| objects := [DriveFolder "work" "root";
                           DriveFolder "Album_20250202_143022" "0";
                           DriveFile "a.jpg" "1" [Byte.x01] "application/octet-stream"];
               faults := [] |} in
  objects d' = objects d
  ∨ ∃ j : nat, (j ≤ 2)%nat ∧ objects d' = objects d ++ album "20250202_143022" "0" d items j.
Proof.
  intros cfg items d d'.
  apply (upload_media_group_only_adds cfg "20250202_143022" "0" items d
           (Raise (FileTooLargeError 2 1)) d').
  reflexivity.
Defined.

End UploaderMore.

(** ** [int(str(n))] *)

Module IntStr.
Import TopicManager StoreTerms.

Lemma digit_char (d : N) :
  (d < 10)%N →
  Ascii.is_nat (pretty_N_char d) = Some (N.to_nat d)
  ∧ Ascii.eqb (pretty_N_char d) "_" = false
  ∧ Ascii.is_space (pretty_N_char d) = false
  ∧ pretty_N_char d ≠ "-"%char ∧ pretty_N_char d ≠ "+"%char.
Proof.
  intros Hd.
  assert (d = 0 ∨ d = 1 ∨ d = 2 ∨ d = 3 ∨ d = 4 ∨ d = 5 ∨ d = 6 ∨ d = 7
          ∨ d = 8 ∨ d = 9)%N as Hcases by lia.
  repeat (destruct Hcases as [-> | Hcases]; [by repeat split|]).
  subst d. by repeat split.
Qed.

(** Reading back the digits [pretty_N_go] writes in front of [s]. *)
Lemma digits_go_pretty (x : N) :
  ∀ b s, (0 < x)%N →
    digits_go 0 b (pretty_N_go x s) = digits_go (Z.of_N x) true s.
Proof.
  induction (N.lt_wf_0 x) as [x _ IH]; intros b s Hx.
  rewrite pretty_N_go_step by done.
  destruct (digit_char (x `mod` 10)%N) as (Hnat & Hus & _); [by apply N.mod_lt|].
  assert (Hdm : Z.of_N x = 10 * Z.of_N (x `div` 10) + Z.of_nat (N.to_nat (x `mod` 10))).
  { pose proof (N.div_mod x 10 ltac:(done)) as Hdiv. rewrite N_nat_Z. lia. }
  destruct (decide (x `div` 10 = 0)%N) as [Hz|Hnz].
  - rewrite Hz, pretty_N_go_0. simpl. rewrite Hus, Hnat, Hdm, Hz. done.
  - rewrite IH; [|by apply N.div_lt|by apply N.neq_0_lt_0]. simpl.
    rewrite Hus, Hnat, Hdm. done.
Qed.


Lemma no_space_pretty_N_go (x : N) :
  ∀ s, no_space s → no_space (pretty_N_go x s).
Proof.
  induction (N.lt_wf_0 x) as [x _ IH]; intros s Hs.
  destruct (decide (0 < x)%N) as [Hx|Hx].
  - rewrite pretty_N_go_step by done. apply IH; [by apply N.div_lt|].
    destruct (digit_char (x `mod` 10)%N) as (_ & _ & Hsp & _); [by apply N.mod_lt|].
    by split.
  - assert (x = 0%N) as -> by lia. by rewrite pretty_N_go_0.
Qed.

Lemma head_pretty_N_go (x : N) :
  ∀ s, (0 < x)%N →
    ∃ c rest, pretty_N_go x s = String c rest ∧ c ≠ "-"%char ∧ c ≠ "+"%char.
Proof.
  induction (N.lt_wf_0 x) as [x _ IH]; intros s Hx.
  rewrite pretty_N_go_step by done.
  destruct (decide (x `div` 10 = 0)%N) as [Hz|Hnz].
  - rewrite Hz, pretty_N_go_0.
    destruct (digit_char (x `mod` 10)%N) as (_ & _ & _ & Hm & Hp); [by apply N.mod_lt|].
    by eexists _, _.
  - apply IH; [by apply N.div_lt|by apply N.neq_0_lt_0].
Qed.

Lemma app_cons (c : ascii) (s t : string) : String c s +:+ t = String c (s +:+ t).
Proof. done. Qed.

Lemma app_empty_r (s : string) : s +:+ "" = s.
Proof. induction s as [|c s IH]; [done|]. by rewrite app_cons, IH. Qed.

Lemma rev_app_rev_app (s1 : string) :
  ∀ s2 s3, String.rev_app (String.rev_app s1 s2) s3 = String.rev_app s2 (s1 +:+ s3).
Proof.
  induction s1 as [|c s1 IH]; intros s2 s3; [done|].
  simpl. by rewrite IH.
Qed.

Lemma rev_rev (s : string) : String.rev (String.rev s) = s.
Proof. unfold String.rev. rewrite rev_app_rev_app. simpl. apply app_empty_r. Qed.

Lemma no_space_rev_app (s1 : string) :
  ∀ s2, no_space s1 → no_space s2 → no_space (String.rev_app s1 s2).
Proof.
  induction s1 as [|c s1 IH]; intros s2 Hs1 Hs2; [done|].
  destruct Hs1 as [Hc Hs1]. simpl. apply IH; [done|]. by split.
Qed.

Lemma lstrip_no_space (s : string) : no_space s → lstrip s = s.
Proof. destruct s as [|c s]; [done|]. intros [Hc _]. simpl. by rewrite Hc. Qed.

Lemma strip_no_space (s : string) : no_space s → strip s = s.
Proof.
  intros Hs. unfold strip. rewrite (lstrip_no_space s Hs).
  rewrite lstrip_no_space; [apply rev_rev|]. by apply no_space_rev_app.
Qed.

Lemma py_int_unsigned (c : ascii) (rest : string) :
  c ≠ "-"%char → c ≠ "+"%char → no_space (String c rest) →
  py_int (String c rest) = digits_go 0 false (String c rest).
Proof.
  intros Hm Hp Hs. unfold py_int. rewrite (strip_no_space _ Hs).
  destruct c as [[] [] [] [] [] [] [] []]; try done.
Qed.

(** The table keys survive the trip through the file. *)
Lemma py_int_py_str (n : Z) : py_int (py_str n) = Some n.
Proof.
  unfold py_str, pretty, pretty_Z. destruct n as [|p|p].
  - done.
  - unfold pretty, pretty_positive, pretty, pretty_N. rewrite decide_False by done.
    destruct (head_pretty_N_go (Npos p) "" ltac:(done)) as (c & rest & Heq & Hm & Hp).
    pose proof (no_space_pretty_N_go (Npos p) "" I) as Hs.
    rewrite Heq in Hs. rewrite Heq, (py_int_unsigned c rest Hm Hp Hs), <- Heq.
    by rewrite digits_go_pretty.
  - unfold pretty, pretty_positive, pretty, pretty_N. rewrite decide_False by done.
    rewrite app_cons. change ("" +:+ ?s) with s.
    pose proof (no_space_pretty_N_go (Npos p) "" I) as Hs.
    unfold py_int. rewrite strip_no_space by (by split). 
    by rewrite digits_go_pretty.
Qed.

End IntStr.

(** ** The state store across restarts *)

Module DictMore.
Section dict.
Context {K V : Type} `{EqDecision K}.
Implicit Types (k : K) (v : V) (d : list (K * V)).

Lemma get_None k d : Dict.get k d = None ↔ k ∉ d.*1.
Proof.
  induction d as [|[k' v'] d IH]; simpl.
  - split; [intros _; apply not_elem_of_nil|done].
  - rewrite not_elem_of_cons. destruct (decide (k = k')) as [->|Hne].
    + split; [done|]. by intros [? _].
    + rewrite IH. split; [by split|by intros [_ ?]].
Qed.

Lemma get_elem k v d : Dict.get k d = Some v → (k, v) ∈ d.
Proof.
  induction d as [|[k' v'] d IH]; simpl; [done|].
  destruct (decide (k = k')) as [->|Hne].
  - intros [= ->]. by left.
  - intros Hd. right. by apply IH.
Qed.

Lemma elem_get k v d : NoDup d.*1 → (k, v) ∈ d → Dict.get k d = Some v.
Proof.
  induction d as [|[k' v'] d IH]; intros Hnd Hin; [by apply elem_of_nil in Hin|].
  rewrite fmap_cons in Hnd. apply NoDup_cons in Hnd as [Hnotin Hnd].
  simpl. apply elem_of_cons in Hin as [[= -> ->]|Hin].
  - by rewrite decide_True.
  - rewrite decide_False; [by apply IH|].
    intros ->. apply Hnotin. by apply (list_elem_of_fmap_2 fst _ (k', v)).
Qed.

Lemma keys_set_in k v d : k ∈ d.*1 → (Dict.set k v d).*1 = d.*1.
Proof.
  induction d as [|[k' v'] d IH]; intros Hin; [by apply elem_of_nil in Hin|].
  simpl. destruct (decide (k = k')) as [->|Hne]; [done|].
  rewrite fmap_cons in Hin. apply elem_of_cons in Hin as [?|Hin]; [done|].
  rewrite fmap_cons. by rewrite IH.
Qed.

Lemma keys_set_notin k v d : k ∉ d.*1 → (Dict.set k v d).*1 = d.*1 ++ [k].
Proof.
  intros Hnotin%get_None. rewrite (DictFacts.set_absent _ _ _ Hnotin).
  by rewrite fmap_app.
Qed.

Lemma NoDup_set k v d : NoDup d.*1 → NoDup (Dict.set k v d).*1.
Proof.
  intros Hnd. destruct (decide (k ∈ d.*1)) as [Hin|Hnotin].
  - by rewrite keys_set_in.
  - rewrite keys_set_notin by done.
    apply NoDup_app. split; [done|]. split; [|apply NoDup_singleton].
    intros k' Hin ->%list_elem_of_singleton. done.
Qed.

Lemma elem_of_set k v d kv : kv ∈ Dict.set k v d → kv = (k, v) ∨ kv ∈ d.
Proof.
  induction d as [|[k' v'] d IH]; simpl.
  - intros ->%list_elem_of_singleton. by left.
  - destruct (decide (k = k')) as [->|Hne].
    + intros [->|Hin]%elem_of_cons; [by left|]. right. by right.
    + intros [->|Hin]%elem_of_cons; [right; by left|].
      destruct (IH Hin) as [->|?]; [by left|]. right. by right.
Qed.

Lemma filter_ne_notin k (l : list K) : k ∉ l → filter (λ k', k' ≠ k) l = l.
Proof.
  induction l as [|k0 l IH]; intros Hnotin; [done|].
  apply not_elem_of_cons in Hnotin as [Hne Hnotin].
  rewrite filter_cons_True by naive_solver. by rewrite IH.
Qed.

Lemma keys_del k d : NoDup d.*1 → (Dict.del k d).*1 = filter (λ k', k' ≠ k) d.*1.
Proof.
  induction d as [|[k' v'] d IH]; intros Hnd; [done|].
  rewrite fmap_cons in Hnd. apply NoDup_cons in Hnd as [Hnotin Hnd].
  cbn [Dict.del]. destruct (decide (k = k')) as [->|Hne]; rewrite !fmap_cons; cbn [fst].
  - rewrite filter_cons_False by naive_solver. by rewrite filter_ne_notin.
  - rewrite filter_cons_True by naive_solver. by rewrite IH.
Qed.

Lemma NoDup_del k d : NoDup d.*1 → NoDup (Dict.del k d).*1.
Proof. intros Hnd. rewrite keys_del by done. by apply NoDup_filter. Qed.

Lemma get_del_eq k d : NoDup d.*1 → Dict.get k (Dict.del k d) = None.
Proof.
  intros Hnd. apply get_None. rewrite keys_del by done.
  intros [Hne _]%list_elem_of_filter. done.
Qed.

Lemma get_del_ne k k' d : k ≠ k' → Dict.get k' (Dict.del k d) = Dict.get k' d.
Proof.
  intros Hne. induction d as [|[k0 v0] d IH]; simpl; [done|].
  destruct (decide (k = k0)) as [->|Hne0]; simpl.
  - by rewrite decide_False.
  - by rewrite IH.
Qed.

Lemma NoDup_foldl_set (kvs : list (K * V)) :
  ∀ acc, NoDup acc.*1 → NoDup (foldl (λ d kv, Dict.set kv.1 kv.2 d) acc kvs).*1.
Proof.
  induction kvs as [|kv kvs IH]; intros acc Hnd; [done|].
  simpl. apply IH. by apply NoDup_set.
Qed.

Lemma NoDup_of_items (kvs : list (K * V)) : NoDup (Dict.of_items kvs).*1.
Proof. apply NoDup_foldl_set. constructor. Qed.

Lemma elem_of_foldl_set (kvs : list (K * V)) :
  ∀ acc kv, kv ∈ foldl (λ d kv, Dict.set kv.1 kv.2 d) acc kvs → kv ∈ acc ∨ kv ∈ kvs.
Proof.
  induction kvs as [|[k v] kvs IH]; intros acc kv Hin; [by left|].
  simpl in Hin. destruct (IH _ _ Hin) as [Hset|Hkvs].
  - destruct (elem_of_set _ _ _ _ Hset) as [->|?]; [right; by left|by left].
  - right. by right.
Qed.

Lemma elem_of_of_items (kvs : list (K * V)) kv : kv ∈ Dict.of_items kvs → kv ∈ kvs.
Proof.
  intros Hin. destruct (elem_of_foldl_set _ _ _ Hin) as [Hnil|?]; [|done].
  by apply elem_of_nil in Hnil.
Qed.

Lemma foldl_set_fresh (kvs : list (K * V)) :
  ∀ acc, NoDup (acc ++ kvs).*1 →
    foldl (λ d kv, Dict.set kv.1 kv.2 d) acc kvs = acc ++ kvs.
Proof.
  induction kvs as [|[k v] kvs IH]; intros acc Hnd; [by rewrite app_nil_r|].
  simpl. assert (Hk : Dict.get k acc = None).
  { apply get_None. rewrite fmap_app in Hnd.
    apply NoDup_app in Hnd as (_ & Hdisj & _). intros Hin.
    apply (Hdisj k Hin). rewrite fmap_cons. by left. }
  rewrite (DictFacts.set_absent _ _ _ Hk).
  rewrite IH; rewrite <- app_assoc; done.
Qed.

(** In a dict built from items, a key holds the value of its last item. *)
Lemma get_foldl_set k (kvs : list (K * V)) :
  ∀ acc,
    Dict.get k (foldl (λ d kv, Dict.set kv.1 kv.2 d) acc kvs) =
      match last (filter (λ kv, kv.1 = k) kvs) with
      | Some kv => Some kv.2
      | None => Dict.get k acc
      end.
Proof.
  induction kvs as [|[k' v'] kvs IH]; intros acc; [done|].
  cbn [foldl]. rewrite IH, filter_cons. cbn [fst snd].
  destruct (decide (k' = k)) as [->|Hne].
  - rewrite last_cons. destruct (last _); [done|]. apply DictFacts.get_set_eq.
  - destruct (last _); [done|]. by apply DictFacts.get_set_ne.
Qed.

(** A dict read back from its own items is the same dict. *)
Lemma of_items_id d : NoDup d.*1 → Dict.of_items d = d.
Proof. intros Hnd. by apply (foldl_set_fresh d []). Qed.

End dict.
End DictMore.

Module StoreProofs.
Import TopicManager StoreTerms DictFacts DictMore IntStr TopicProofs.

(** [__init__] in one piece. *)
Lemma init_spec dflt d :
  init dflt d =
    {| default_folder_id := dflt;
       topics := catalog_of (topics_file d);
       user_states := table_of (user_state_file d);
       disk := disk_after_start d |}.
Proof.
  destruct d as [tf uf w]. unfold init, _load_topics, _load_user_states, catalog_of,
    table_of, disk_after_start, _save_topics, _save_user_states. simpl.
  destruct tf as [[raw|data]|]; simpl.
  - destruct uf as [[raw'|data']|]; simpl; [done| |by destruct w].
    by destruct (mapM _ data').
  - destruct (mapM _ _) as [kvs|]; simpl;
      (destruct uf as [[raw'|data']|]; simpl; [done| |by destruct w]);
      by destruct (mapM _ data').
  - destruct w; simpl;
      (destruct uf as [[raw'|data']|]; simpl; [done| |done]);
      by destruct (mapM _ data').
Qed.

Lemma catalog_of_ok f :
  NoDup (catalog_of f).*1 ∧ ∀ k t, (k, t) ∈ catalog_of f → t !! "name" = Some k.
Proof.
  unfold catalog_of. destruct f as [[raw|data]|]; try (split; [constructor|by intros ? ? ?%elem_of_nil]).
  destruct (mapM _ _) as [kvs|] eqn:Hm; [|split; [constructor|by intros ? ? ?%elem_of_nil]].
  split; [apply NoDup_of_items|].
  intros k t Hin%elem_of_of_items. apply mapM_Some_1 in Hm.
  apply list_elem_of_lookup_1 in Hin as [i Hi].
  destruct (Forall2_lookup_r _ _ _ _ _ Hm Hi) as (topic & _ & Hnamed).
  destruct (topic !! "name") as [n|] eqn:Hn; [|done].
  simpl in Hnamed. by injection Hnamed as -> ->.
Qed.

Lemma table_of_ok f : NoDup (table_of f).*1.
Proof.
  unfold table_of. destruct f as [[raw|data]|]; try constructor.
  destruct (mapM _ _); [apply NoDup_of_items|constructor].
Qed.

(** Writing a table out and reading it back. *)
Lemma table_of_saved (us : list (Z * string)) :
  NoDup us.*1 →
  table_of (Some (Parsed ((λ kv : Z * string, (py_str kv.1, kv.2)) <$> us))) = us.
Proof.
  intros Hnd. unfold table_of. rewrite mapM_fmap_Some.
  - by apply of_items_id.
  - intros [n v]. simpl. by rewrite py_int_py_str.
Qed.

(** Writing a catalog out and reading it back. *)
Lemma catalog_of_saved (ts : list (string * Topic)) :
  NoDup ts.*1 →
  (∀ k t, (k, t) ∈ ts → t !! "name" = Some k) →
  catalog_of (Some (Parsed (TopicsArray (Dict.values ts)))) = ts.
Proof.
  intros Hnd Hnames. unfold catalog_of, Dict.values. rewrite mapM_fmap_Forall_Some.
  - by apply of_items_id.
  - apply Forall_forall. intros [k t] Hin. simpl. by rewrite (Hnames k t Hin).
Qed.


Lemma durable_iff tm :
  durable tm ↔
    catalog_of (topics_file (disk tm)) = topics tm
    ∧ table_of (user_state_file (disk tm)) = user_states tm
    ∧ disk_after_start (disk tm) = disk tm.
Proof.
  unfold durable, restart. rewrite init_spec. destruct tm as [dflt ts us d]. simpl.
  split.
  - by intros [= -> -> ->].
  - intros (-> & -> & ->). done.
Qed.

Lemma store_ok_of_durable tm : durable tm → store_ok tm.
Proof.
  intros (Hts & Hus & _)%durable_iff. unfold store_ok. rewrite <- Hts, <- Hus.
  destruct (catalog_of_ok (topics_file (disk tm))) as [? ?].
  split; [done|]. split; [apply table_of_ok|done].
Qed.

Lemma started_files_present d :
  disk_after_start d = d → writable d = true →
  is_Some (topics_file d) ∧ is_Some (user_state_file d).
Proof.
  destruct d as [tf uf w]. unfold disk_after_start. simpl. intros [= Htf Huf] ->.
  destruct tf, uf; try done; by split.
Qed.

Lemma disk_after_start_present d :
  is_Some (topics_file d) → is_Some (user_state_file d) → disk_after_start d = d.
Proof.
  destruct d as [tf uf w]. unfold disk_after_start. simpl.
  by intros [? ->] [? ->].
Qed.

(** X5.  The store keeps its shape: whatever the two files hold at start,
    and through every call of [add_topic], [set_user_topic] and
    [clear_user_topic], no two catalog entries share a name, every topic is
    filed under the name it carries, and no user has two entries. *)
Theorem store_ok_invariant :
  (∀ dflt d, store_ok (init dflt d))
  ∧ (∀ tm, store_ok tm →
       (∀ name folder hashtag description,
          store_ok (add_topic name folder hashtag description tm).2)
       ∧ (∀ user_id topic_name, store_ok (set_user_topic user_id topic_name tm).2)
       ∧ (∀ user_id, store_ok (clear_user_topic user_id tm))).
Proof.
  split.
  - intros dflt d. rewrite init_spec. unfold store_ok. simpl.
    destruct (catalog_of_ok (topics_file d)) as [? ?].
    split; [done|]. split; [apply table_of_ok|done].
  - intros tm (Hts & Hus & Hnames). split; [|split].
    + intros name folder hashtag description. unfold add_topic, Dict.contains.
      destruct (Dict.get name (topics tm)) eqn:Hget; simpl; [done|].
      destruct (save_topics_fields
                  (with_topics tm (Dict.set name
                     (new_topic name folder hashtag description) (topics tm))))
        as (Htop' & Hus' & _).
      unfold store_ok. rewrite Htop', Hus'. simpl.
      split; [by apply NoDup_set|]. split; [done|].
      intros k t [[= -> ->]|Hin]%elem_of_set; [apply new_topic_name|by apply Hnames].
    + intros user_id topic_name. unfold set_user_topic.
      destruct (topic_truthy _); simpl; [|done].
      destruct (save_user_states_fields
                  (with_user_states tm (Dict.set user_id topic_name (user_states tm))))
        as (Htop' & Hus' & _).
      unfold store_ok. rewrite Htop', Hus'. simpl.
      split; [done|]. split; [by apply NoDup_set|done].
    + intros user_id. unfold clear_user_topic.
      destruct (Dict.contains _ _); [|done].
      destruct (save_user_states_fields
                  (with_user_states tm (Dict.del user_id (user_states tm))))
        as (Htop' & Hus' & _).
      unfold store_ok. rewrite Htop', Hus'. simpl.
      split; [done|]. split; [by apply NoDup_del|done].
Qed.

Lemma store_ok_invariant_witness :
  store_ok tm_work ∧ store_ok (clear_user_topic 7 tm_work).
Proof.
  destruct store_ok_invariant as [Hinit Hkeep].
  assert (Hwork : store_ok tm_work).
  { apply (Hkeep _ (proj1 (Hkeep _ (Hinit (Some "ROOT") empty_disk))
                      "work" "F1" None None)). }
  split; [exact Hwork|]. apply (Hkeep _ Hwork).
Defined.



(** X7.  On a disk that takes writes, what the three mutators leave on disk
    is the store they leave in memory: when a restart would have rebuilt
    the store as it was before the call, a restart after the call rebuilds
    the store as it is after the call, user ids and topics included. *)
Theorem mutations_durable (tm : State) :
  durable tm →
  writable (disk tm) = true →
  (∀ user_id topic_name, durable (set_user_topic user_id topic_name tm).2)
  ∧ (∀ name folder hashtag description,
       durable (add_topic name folder hashtag description tm).2)
  ∧ (∀ user_id, durable (clear_user_topic user_id tm)).
Proof.
  intros Hd Hw. pose proof (store_ok_of_durable tm Hd) as (Hnts & Hnus & Hnames).
  pose proof Hd as (Hts & Hus & Hdisk)%durable_iff.
  destruct (started_files_present _ Hdisk Hw) as [Htf Huf].
  split; [|split].
  - intros user_id topic_name. unfold set_user_topic.
    destruct (topic_truthy _); simpl; [|done].
    unfold _save_user_states. simpl. rewrite Hw. apply durable_iff. simpl.
    split; [done|]. split; [by apply table_of_saved, NoDup_set|].
    by apply disk_after_start_present.
  - intros name folder hashtag description. unfold add_topic, Dict.contains.
    destruct (Dict.get name (topics tm)) eqn:Hget; simpl; [done|].
    unfold _save_topics. simpl. rewrite Hw. apply durable_iff. simpl.
    split; [|split; [done|by apply disk_after_start_present]].
    apply catalog_of_saved; [by apply NoDup_set|].
    intros k t [[= -> ->]|Hin]%elem_of_set; [apply new_topic_name|by apply Hnames].
  - intros user_id. unfold clear_user_topic.
    destruct (Dict.contains _ _); [|done].
    unfold _save_user_states. simpl. rewrite Hw. apply durable_iff. simpl.
    split; [done|]. split; [by apply table_of_saved, NoDup_del|].
    by apply disk_after_start_present.
Qed.

Lemma mutations_durable_witness :
  restart (set_user_topic 42 "work" tm_work).2 = (set_user_topic 42 "work" tm_work).2
  ∧ restart (add_topic "home" "F3" None None tm_work).2
    = (add_topic "home" "F3" None None tm_work).2
  ∧ restart (clear_user_topic 7 tm_work) = clear_user_topic 7 tm_work.
Proof.
  assert (Hwork : durable tm_work) by reflexivity.
  destruct (mutations_durable tm_work Hwork eq_refl) as (Hset & Hadd & Hclear).
  split; [apply Hset|]. split; [apply Hadd|apply Hclear].
Defined.


Lemma store_ok_truthy tm n t :
  store_ok tm → Dict.get n (topics tm) = Some t → dict_truthy t = true.
Proof.
  intros (_ & _ & Hnames) Hget%get_elem.
  by apply (dict_truthy_lookup _ _ _ (Hnames _ _ Hget)).
Qed.

(** X8.  [clear_user_topic] forgets the user's selection and nothing else:
    afterwards the user has no topic, every other user and the catalog are
    as before; for a user without selection the store and the disk are
    untouched, and otherwise the user-state file holds the table without
    that user (when the disk takes the write). *)
Theorem clear_user_topic_contract (user_id : Z) (tm : State) :
  store_ok tm →
  get_user_topic user_id (clear_user_topic user_id tm) = None
  ∧ (∀ u, u ≠ user_id →
          get_user_topic u (clear_user_topic user_id tm) = get_user_topic u tm)
  ∧ topics (clear_user_topic user_id tm) = topics tm
  ∧ (get_user_topic user_id tm = None → clear_user_topic user_id tm = tm)
  ∧ (is_Some (get_user_topic user_id tm) → writable (disk tm) = true →
       user_state_file (disk (clear_user_topic user_id tm))
       = Some (Parsed ((λ kv : Z * string, (py_str kv.1, kv.2))
                          <$> Dict.del user_id (user_states tm)))).
Proof.
  intros (_ & Hnus & _). unfold clear_user_topic, get_user_topic, Dict.contains.
  destruct (Dict.get user_id (user_states tm)) as [n|] eqn:Hget.
  - destruct (save_user_states_fields
                (with_user_states tm (Dict.del user_id (user_states tm))))
      as (Htop & Hus & _).
    rewrite Htop, Hus. simpl. split; [by apply get_del_eq|].
    split; [intros u Hu; by apply get_del_ne|]. split; [done|]. split; [done|].
    intros _ Hw. unfold _save_user_states. simpl. by rewrite Hw.
  - split; [done|]. split; [done|]. split; [done|]. split; [done|].
    by intros [? ?].
Qed.

Lemma clear_user_topic_contract_witness :
  get_user_topic 7 (clear_user_topic 7 tm_work) = None
  ∧ clear_user_topic 42 tm_work = tm_work
  ∧ user_state_file (disk (clear_user_topic 7 tm_work)) = Some (Parsed []).
Proof.
  assert (Hok : store_ok tm_work) by (apply store_ok_of_durable; reflexivity).
  split; [apply (clear_user_topic_contract 7 tm_work Hok)|].
  split.
  - by apply (clear_user_topic_contract 42 tm_work Hok).
  - destruct (clear_user_topic_contract 7 tm_work Hok) as (_ & _ & _ & _ & Hfile).
    apply Hfile; [by eexists|reflexivity].
Defined.

(** X9.  A write that fails is not reported.  On a disk that refuses
    writes [set_user_topic] and [add_topic] still return [True] and change
    the store in memory, the disk stays as it was, and so a restart comes
    up without the change. *)
Theorem failed_write_not_reported (tm : State) :
  store_ok tm →
  writable (disk tm) = false →
  (∀ user_id topic_name,
     is_Some (Dict.get topic_name (topics tm)) →
     ∃ tm', set_user_topic user_id topic_name tm = (true, tm')
       ∧ get_user_topic user_id tm' = Some topic_name
       ∧ disk tm' = disk tm
       ∧ restart tm' = restart tm)
  ∧ (∀ name folder hashtag description,
     Dict.get name (topics tm) = None →
     ∃ tm', add_topic name folder hashtag description tm = (true, tm')
       ∧ get_topic name tm' = Some (new_topic name folder hashtag description)
       ∧ disk tm' = disk tm
       ∧ restart tm' = restart tm).
Proof.
  intros Hok Hw. split.
  - intros user_id topic_name [t Ht].
    rewrite (set_user_topic_present _ _ _ t Ht (store_ok_truthy _ _ _ Hok Ht)).
    eexists. split; [done|]. unfold _save_user_states. simpl. rewrite Hw.
    unfold get_user_topic. simpl. split; [apply get_set_eq|]. done.
  - intros name folder hashtag description Hnone.
    rewrite (add_topic_absent _ _ _ _ _ Hnone).
    eexists. split; [done|]. unfold _save_topics. simpl. rewrite Hw.
    unfold get_topic. simpl. split; [|done].
    rewrite <- (set_absent _ _ _ Hnone). apply get_set_eq.
Qed.

Lemma failed_write_not_reported_witness :
  let locked := {| default_folder_id := default_folder_id tm_work;
                   topics := topics tm_work; user_states := user_states tm_work;
                   disk := {| topics_file := topics_file (disk tm_work);
                              user_state_file := user_state_file (disk tm_work);
                              writable := false |} |} in
  ∃ tm', set_user_topic 42 "work" locked = (true, tm')
    ∧ get_user_topic 42 tm' = Some "work"
    ∧ get_user_topic 42 (restart tm') = None.
Proof.
  intros locked.
  assert (Hok : store_ok locked) by (apply store_ok_of_durable; reflexivity).
  destruct (failed_write_not_reported locked Hok eq_refl) as [Hset _].
  destruct (Hset 42 "work") as (tm' & Hrun & Hget & _ & Hrestart); [by eexists|].
  exists tm'. split; [exact Hrun|]. split; [exact Hget|].
  rewrite Hrestart. reflexivity.
Defined.


Lemma new_topic_hashtag name folder hashtag description :
  new_topic name folder hashtag description !! "hashtag"
  = Some (str_or hashtag ("#" +:+ name)).
Proof.
  unfold new_topic. rewrite !lookup_insert_ne by done. by rewrite lookup_insert_eq.
Qed.

Lemma str_or_truthy o dflt : dflt ≠ "" → str_or o dflt ≠ "".
Proof.
  intros Hd. unfold str_or. destruct o as [[|c s]|]; simpl; done.
Qed.

(** X10.  What the handlers get for a user who has just selected a newly
    added topic: the folder given to [add_topic], and as hashtag the one
    given, or [#name] when none or an empty one was given; the hashtag is
    never empty. *)
Theorem added_topic_folder_and_hashtag
    (tm : State) (n d : string) (hashtag description : option string) (u : Z) :
  n ≠ "" →
  Dict.get n (topics tm) = None →
  let tm2 := (set_user_topic u n (add_topic n d hashtag description tm).2).2 in
  Bot.get_folder_and_hashtag u tm2 = Ok (d, Some (str_or hashtag ("#" +:+ n)))
  ∧ str_or hashtag ("#" +:+ n) ≠ "".
Proof.
  intros Hn Hnone tm2. split; [|by apply str_or_truthy].
  set (T := new_topic n d hashtag description).
  set (tm1 := _save_topics (with_topics tm (topics tm ++ [(n, T)]))).
  assert (Hadd : add_topic n d hashtag description tm = (true, tm1)).
  { by apply add_topic_absent. }
  destruct (save_topics_fields (with_topics tm (topics tm ++ [(n, T)]))) as (Htop1 & _).
  assert (Hget1 : Dict.get n (topics tm1) = Some T).
  { unfold tm1. rewrite Htop1. simpl.
    rewrite <- (set_absent _ _ _ Hnone). apply get_set_eq. }
  assert (Htruthy : dict_truthy T = true).
  { apply (dict_truthy_lookup _ _ _ (new_topic_name n d hashtag description)). }
  unfold tm2. rewrite Hadd. simpl.
  rewrite (set_user_topic_present _ _ _ T Hget1 Htruthy). simpl.
  destruct (save_user_states_fields
              (with_user_states tm1 (Dict.set u n (user_states tm1))))
    as (Htop2 & Hus2 & _).
  unfold Bot.get_folder_and_hashtag, get_folder_id_for_user, get_hashtag_for_user,
    get_user_topic, get_topic.
  rewrite Hus2, Htop2. simpl. rewrite get_set_eq.
  rewrite (PyFacts.str_truthy_true n Hn), Hget1, Htruthy.
  unfold T. by rewrite new_topic_folder, new_topic_hashtag.
Qed.

Lemma added_topic_folder_and_hashtag_witness :
  Bot.get_folder_and_hashtag 42
    (set_user_topic 42 "home" (add_topic "home" "F3" (Some "") None tm_work).2).2
  = Ok ("F3", Some "#home").
Proof.
  apply (added_topic_folder_and_hashtag tm_work "home" "F3" (Some "") None 42).
  - discriminate.
  - reflexivity.
Defined.

(** The names a list of topics loads under, in step with the topics. *)
Lemma named_filter (n : string) (l : list Topic) :
  ∀ kvs,
    Forall2 (λ (t : Topic) (kv : string * Topic),
               (λ n, (n, t)) <$> t !! "name" = Some kv) l kvs →
    snd <$> filter (λ kv : string * Topic, kv.1 = n) kvs
    = filter (λ t : Topic, t !! "name" = Some n) l.
Proof.
  induction l as [|t l IH]; intros kvs Hall.
  - by apply Forall2_nil_inv_l in Hall as ->.
  - apply Forall2_cons_inv_l in Hall as ([k t'] & kvs' & Hnamed & Hall & ->).
    destruct (t !! "name") as [n'|] eqn:Hn'; [|done].
    simpl in Hnamed. injection Hnamed as <- <-.
    rewrite !filter_cons. cbn [fst]. rewrite Hn'.
    destruct (decide (n' = n)) as [->|Hne].
    + rewrite decide_True by done. rewrite fmap_cons. cbn [snd]. by rewrite IH.
    + rewrite decide_False by congruence. by apply IH.
Qed.

(** X11.  How the topics file is read: the root-level array and the
    [{"topics": [...]}] wrapper load alike, and an object without that key
    loads as no topics.  If any listed topic has no ["name"], the whole
    catalog comes up empty.  Otherwise a name looks up the last topic
    listed under it. *)
Theorem load_topics_semantics (dflt : option string) (d : Disk) (l : list Topic) :
  (topics_file d = Some (Parsed (TopicsArray l))
   ∨ topics_file d = Some (Parsed (TopicsObject (Some l)))) →
  (Exists (λ t : Topic, t !! "name" = None) l → topics (init dflt d) = [])
  ∧ (Forall (λ t : Topic, is_Some (t !! "name")) l →
     ∀ n, get_topic n (init dflt d)
          = last (filter (λ t : Topic, t !! "name" = Some n) l))
  ∧ (∀ d0, topics_file d0 = Some (Parsed (TopicsObject None)) →
           topics (init dflt d0) = []).
Proof.
  intros Hfile. rewrite init_spec. unfold get_topic. simpl.
  assert (Hcat : catalog_of (topics_file d)
                 = match mapM (λ topic : Topic, (λ n, (n, topic)) <$> topic !! "name") l with
                   | Some kvs => Dict.of_items kvs
                   | None => []
                   end).
  { by destruct Hfile as [-> | ->]. }
  rewrite Hcat. split; [|split].
  - intros Hex. rewrite (mapM_None_2 _ l); [done|].
    eapply Exists_impl; [done|]. intros t Ht. simpl. by rewrite Ht.
  - intros Hall n.
    destruct (mapM _ l) as [kvs|] eqn:Hm.
    + apply mapM_Some_1 in Hm. unfold Dict.of_items.
      rewrite get_foldl_set, <- (named_filter n l kvs Hm), fmap_last.
      by destruct (last _).
    + apply mapM_None_1 in Hm. exfalso.
      apply Exists_exists in Hm as (t & Hin & Hnone).
      rewrite Forall_forall in Hall. destruct (Hall t Hin) as [n' Hn'].
      by rewrite Hn' in Hnone.
  - intros d0 Hd0. rewrite init_spec. simpl. by rewrite Hd0.
Qed.


Lemma load_topics_semantics_witness :
  let a1 := new_topic "a" "F1" None None in
  let a2 := new_topic "a" "F2" None None in
  let b := new_topic "b" "F3" None None in
  let nameless : Topic := {["drive_folder_id" := "F9"]} in
  let wrapped := {| topics_file := Some (Parsed (TopicsObject (Some [a1; b; a2])));
                    user_state_file := None; writable := true |} in
  let broken := {| topics_file := Some (Parsed (TopicsArray [a1; nameless; b]));
                   user_state_file := None; writable := true |} in
  get_topic "a" (init None wrapped) = Some a2
  ∧ topics (init None broken) = [].
Proof.
  intros a1 a2 b nameless wrapped broken. split.
  - destruct (load_topics_semantics None wrapped [a1; b; a2]) as (_ & Hlast & _);
      [by right|].
    rewrite Hlast; [reflexivity|].
    repeat (apply Forall_cons; split; [by eexists|]). apply Forall_nil_2.
  - destruct (load_topics_semantics None broken [a1; nameless; b]) as (Hdrop & _);
      [by left|].
    apply Hdrop. apply Exists_cons_tl, Exists_cons_hd. reflexivity.
Defined.

Lemma keyed_filter (u : Z) (data : list (string * string)) :
  ∀ kvs,
    Forall2 (λ (kv : string * string) (e : Z * string),
               (λ n, (n, kv.2)) <$> py_int kv.1 = Some e) data kvs →
    snd <$> filter (λ e : Z * string, e.1 = u) kvs
    = snd <$> filter (λ kv : string * string, py_int kv.1 = Some u) data.
Proof.
  induction data as [|[key v] data IH]; intros kvs Hall.
  - by apply Forall2_nil_inv_l in Hall as ->.
  - apply Forall2_cons_inv_l in Hall as ([k' v'] & kvs' & Hkeyed & Hall & ->).
    cbn [fst snd] in Hkeyed.
    destruct (py_int key) as [n'|] eqn:Hn'; [|done].
    simpl in Hkeyed. injection Hkeyed as <- <-.
    rewrite !filter_cons. cbn [fst]. rewrite Hn'.
    destruct (decide (n' = u)) as [->|Hne].
    + rewrite decide_True by done. rewrite !fmap_cons. cbn [snd]. by rewrite IH.
    + rewrite decide_False by congruence. by apply IH.
Qed.

(** X12.  How the user-state file is read: if [int()] raises on any key,
    the whole table comes up empty.  Otherwise a user gets the
    topic of the last entry whose key reads as the user's id, so keys such
    as ["7"] and ["07"] are one user. *)
Theorem load_user_states_semantics
    (dflt : option string) (d : Disk) (data : list (string * string)) :
  user_state_file d = Some (Parsed data) →
  (Exists (λ kv : string * string, py_int kv.1 = None) data →
     user_states (init dflt d) = [])
  ∧ (Forall (λ kv : string * string, is_Some (py_int kv.1)) data →
     ∀ u, get_user_topic u (init dflt d)
          = snd <$> last (filter (λ kv : string * string, py_int kv.1 = Some u) data)).
Proof.
  intros Hfile. rewrite init_spec. unfold get_user_topic, table_of. simpl.
  rewrite Hfile. split.
  - intros Hex. rewrite (mapM_None_2 _ data); [done|].
    eapply Exists_impl; [done|]. intros kv Hkv. simpl. by rewrite Hkv.
  - intros Hall u.
    destruct (mapM _ data) as [kvs|] eqn:Hm.
    + apply mapM_Some_1 in Hm. unfold Dict.of_items.
      rewrite get_foldl_set, <- fmap_last, <- (keyed_filter u data kvs Hm), fmap_last.
      by destruct (last _).
    + apply mapM_None_1 in Hm. exfalso.
      apply Exists_exists in Hm as (kv & Hin & Hnone).
      rewrite Forall_forall in Hall. destruct (Hall kv Hin) as [n' Hn'].
      by rewrite Hn' in Hnone.
Qed.

Lemma load_user_states_semantics_witness :
  let twice := {| topics_file := None;
                  user_state_file := Some (Parsed [("7", "work"); ("8", "home"); ("07", "play")]);
                  writable := true |} in
  let broken := {| topics_file := None;
                   user_state_file := Some (Parsed [("7", "work"); ("seven", "home")]);
                   writable := true |} in
  get_user_topic 7 (init None twice) = Some "play"
  ∧ user_states (init None broken) = [].
Proof.
  intros twice broken. split.
  - destruct (load_user_states_semantics None twice
                [("7", "work"); ("8", "home"); ("07", "play")] eq_refl) as [_ Hlast].
    rewrite Hlast; [reflexivity|].
    repeat (apply Forall_cons; split; [by eexists|]). apply Forall_nil_2.
  - destruct (load_user_states_semantics None broken
                [("7", "work"); ("seven", "home")] eq_refl) as [Hdrop _].
    apply Hdrop. apply Exists_cons_tl, Exists_cons_hd. reflexivity.
Defined.

End StoreProofs.

(** ** bot.py beyond the debounce window *)

Module BotMore.
Import DriveUploader Bot BotTerms BotProofs.

Lemma info_none_iff ts msg : _get_attachment_info ts msg = None ↔ bare msg.
Proof.
  unfold _get_attachment_info, bare.
  destruct (last (photo msg)) as [p|] eqn:Hp.
  - split; [done|]. intros [Hnil _]. by rewrite Hnil in Hp.
  - apply last_None in Hp.
    destruct (video msg), (voice msg), (audio msg), (document msg);
      split; try done; by intros (_ & ? & ? & ? & ?).
Qed.

(** X13.  [_get_attachment_info] finds nothing exactly when the message has
    none of the five attachment kinds.  A photo wins over everything else
    the message carries: the largest size (the last one) is taken, named
    [photo_<timestamp>.jpg] and typed [image/jpeg]. *)
Theorem attachment_info_cases (ts : string) (msg : Message) :
  (_get_attachment_info ts msg = None ↔ bare msg)
  ∧ (∀ p, last (photo msg) = Some p →
       _get_attachment_info ts msg
       = Some (photo_file p, "photo_" +:+ ts +:+ ".jpg", "image/jpeg")).
Proof.
  split; [apply info_none_iff|].
  unfold _get_attachment_info. by intros p ->.
Qed.


Lemma attachment_info_cases_witness :
  let msg :=
    {| message_id := 5; chat_id := 1; from_user := None; media_group_id := None;
       photo := [{| photo_file := {| download_as_bytearray := Some [Byte.x01] |} |};
                 {| photo_file := {| download_as_bytearray := Some [Byte.x02] |} |}];
       video := None; voice := None; audio := None;
       document := Some {| document_file := {| download_as_bytearray := None |};
                           document_mime_type := None;
                           document_file_name := Some "a.pdf" |} |} in
  _get_attachment_info "20250202_120000" msg
  = Some ({| download_as_bytearray := Some [Byte.x02] |},
          "photo_20250202_120000.jpg", "image/jpeg").
Proof.
  intros msg. destruct (attachment_info_cases "20250202_120000" msg) as [_ Hphoto].
  exact (Hphoto _ eq_refl).
Defined.

Lemma info_typed ts msg file_obj filename mime_type :
  _get_attachment_info ts msg = Some (file_obj, filename, mime_type) →
  filename ≠ "" ∧ mime_type ≠ "".
Proof.
  intros Hinfo. unfold _get_attachment_info in Hinfo.
  destruct (last (photo msg)); [by injection Hinfo as _ <- <-|].
  destruct (video msg);
    [injection Hinfo as _ <- <-; split; by apply StoreProofs.str_or_truthy|].
  destruct (voice msg);
    [injection Hinfo as _ <- <-; split; [done|by apply StoreProofs.str_or_truthy]|].
  destruct (audio msg);
    [injection Hinfo as _ <- <-; split; by apply StoreProofs.str_or_truthy|].
  destruct (document msg); [|done].
  injection Hinfo as _ <- <-; split; by apply StoreProofs.str_or_truthy.
Qed.

(** X14.  Whatever [_get_attachment_info] finds has a file name and a MIME
    type that are not empty.  So for the items the bot builds, the pass
    [_validate_mime] gives to an absent or empty MIME type is never used:
    under an allow-list such an item passes the MIME check exactly when its
    MIME type is in the list. *)
Theorem attachment_info_typed
    (ts : string) (msg : Message) (file_obj : TgFile) (filename mime_type : string) :
  _get_attachment_info ts msg = Some (file_obj, filename, mime_type) →
  filename ≠ "" ∧ mime_type ≠ ""
  ∧ ∀ cfg allowed, allowed_mime_types cfg = Some allowed →
      (_validate_mime cfg (Some mime_type) = Ok () ↔ mime_type ∈ allowed).
Proof.
  intros Hinfo. pose proof (info_typed _ _ _ _ _ Hinfo) as Hne.
  destruct Hne as [Hname Hmime]. split; [done|]. split; [done|].
  intros cfg allowed Hallowed. rewrite UploaderMore.validate_mime_ok_iff.
  unfold UploaderTerms.mime_allowed. rewrite Hallowed.
  split; [by intros [?|?]|by right].
Qed.

Lemma attachment_info_typed_witness :
  let msg := {| message_id := 5; chat_id := 1; from_user := None; media_group_id := None;
                photo := []; video := None; voice := None; audio := None;
                document := Some {| document_file := {| download_as_bytearray := None |};
                                    document_mime_type := Some "";
                                    document_file_name := None |} |} in
  let cfg := {| max_file_size := default_max_file_size;
                allowed_mime_types := Some ["image/jpeg"] |} in
  _get_attachment_info "20250202_120000" msg
  = Some ({| download_as_bytearray := None |}, "document_20250202_120000",
          "application/octet-stream")
  ∧ _validate_mime cfg (Some "application/octet-stream") ≠ Ok ().
Proof.
  intros msg cfg. split; [reflexivity|].
  destruct (attachment_info_typed "20250202_120000" msg
              {| download_as_bytearray := None |} "document_20250202_120000"
              "application/octet-stream" eq_refl) as (_ & _ & Hiff).
  intros Hok. apply (Hiff cfg ["image/jpeg"] eq_refl) in Hok.
  apply list_elem_of_singleton in Hok. discriminate Hok.
Defined.


Lemma item_of_none ts msg : _get_attachment_info ts msg = None → item_of ts msg = None.
Proof. unfold item_of. by intros ->. Qed.

Lemma item_of_some ts msg file_obj filename mime_type blob :
  _get_attachment_info ts msg = Some (file_obj, filename, mime_type) →
  download_as_bytearray file_obj = Some blob →
  item_of ts msg = Some (filename, blob, Some mime_type).
Proof. unfold item_of. intros -> Hblob. by rewrite Hblob. Qed.

Lemma collect_items_from_ok clock entries :
  ∀ i acc,
    (∀ j e, entries !! j = Some e → ¬ download_fails (clock (i + j)%nat) e.1) →
    collect_items_from clock i entries acc
    = Ok (acc ++ omap id (imap (λ j e, item_of (clock (i + j)%nat) e.1) entries)).
Proof.
  induction entries as [|[msg context] entries IH]; intros i acc Hfine.
  - simpl. by rewrite app_nil_r.
  - pose proof (Hfine 0%nat (msg, context) eq_refl) as Hhead.
    rewrite Nat.add_0_r in Hhead. unfold download_fails in Hhead. simpl in Hhead.
    assert (Htail : ∀ j e, entries !! j = Some e →
                      ¬ download_fails (clock (S i + j)%nat) e.1).
    { intros j e Hj. replace (S i + j)%nat with (i + S j)%nat by lia.
      by apply (Hfine (S j)). }
    assert (Hshift : imap ((λ j e, item_of (clock (i + j)%nat) e.1) ∘ S) entries
                     = imap (λ j e, item_of (clock (S i + j)%nat) e.1) entries).
    { apply imap_ext. intros j e _. simpl.
      by replace (i + S j)%nat with (S (i + j))%nat by lia. }
    rewrite imap_cons, Hshift, Nat.add_0_r. cbn [collect_items_from fst].
    destruct (_get_attachment_info (clock i) msg)
      as [[[file_obj filename] mime_type]|] eqn:Hinfo.
    + destruct (download_as_bytearray file_obj) as [blob|] eqn:Hblob; [|done].
      rewrite (item_of_some _ _ _ _ _ _ Hinfo Hblob). cbn [omap id].
      rewrite (IH (S i) _ Htail). by rewrite <- app_assoc.
    + rewrite (item_of_none _ _ Hinfo). cbn [omap].
      by rewrite (IH (S i) _ Htail).
Qed.

Lemma collect_items_from_raise clock entries :
  ∀ i acc j e,
    entries !! j = Some e →
    download_fails (clock (i + j)%nat) e.1 →
    collect_items_from clock i entries acc = Raise TransportError.
Proof.
  induction entries as [|[msg context] entries IH]; intros i acc j e Hj Hfail; [done|].
  cbn [collect_items_from].
  destruct j as [|j].
  - injection Hj as <-. rewrite Nat.add_0_r in Hfail.
    unfold download_fails in Hfail. simpl in Hfail.
    destruct (_get_attachment_info (clock i) msg) as [[[file_obj filename] mime_type]|];
      [|done].
    by rewrite Hfail.
  - replace (i + S j)%nat with (S i + j)%nat in Hfail by lia. simpl in Hj.
    destruct (_get_attachment_info (clock i) msg) as [[[file_obj filename] mime_type]|].
    + destruct (download_as_bytearray file_obj); [|done]. by apply (IH (S i) _ j e).
    + by apply (IH (S i) _ j e).
Qed.

(** X15.  What the flush makes of the popped entries.  A message without
    attachment is skipped and does not count as a failure; the others
    become items in the order of arrival.  If the download of any one
    attachment fails, no batch is built at all. *)
Theorem collect_items_cases (clock : nat → string) (entries : list Entry) :
  ((∀ j e, entries !! j = Some e → ¬ download_fails (clock j) e.1) →
     collect_items clock entries = Ok (omap id (expected_items clock entries)))
  ∧ (∀ j e, entries !! j = Some e → download_fails (clock j) e.1 →
       collect_items clock entries = Raise TransportError).
Proof.
  unfold collect_items, expected_items. split.
  - intros Hfine. by rewrite (collect_items_from_ok clock entries 0 []).
  - intros j e Hj Hfail. by apply (collect_items_from_raise clock entries 0 [] j e).
Qed.


Lemma collect_items_cases_witness :
  let text_only := {| message_id := 2; chat_id := 1; from_user := Some 42;
                      media_group_id := Some "G1"; photo := []; video := None;
                      voice := None; audio := None; document := None |} in
  let lost := {| message_id := 3; chat_id := 1; from_user := Some 42;
                 media_group_id := Some "G1"; photo := []; video := None;
                 voice := Some {| voice_file := {| download_as_bytearray := None |};
                                  voice_mime_type := None |};
                 audio := None; document := None |} in
  collect_items noon [(photo_msg 1 "G1", 0%nat); (text_only, 0%nat); (photo_msg 4 "G1", 0%nat)]
  = Ok [("photo_20250202_120000.jpg", [Byte.x89; Byte.x50], Some "image/jpeg");
        ("photo_20250202_120000.jpg", [Byte.x89; Byte.x50], Some "image/jpeg")]
  ∧ collect_items noon [(photo_msg 1 "G1", 0%nat); (lost, 0%nat)] = Raise TransportError.
Proof.
  intros text_only lost. split.
  - destruct (collect_items_cases noon
                [(photo_msg 1 "G1", 0%nat); (text_only, 0%nat); (photo_msg 4 "G1", 0%nat)])
      as [Hok _].
    rewrite Hok; [reflexivity|].
    intros [|[|[|j]]] e Hj; [| | |done]; injection Hj as <-; unfold download_fails;
      simpl; first [discriminate | by intros []].
  - destruct (collect_items_cases noon [(photo_msg 1 "G1", 0%nat); (lost, 0%nat)])
      as [_ Hraise].
    apply (Hraise 1%nat (lost, 0%nat)); reflexivity.
Defined.

(** X16.  The rest of a flush, for a popped list that is not empty.  The
    first message of the group gets exactly two reactions, "processing" and
    then "success" or "error".  The backend is not called at all when the
    folder does not resolve, when a download fails or when no entry has an
    attachment.  "Success" means that the batch call returned: the backend
    then holds a new album under the folder of the first message's sender
    with one file per item.  An empty popped list gets no reaction. *)
Theorem process_media_group_rest_protocol
    (cfg : Config) (tm : TopicManager.State) (clock : nat → string) (album_ts : string)
    (first_msg : Message) (context : Context) (others : list Entry) (w : Outside) :
  let entries := (first_msg, context) :: others in
  let user_id := default 0 (from_user first_msg) in
  let w' := process_media_group_rest cfg tm clock album_ts entries w in
  process_media_group_rest cfg tm clock album_ts [] w = w
  ∧ (∃ r, (r = REACTION_SUCCESS ∨ r = REACTION_ERROR)
       ∧ reactions w' = reactions w ++
           [(chat_id first_msg, message_id first_msg, REACTION_PROCESSING);
            (chat_id first_msg, message_id first_msg, r)]
       ∧ (r = REACTION_SUCCESS →
            ∃ folder items,
              TopicManager.get_folder_id_for_user user_id tm = Ok folder
              ∧ collect_items clock entries = Ok items
              ∧ items ≠ []
              ∧ objects (drive w') = objects (drive w) ++
                  UploaderTerms.album album_ts folder (drive w) items (length items)))
  ∧ ((∃ e, TopicManager.get_folder_id_for_user user_id tm = Raise e)
     ∨ (∃ e, collect_items clock entries = Raise e)
     ∨ collect_items clock entries = Ok [] →
     drive w' = drive w).
Proof.
  intros entries user_id w'. split; [done|].
  subst w' entries user_id.
  unfold process_media_group_rest, get_folder_and_hashtag. cbv beta iota zeta.
  set (entries := (first_msg, context) :: others).
  set (user_id := default 0 (from_user first_msg)).
  destruct (TopicManager.get_folder_id_for_user user_id tm) as [folder|e1] eqn:Hfolder.
  2:{ split; [|done]. exists REACTION_ERROR. split; [by right|].
      split; [unfold set_reaction; simpl; by rewrite <- app_assoc|done]. }
  destruct (collect_items clock entries) as [items|e2] eqn:Hitems.
  2:{ split; [|done]. exists REACTION_ERROR. split; [by right|].
      split; [unfold set_reaction; simpl; by rewrite <- app_assoc|done]. }
  destruct items as [|it items].
  { split; [|done]. exists REACTION_ERROR. split; [by right|].
    split; [unfold set_reaction; simpl; by rewrite <- app_assoc|done]. }
  simpl (drive _).
  destruct (upload_media_group cfg album_ts folder (it :: items) (drive w))
    as [[sid|e3] d'] eqn:Hup.
  - split.
    + exists REACTION_SUCCESS. split; [by left|]. split; [unfold set_reaction; simpl; by rewrite <- app_assoc|].
      intros _. exists folder, (it :: items). split; [done|]. split; [done|].
      split; [done|].
      by destruct (UploaderMore.upload_media_group_returns _ _ _ _ _ _ _ Hup) as (_ & _ & ?).
    + intros [[e He]|[[e He]|?]]; done.
  - split.
    + exists REACTION_ERROR. split; [by right|].
      split; [unfold set_reaction; simpl; by rewrite <- app_assoc|done].
    + intros [[e He]|[[e He]|?]]; done.
Qed.


Lemma process_media_group_rest_protocol_witness :
  let cfg := {| max_file_size := default_max_file_size; allowed_mime_types := None |} in
  let w := {| drive := {| objects := []; faults := [] |}; reactions := [] |} in
  let others := [(photo_msg 2 "G1", 0%nat); (photo_msg 3 "G1", 0%nat)] in
  let w' := process_media_group_rest cfg TopicManager.tm_fresh noon "20250202_120001"
              ((photo_msg 1 "G1", 0%nat) :: others) w in
  drive w' = drive w
  ∧ reactions w' = [(1, 1, REACTION_PROCESSING); (1, 1, REACTION_ERROR)].
Proof.
  intros cfg w others w'.
  destruct (process_media_group_rest_protocol cfg TopicManager.tm_fresh noon
              "20250202_120001" (photo_msg 1 "G1") 0%nat others w)
    as (_ & (r & _ & Hreact & Hsucc) & Hdrive).
  split.
  - apply Hdrive. left. by eexists.
  - reflexivity.
Defined.

Lemma str_or_some (m dflt : string) : m ≠ "" → str_or (Some m) dflt = m.
Proof. by destruct m. Qed.

(** X17.  A single upload, as the chat sees it.  A message without
    attachment gets no reaction and nothing happens.  Any other message
    gets exactly two reactions, "processing" and then "success" or "error".
    "Error" means that nothing was stored; "success" means that exactly
    one file was stored, with the downloaded bytes and the MIME type of the
    attachment, in the folder resolved for the sender. *)
Theorem handle_single_media_all_or_nothing
    (cfg : Config) (tm : TopicManager.State) (ts : string) (msg : Message) (w : Outside) :
  let w' := handle_single_media cfg tm ts msg w in
  (bare msg → w' = w)
  ∧ (¬ bare msg →
     ∃ r, (r = REACTION_SUCCESS ∨ r = REACTION_ERROR)
       ∧ reactions w' = reactions w ++
           [(chat_id msg, message_id msg, REACTION_PROCESSING);
            (chat_id msg, message_id msg, r)]
       ∧ (r = REACTION_ERROR → objects (drive w') = objects (drive w))
       ∧ (r = REACTION_SUCCESS →
            ∃ file_obj filename mime_type blob folder,
              _get_attachment_info ts msg = Some (file_obj, filename, mime_type)
              ∧ download_as_bytearray file_obj = Some blob
              ∧ TopicManager.get_folder_id_for_user (default 0 (from_user msg)) tm
                = Ok folder
              ∧ objects (drive w') = objects (drive w) ++
                  [DriveFile filename folder blob mime_type])).
Proof.
  intros w'. subst w'. unfold handle_single_media, get_folder_and_hashtag.
  destruct (_get_attachment_info ts msg) as [[[file_obj filename] mime_type]|] eqn:Hinfo.
  2:{ split; [done|]. intros Hbare. by apply info_none_iff in Hinfo. }
  split.
  { intros Hbare. apply (info_none_iff ts msg) in Hbare. congruence. }
  intros _. cbv beta iota zeta.
  destruct (download_as_bytearray file_obj) as [blob|] eqn:Hblob.
  2:{ exists REACTION_ERROR. split; [by right|].
      split; [unfold set_reaction; simpl; by rewrite <- app_assoc|]. by split. }
  destruct (TopicManager.get_folder_id_for_user _ tm) as [folder|e] eqn:Hfolder.
  2:{ exists REACTION_ERROR. split; [by right|].
      split; [unfold set_reaction; simpl; by rewrite <- app_assoc|]. by split. }
  simpl (drive _).
  destruct (upload_file_bytes cfg folder filename blob (Some mime_type) (drive w))
    as [[id|e] d'] eqn:Hup.
  - exists REACTION_SUCCESS. split; [by left|].
    split; [unfold set_reaction; simpl; by rewrite <- app_assoc|]. split; [done|].
    intros _. exists file_obj, filename, mime_type, blob, folder.
    split; [done|]. split; [done|]. split; [done|].
    destruct (info_typed _ _ _ _ _ Hinfo) as [_ Hmime].
    revert Hup. unfold upload_file_bytes, mbind, M_bind, lift, files_create.
    destruct (_validate_size cfg (len blob)) as [[]|]; [|done].
    destruct (_validate_mime cfg (Some mime_type)) as [[]|]; [|done].
    rewrite (str_or_some _ _ Hmime).
    destruct (faults (drive w)) as [|[] fs]; intros [= _ <-]; done.
  - exists REACTION_ERROR. split; [by right|].
    split; [unfold set_reaction; simpl; by rewrite <- app_assoc|]. split; [|done].
    intros _. simpl.
    revert Hup. unfold upload_file_bytes, mbind, M_bind, lift, files_create.
    destruct (_validate_size cfg (len blob)) as [[]|]; [|by intros [= _ <-]].
    destruct (_validate_mime cfg (Some mime_type)) as [[]|]; [|by intros [= _ <-]].
    destruct (faults (drive w)) as [|[] fs]; intros [= _ <-]; done.
Qed.

Lemma handle_single_media_all_or_nothing_witness :
  let cfg := {| max_file_size := default_max_file_size; allowed_mime_types := None |} in
  let w := {| drive := {| objects := []; faults := [] |}; reactions := [] |} in
  let w' := handle_single_media cfg TopicManager.tm_work "20250202_120000"
              (photo_msg 5 "") w in
  ¬ bare (photo_msg 5 "")
  ∧ ∃ r, reactions w' = [(1, 5, REACTION_PROCESSING); (1, 5, r)]
      ∧ (r = REACTION_ERROR → objects (drive w') = []).
Proof.
  intros cfg w w'.
  assert (Hphoto : ¬ bare (photo_msg 5 "")) by (intros [Hp _]; discriminate Hp).
  split; [exact Hphoto|].
  destruct (handle_single_media_all_or_nothing cfg TopicManager.tm_work
              "20250202_120000" (photo_msg 5 "") w) as [_ Hrest].
  destruct (Hrest Hphoto) as (r & _ & Hreact & Herr & _).
  exists r. split; [exact Hreact | exact Herr].
Defined.

End BotMore.

(** ** One debounce window, from the first arrival to the album *)

Module DebounceProofs.
Import DriveUploader UploaderTerms Bot BotProofs.






End DebounceProofs.

(** ** The aggregation engine over any run *)

Module AggregationMore.
Import DriveUploader Bot BotTerms BotProofs.

Lemma reachable_deliver a s : reachable s → reachable (deliver a s).
Proof.
  intros Hr. unfold deliver.
  by apply reachable_settle, reachable_handle, reachable_advance.
Qed.

Lemma reachable_run arrivals : ∀ s, reachable s → reachable (run arrivals s).
Proof.
  induction arrivals as [|a arrivals IH]; intros s Hr; [done|].
  rewrite run_cons. by apply IH, reachable_deliver.
Qed.

Lemma schedule_notin_app k (q : list Job) job :
  job ≠ RunSchedule k → (RunSchedule k ∉ q ++ [job] ↔ RunSchedule k ∉ q).
Proof.
  intros Hne. rewrite elem_of_app, list_elem_of_singleton. split.
  - intros Hnotin Hin. apply Hnotin. by left.
  - intros Hnotin [Hin|Heq]; [by apply Hnotin|by apply Hne].
Qed.

Lemma timers_ok_init : timers_ok init.
Proof.
  split; simpl.
  - intros k [r Hr]. by rewrite lookup_empty in Hr.
  - intros timer Hin. by apply elem_of_nil in Hin.
  - intros k. rewrite !lookup_empty. split; [by intros [? ?]|by intros [[? ?] _]].
Qed.

Lemma timers_ok_handle msg context s :
  timers_ok s → timers_ok (handle_media_with_group msg context s).1.
Proof.
  intros [Hlive Hwin Htasks].
  destruct (group_key msg) as [k|] eqn:Hkey; [|by rewrite handle_single].
  destruct (_media_group_buffer s !! k) as [r|] eqn:Hk.
  - rewrite (handle_existing _ _ _ _ _ Hkey Hk). by split.
  - rewrite (handle_new _ _ _ _ Hkey Hk). split; simpl.
    + intros k' Hk'. unfold pending. simpl. rewrite fmap_app, !elem_of_app. simpl.
      apply lookup_insert_is_Some' in Hk' as [<-|Hk'].
      * left. right. by left.
      * apply Hlive in Hk'. unfold pending in Hk'.
        apply elem_of_app in Hk' as [?|?]; [left; by left|by right].
    + done.
    + intros k'. destruct (decide (k = k')) as [<-|Hne].
      * split.
        -- intros Hsome. apply Htasks in Hsome as [[? ?] _]. congruence.
        -- intros [_ Hnotin]. exfalso. apply Hnotin, elem_of_app. right. by left.
      * rewrite lookup_insert_ne by done.
        rewrite schedule_notin_app by congruence. apply Htasks.
Qed.

Lemma timers_ok_step s : wf s → timers_ok s → timers_ok (step s).
Proof.
  intros Hwf [Hlive Hwin Htasks].
  destruct (ready s) as [|[k|k] q] eqn:Hq.
  - rewrite step_nil by done. split; [done|done|]. by rewrite Hq.
  - assert (Hlive' : ∀ k', is_Some (_media_group_buffer (step s) !! k') →
                           k' ∈ pending (step s)).
    { intros k'. destruct (step_frame s) as (_ & _ & -> & _).
      rewrite step_pending. apply Hlive. }
    assert (Hin : RunSchedule k ∈ ready s) by (rewrite Hq; by left).
    assert (Hq' : RunSchedule k ∉ q).
    { pose proof (wf_pending_nodup s Hwf) as Hnodup. unfold pending in Hnodup.
      rewrite Hq in Hnodup. simpl in Hnodup. apply NoDup_cons in Hnodup as [Hnotin _].
      intros Hin'. apply Hnotin, elem_of_app. left.
      by apply (list_elem_of_fmap_2 job_key _ (RunSchedule k)). }
    split; [done| |]; rewrite (step_schedule s k q Hq) in *; simpl.
    + done.
    + intros k'. rewrite schedule_notin_app by done.
      destruct (decide (k = k')) as [<-|Hne].
      * rewrite lookup_insert_eq. split; [|by eexists].
        intros _. split; [|done]. apply (wf_job_key s (RunSchedule k) Hwf Hin).
      * rewrite lookup_insert_ne by done. rewrite Htasks.
        rewrite not_elem_of_cons. split.
        -- intros [Hb [_ Hnotin]]. by split.
        -- intros [Hb Hnotin]. split; [done|]. split; [congruence|done].
  - assert (Hlive' : ∀ k', is_Some (_media_group_buffer (step s) !! k') →
                           k' ∈ pending (step s)).
    { intros k'. destruct (step_frame s) as (_ & _ & -> & _).
      rewrite step_pending. apply Hlive. }
    split; [done| |]; rewrite (step_task s k q Hq) in *; simpl.
    + intros timer [Hin|Hin]%elem_of_app; [by apply Hwin|].
      apply list_elem_of_singleton in Hin as ->. unfold MEDIA_GROUP_DELAY. simpl. lia.
    + intros k'. rewrite Htasks. rewrite not_elem_of_cons. split.
      * intros [Hb [_ Hnotin]]. by split.
      * intros [Hb Hnotin]. by split.
Qed.

Lemma fire_due_key_gone due s k :
  k ∈ due.*2 → _media_group_buffer (fire due s) !! k = None.
Proof.
  revert s. induction due as [|timer due IH]; intros s Hin; [by apply elem_of_nil in Hin|].
  rewrite fire_cons. rewrite fmap_cons in Hin.
  destruct (decide (timer.2 = k)) as [<-|Hne].
  - apply fire_buffer_None, wake_frees_key.
  - apply elem_of_cons in Hin as [?|Hin]; [done|]. by apply IH.
Qed.

Lemma wake_tasks timer s :
  (∀ k, is_Some (_media_group_tasks s !! k)
        ↔ is_Some (_media_group_buffer s !! k) ∧ RunSchedule k ∉ ready s) →
  ∀ k, is_Some (_media_group_tasks (wake timer s) !! k)
       ↔ is_Some (_media_group_buffer (wake timer s) !! k)
         ∧ RunSchedule k ∉ ready (wake timer s).
Proof.
  intros Htasks k. rewrite wake_ready. unfold wake, process_media_group_locked. simpl.
  destruct (_media_group_buffer s !! timer.2) eqn:Hk; simpl; [|done].
  rewrite !lookup_delete_is_Some. rewrite Htasks. split.
  - intros [Hne [Hb Hnotin]]. by split.
  - intros [[Hne Hb] Hnotin]. by split.
Qed.

Lemma fire_tasks due s :
  (∀ k, is_Some (_media_group_tasks s !! k)
        ↔ is_Some (_media_group_buffer s !! k) ∧ RunSchedule k ∉ ready s) →
  ∀ k, is_Some (_media_group_tasks (fire due s) !! k)
       ↔ is_Some (_media_group_buffer (fire due s) !! k)
         ∧ RunSchedule k ∉ ready (fire due s).
Proof.
  revert s. induction due as [|timer due IH]; intros s Htasks; [done|].
  rewrite fire_cons. by apply IH, wake_tasks.
Qed.

Lemma timers_ok_advance t s : timers_ok s → timers_ok (advance_to t s).
Proof.
  intros [Hlive Hwin Htasks].
  set (s1 := {| now := now s; lists := lists s;
                _media_group_buffer := _media_group_buffer s;
                _media_group_tasks := _media_group_tasks s;
                ready := ready s;
                sleepers := filter (λ timer, t < timer.1) (sleepers s);
                in_flight := in_flight s |}).
  set (due := filter (λ timer, timer.1 ≤ t) (sleepers s)).
  split.
  - intros k [r Hr]. unfold pending. rewrite advance_to_ready, advance_to_sleepers.
    unfold advance_to in Hr. simpl in Hr. fold s1 due in Hr.
    assert (Hnotdue : k ∉ due.*2).
    { intros Hin. by rewrite (fire_due_key_gone due s1 k Hin) in Hr. }
    apply fire_buffer_Some in Hr. simpl in Hr.
    pose proof (Hlive k (mk_is_Some _ _ Hr)) as Hpend. unfold pending in Hpend.
    apply elem_of_app. apply elem_of_app in Hpend as [Hjob|Htimer]; [by left|right].
    destruct (list_elem_of_fmap_1 _ _ _ Htimer) as (timer & -> & Hin).
    apply list_elem_of_fmap_2, list_elem_of_filter. split; [|done].
    destruct (decide (t < timer.1)) as [?|Hle]; [done|]. exfalso. apply Hnotdue.
    apply list_elem_of_fmap_2, list_elem_of_filter. split; [lia|done].
  - intros timer. rewrite advance_to_sleepers, advance_to_now.
    intros [Hlater Hin]%list_elem_of_filter. specialize (Hwin timer Hin). lia.
  - intros k. unfold advance_to. simpl. fold s1 due. by apply fire_tasks.
Qed.

(** Both invariants together along any history of the loop. *)
Lemma reachable_ok s : reachable s → wf s ∧ timers_ok s.
Proof.
  induction 1 as [|s msg context _ [Hwf Hok]|s _ [Hwf Hok]|s t _ [Hwf Hok]].
  - split; [apply wf_init|apply timers_ok_init].
  - split; [by apply wf_handle|by apply timers_ok_handle].
  - split; [by apply wf_step|by apply timers_ok_step].
  - split; [by apply wf_advance|by apply timers_ok_advance].
Qed.

(** X18.  One group, one pending flush.  In every state the loop can
    reach, however handlers, turns of the queue and the passing of time
    interleave: no key has more than one thing pending, be it a queued
    [schedule_media_group], a queued [_task] or a sleeping timer; whatever
    is pending belongs to a key with a live group; no sleeping timer is
    due later than one delay from now; and a task handle is stored for a
    key exactly when the key has a live group whose
    [schedule_media_group] has run. *)
Theorem one_timer_per_group (s : Loop) :
  reachable s →
  NoDup (pending s)
  ∧ (∀ k, k ∈ pending s → is_Some (_media_group_buffer s !! k))
  ∧ (∀ timer, timer ∈ sleepers s → timer.1 ≤ now s + MEDIA_GROUP_DELAY)
  ∧ (∀ k, is_Some (_media_group_tasks s !! k)
          ↔ is_Some (_media_group_buffer s !! k) ∧ RunSchedule k ∉ ready s).
Proof.
  intros [Hwf [Hlive Hwin Htasks]]%reachable_ok.
  split; [apply (wf_pending_nodup s Hwf)|].
  split; [apply (wf_pending_key s Hwf)|].
  split; [|done].
  intros timer Hin. by destruct (Hwin timer Hin).
Qed.

Lemma one_timer_per_group_witness :
  let s := (handle_media_with_group (photo_msg 1 "G1") 0%nat init).1 in
  ready s = [RunSchedule "G1"]
  ∧ sleepers s = []
  ∧ NoDup (pending s)
  ∧ (is_Some (_media_group_tasks s !! "G1")
     ↔ is_Some (_media_group_buffer s !! "G1") ∧ RunSchedule "G1" ∉ ready s)
  ∧ is_Some (_media_group_tasks (step s) !! "G1").
Proof.
  intros s. split; [reflexivity|]. split; [reflexivity|].
  assert (Hreach : reachable s) by apply reachable_handle, reachable_init.
  destruct (one_timer_per_group s Hreach) as (Hnodup & _ & _ & Htasks).
  split; [exact Hnodup|]. split; [apply Htasks|].
  destruct (one_timer_per_group (step s) (reachable_step s Hreach)) as (_ & _ & _ & Htasks').
  apply Htasks'. split; [by eexists|].
  intros Hin. vm_compute in Hin.
  apply elem_of_cons in Hin as [?|Hin]; [done|]. by apply elem_of_nil in Hin.
Defined.

Lemma fire_flushes_key due :
  ∀ s k r,
    k ∈ due.*2 →
    _media_group_buffer s !! k = Some r →
    ∃ timer, timer ∈ due
      ∧ {| fl_key := k; fl_entries := r; fl_time := timer.1 |} ∈ in_flight (fire due s).
Proof.
  induction due as [|timer due IH]; intros s k r Hin Hk; [by apply elem_of_nil in Hin|].
  rewrite fire_cons. rewrite fmap_cons in Hin.
  destruct (decide (timer.2 = k)) as [Heq|Hne].
  - exists timer. split; [by left|]. apply fire_in_flight_mono.
    rewrite wake_in_flight, Heq, Hk. apply elem_of_app. right.
    apply list_elem_of_singleton. done.
  - apply elem_of_cons in Hin as [?|Hin]; [done|].
    destruct (IH (wake timer s) k r Hin) as (timer' & Hin' & Hfl).
    { rewrite wake_buffer. by rewrite lookup_delete_ne. }
    exists timer'. split; [by right|done].
Qed.

(** X19.  No group waits longer than the delay.  From any state the loop
    can reach, let what is queued run now, and then let one delay or more
    pass without a new arrival.  The buffer is empty, nothing is queued, no
    timer sleeps, no task handle is kept, and every group that was live
    has had its flush begun, on its own list, at a time within that
    delay. *)
Theorem buffer_drains (s : Loop) (t : Z) :
  reachable s →
  now s + MEDIA_GROUP_DELAY ≤ t →
  let s' := advance_to t (settle s) in
  _media_group_buffer s' = ∅
  ∧ _media_group_tasks s' = ∅
  ∧ sleepers s' = []
  ∧ ready s' = []
  ∧ ∀ k r, _media_group_buffer s !! k = Some r →
      ∃ fl, fl ∈ in_flight s' ∧ fl_key fl = k ∧ fl_entries fl = r
        ∧ now s < fl_time fl ≤ now s + MEDIA_GROUP_DELAY.
Proof.
  intros Hreach Ht s'. set (s0 := settle s) in *.
  assert (Hreach0 : reachable s0) by (by apply reachable_settle).
  assert (Hq : ready s0 = []) by apply settle_ready.
  assert (Hnow : now s0 = now s) by apply settle_now.
  assert (Hbuf : _media_group_buffer s0 = _media_group_buffer s) by apply settle_buffer.
  destruct (reachable_ok s0 Hreach0) as [Hwf [Hlive Hwin Htasks]].
  destruct (reachable_ok s' (reachable_advance s0 t Hreach0)) as [_ [_ _ Htasks']].
  set (s1 := {| now := now s0; lists := lists s0;
                _media_group_buffer := _media_group_buffer s0;
                _media_group_tasks := _media_group_tasks s0;
                ready := ready s0;
                sleepers := filter (λ timer, t < timer.1) (sleepers s0);
                in_flight := in_flight s0 |}).
  set (due := filter (λ timer, timer.1 ≤ t) (sleepers s0)).
  assert (Hdue : ∀ k, is_Some (_media_group_buffer s0 !! k) → k ∈ due.*2).
  { intros k Hk. pose proof (Hlive k Hk) as Hpend. unfold pending in Hpend.
    rewrite Hq in Hpend. simpl in Hpend.
    destruct (list_elem_of_fmap_1 _ _ _ Hpend) as (timer & -> & Hin).
    apply list_elem_of_fmap_2, list_elem_of_filter. split; [|done].
    specialize (Hwin timer Hin). lia. }
  assert (Hempty : _media_group_buffer s' = ∅).
  { apply map_empty. intros k.
    destruct (_media_group_buffer s' !! k) as [r|] eqn:Hr; [|done].
    unfold s', advance_to in Hr. simpl in Hr. fold s1 due in Hr.
    pose proof (fire_buffer_Some _ _ _ _ Hr) as Hr0. simpl in Hr0.
    by rewrite (fire_due_key_gone due s1 k (Hdue k (mk_is_Some _ _ Hr0))) in Hr. }
  split; [done|]. split; [|split; [|split]].
  - apply map_empty. intros k.
    destruct (_media_group_tasks s' !! k) as [x|] eqn:Hx; [|done].
    destruct (proj1 (Htasks' k) (mk_is_Some _ _ Hx)) as [[r Hr] _].
    by rewrite Hempty, lookup_empty in Hr.
  - unfold s'. rewrite advance_to_sleepers.
    destruct (filter (λ timer : Z * string, t < timer.1) (sleepers s0))
      as [|timer rest] eqn:Hf; [done|].
    assert (Hin : timer ∈ filter (λ timer : Z * string, t < timer.1) (sleepers s0))
      by (rewrite Hf; by left).
    apply list_elem_of_filter in Hin as [Hlate Hin]. specialize (Hwin timer Hin). lia.
  - unfold s'. by rewrite advance_to_ready.
  - intros k r Hk. rewrite <- Hbuf in Hk.
    destruct (fire_flushes_key due s1 k r (Hdue k (mk_is_Some _ _ Hk)) Hk)
      as (timer & Hin & Hfl).
    exists {| fl_key := k; fl_entries := r; fl_time := timer.1 |}.
    split; [exact Hfl|]. split; [done|]. split; [done|]. simpl.
    apply list_elem_of_filter in Hin as [_ Hin]. rewrite <- Hnow. by apply Hwin.
Qed.

Lemma buffer_drains_witness :
  let s := (handle_media_with_group (photo_msg 3 "G3") 0%nat
              (run [arrival 0 1 "G1"; arrival 500 2 "G2"] init)).1 in
  now s = 500
  ∧ ready s = [RunSchedule "G3"]
  ∧ _media_group_buffer (advance_to 2000 (settle s)) = ∅
  ∧ sleepers (advance_to 2000 (settle s)) = []
  ∧ ∃ fl, fl ∈ in_flight (advance_to 2000 (settle s)) ∧ fl_key fl = "G3"
      ∧ 500 < fl_time fl ≤ 2000.
Proof.
  intros s. split; [reflexivity|]. split; [reflexivity|].
  assert (Hreach : reachable s).
  { apply reachable_handle, reachable_run, reachable_init. }
  assert (Hlate : now s + MEDIA_GROUP_DELAY ≤ 2000) by (vm_compute; discriminate).
  destruct (buffer_drains s 2000 Hreach Hlate) as (Hbuf & _ & Hsl & _ & Hfl).
  split; [exact Hbuf|]. split; [exact Hsl|].
  destruct (_media_group_buffer s !! "G3") as [r|] eqn:Hk; [|by vm_compute in Hk].
  destruct (Hfl "G3" r Hk) as (fl & Hin & Hkey & _ & Hwin).
  exists fl. split; [exact Hin|]. split; [exact Hkey|]. exact Hwin.
Defined.

(** *** Nothing buffered is lost or duplicated *)

Lemma bind_ext_in {A B} (f g : A → list B) (l : list A) :
  (∀ x, x ∈ l → f x = g x) → l ≫= f = l ≫= g.
Proof.
  induction l as [|x l IH]; intros Hfg; [done|].
  rewrite !bind_cons, (Hfg x) by (by left).
  f_equal. apply IH. intros y Hy. apply Hfg. by right.
Qed.

Lemma history_wake k timer s : history k (wake timer s) = history k s.
Proof.
  unfold history, live_entries, flushes_of.
  rewrite wake_in_flight, wake_buffer, wake_lists, filter_app, bind_app.
  destruct (decide (timer.2 = k)) as [<-|Hne].
  - rewrite lookup_delete_eq.
    destruct (_media_group_buffer s !! timer.2) as [r|] eqn:Hk.
    + rewrite filter_cons_True by done. rewrite filter_nil, bind_singleton.
      simpl. by rewrite !app_nil_r.
    + rewrite filter_nil. simpl. by rewrite !app_nil_r.
  - rewrite lookup_delete_ne by done.
    destruct (_media_group_buffer s !! timer.2) as [r|] eqn:Hk.
    + rewrite filter_cons_False by (simpl; congruence).
      rewrite filter_nil. simpl. by rewrite app_nil_r.
    + rewrite filter_nil. simpl. by rewrite app_nil_r.
Qed.

Lemma history_fire k due s : history k (fire due s) = history k s.
Proof.
  revert s. induction due as [|timer due IH]; intros s; [done|].
  by rewrite fire_cons, IH, history_wake.
Qed.

Lemma history_advance k t s : history k (advance_to t s) = history k s.
Proof.
  unfold advance_to.
  set (s1 := {| now := now s; lists := lists s;
                _media_group_buffer := _media_group_buffer s;
                _media_group_tasks := _media_group_tasks s;
                ready := ready s;
                sleepers := filter (λ timer, t < timer.1) (sleepers s);
                in_flight := in_flight s |}).
  set (due := filter (λ timer, timer.1 ≤ t) (sleepers s)).
  cbv zeta. transitivity (history k (fire due s1)); [done|].
  by rewrite history_fire.
Qed.

Lemma flushed_handle k msg context s :
  wf s →
  (flushes_of k (handle_media_with_group msg context s).1 ≫=
     λ fl, default [] (lists (handle_media_with_group msg context s).1 !! fl_entries fl))
  = (flushes_of k s ≫= λ fl, default [] (lists s !! fl_entries fl)).
Proof.
  intros Hwf. unfold flushes_of. rewrite handle_in_flight.
  apply bind_ext_in. intros fl [_ Hin]%list_elem_of_filter.
  by rewrite handle_flushed_list.
Qed.

Lemma live_handle k msg context s :
  wf s →
  live_entries k (handle_media_with_group msg context s).1
  = live_entries k s ++
      (if decide (group_key msg = Some k) then [(msg, context)] else []).
Proof.
  intros Hwf. unfold live_entries.
  destruct (group_key msg) as [k'|] eqn:Hkey.
  - destruct (_media_group_buffer s !! k') as [r|] eqn:Hk'.
    + rewrite (handle_existing _ _ _ _ _ Hkey Hk'). simpl.
      destruct (decide (Some k' = Some k)) as [[= ->]|Hne].
      * rewrite Hk', lookup_alter_eq.
        destruct (wf_buffer_live s Hwf k r Hk') as [es ->]. done.
      * rewrite app_nil_r.
        destruct (_media_group_buffer s !! k) as [r'|] eqn:Hk; [|done].
        rewrite lookup_alter_ne; [done|]. intros ->.
        apply Hne. f_equal. by apply (wf_buffer_inj s Hwf k' k r').
    + rewrite (handle_new _ _ _ _ Hkey Hk'). simpl.
      destruct (decide (Some k' = Some k)) as [[= ->]|Hne].
      * by rewrite Hk', !lookup_insert_eq.
      * rewrite app_nil_r, lookup_insert_ne by congruence.
        destruct (_media_group_buffer s !! k) as [r'|] eqn:Hk; [|done].
        rewrite lookup_insert_ne; [done|]. intros Heq.
        destruct (wf_buffer_live s Hwf k r' Hk) as [es Hes].
        pose proof (fresh_list_None s) as Hfresh. congruence.
  - rewrite handle_single by done.
    rewrite decide_False by done. by rewrite app_nil_r.
Qed.

Lemma history_settle k s : history k (settle s) = history k s.
Proof.
  unfold history, live_entries, flushes_of.
  by rewrite settle_lists, settle_buffer, settle_in_flight.
Qed.

Lemma history_deliver k a s :
  wf s →
  history k (deliver a s) = history k s ++ members_of k [a].
Proof.
  intros Hwf. unfold deliver. rewrite history_settle. unfold history.
  pose proof (wf_advance (at_time a) s Hwf) as Hwf'.
  rewrite flushed_handle, live_handle by done.
  rewrite members_of_cons. unfold members_of at 1. rewrite filter_nil, fmap_nil, app_nil_r.
  rewrite app_assoc. f_equal. apply (history_advance k (at_time a) s).
Qed.

Lemma history_run k arrivals :
  ∀ s, wf s → history k (run arrivals s) = history k s ++ members_of k arrivals.
Proof.
  induction arrivals as [|a arrivals IH]; intros s Hwf.
  - unfold members_of. by rewrite filter_nil, fmap_nil, app_nil_r.
  - rewrite run_cons, IH by (by apply wf_deliver).
    rewrite history_deliver by done.
    rewrite (members_of_cons k a arrivals), (members_of_cons k a []).
    unfold members_of at 1. by rewrite filter_nil, fmap_nil, app_nil_r, app_assoc.
Qed.

(** X20.  Conservation.  Take any state the loop can reach and let any
    updates arrive at any times.  For every key, what its flushes have
    popped (oldest flush first) followed by what its live group holds is
    what it was before followed by the updates that arrived with that key,
    in their order of arrival: no buffered update is dropped, repeated,
    reordered or moved to another key, and the passing of time alone
    changes nothing of it. *)
Theorem buffered_updates_conserved (k : string) (s : Loop) (arrivals : list Arrival) (t : Z) :
  reachable s →
  history k (run arrivals s) = history k s ++ members_of k arrivals
  ∧ history k (advance_to t s) = history k s.
Proof.
  intros Hwf%reachable_wf. split.
  - by apply history_run.
  - apply history_advance.
Qed.

Lemma buffered_updates_conserved_witness :
  let arrivals := [arrival 0 1 "G1"; arrival 500 2 "G2"; arrival 2000 3 "G1"] in
  history "G1" (run arrivals init) = members_of "G1" arrivals
  ∧ length (flushes_of "G1" (run arrivals init)) = 1%nat
  ∧ length (members_of "G1" arrivals) = 2%nat.
Proof.
  intros arrivals.
  destruct (buffered_updates_conserved "G1" init arrivals 0 reachable_init) as [Hrun _].
  split; [exact Hrun|]. split; reflexivity.
Defined.

End AggregationMore.

(** ** The commands that only read *)

Module CommandProofs.
Import TopicManager StoreTerms Bot Commands.

Lemma lines_by_key (l : list (string * Topic)) :
  (∀ k t, (k, t) ∈ l → t !! "name" = Some k) →
  topic_line <$> l.*2 =
    zip_with (λ name desc, "• /" +:+ name +:+ " — " +:+ desc)
      l.*1 ((λ kt, default "" (kt.2 !! "description")) <$> l).
Proof.
  induction l as [|[k t] l IH]; intros Hnames; [done|].
  rewrite !fmap_cons. cbn [zip_with fst snd]. f_equal.
  - unfold topic_line. by rewrite (Hnames k t) by (by left).
  - apply IH. intros k' t' Hin. apply Hnames. by right.
Qed.

Lemma selectable_iff tm user_id name :
  store_ok tm →
  (set_user_topic user_id name tm).1 = true ↔ name ∈ (topics tm).*1.
Proof.
  intros Hok. unfold set_user_topic, get_topic.
  destruct (Dict.get name (topics tm)) as [t|] eqn:Hget; simpl.
  - rewrite (StoreProofs.store_ok_truthy tm name t Hok Hget). simpl.
    split; [|done]. intros _.
    apply DictMore.get_elem in Hget. by apply (list_elem_of_fmap_2 fst _ (name, t)).
  - split; [done|]. intros Hin. by apply DictMore.get_None in Hget.
Qed.

(** X21.  What /topics lists is what can be selected.  In a store as the
    manager builds it, the listing has one line per topic, in the order of
    the catalog, each showing the name the topic is filed under (never the
    placeholder for a missing name) and its description (empty when it has
    none); no name is listed twice; and a name is accepted by
    [set_user_topic] exactly when it is listed.  With no topic the reply is
    the notice. *)
Theorem cmd_topics_lists_selectable (update : Update) (msg : Message) (tm : State) :
  store_ok tm →
  message update = Some msg →
  let names := (topics tm).*1 in
  let descs := (λ kt, default "" (kt.2 !! "description")) <$> topics tm in
  cmd_topics update tm =
    (if decide (names = []) then Reply no_topics_msg
     else Reply ("Topics:" +:+ nl +:+
                 join nl (zip_with (λ name desc, "• /" +:+ name +:+ " — " +:+ desc)
                            names descs)))
  ∧ NoDup names
  ∧ ∀ user_id name, (set_user_topic user_id name tm).1 = true ↔ name ∈ names.
Proof.
  intros Hok Hmsg names descs. split; [|split].
  - unfold cmd_topics, get_all_topics, Dict.values. rewrite Hmsg.
    destruct Hok as (_ & _ & Hnames).
    rewrite (lines_by_key _ Hnames). fold names descs.
    subst names. destruct (topics tm) as [|[k t] rest]; [done|].
    rewrite decide_False by done. done.
  - apply Hok.
  - intros user_id name. by apply selectable_iff.
Qed.

Lemma cmd_topics_lists_selectable_witness :
  let update := {| message := Some (photo_msg 1 ""); effective_user := Some 7 |} in
  cmd_topics update tm_work = Reply ("Topics:" +:+ nl +:+ "• /work — work related content")
  ∧ (set_user_topic 9 "work" tm_work).1 = true.
Proof.
  intros update.
  assert (Hok : store_ok tm_work).
  { apply StoreProofs.store_ok_of_durable. reflexivity. }
  destruct (cmd_topics_lists_selectable update (photo_msg 1 "") tm_work Hok eq_refl)
    as (Hreply & _ & Hsel).
  split; [exact Hreply|]. apply Hsel. by left.
Defined.

Lemma current_user update tm :
  cmd_current update tm =
    match message update with
    | None => AttributeError
    | Some _ =>
        match get_user_topic (default 0 (effective_user update)) tm with
        | Some n => if str_truthy n then Reply ("Current topic: " +:+ n)
                    else Reply no_topic_set_msg
        | None => Reply no_topic_set_msg
        end
    end.
Proof.
  unfold cmd_current.
  destruct (get_user_topic _ tm) as [n|]; simpl; [|by destruct (message update)].
  destruct (str_truthy n); by destruct (message update).
Qed.

(** X22.  /current after a selection.  Once [set_user_topic] has accepted
    a name for a user, /current answers that user with this name, unless
    the name is the empty string: then it answers that no topic is set.
    What it answers any other user is what it answered before. *)
Theorem cmd_current_after_selection
    (update : Update) (msg : Message) (user_id : Z) (name : string) (tm : State) :
  message update = Some msg →
  (set_user_topic user_id name tm).1 = true →
  cmd_current update (set_user_topic user_id name tm).2 =
    if decide (default 0 (effective_user update) = user_id)
    then (if str_truthy name then Reply ("Current topic: " +:+ name)
          else Reply no_topic_set_msg)
    else cmd_current update tm.
Proof.
  intros Hmsg Hok. rewrite !current_user, Hmsg.
  revert Hok. unfold set_user_topic.
  destruct (negb (topic_truthy (get_topic name tm))); [done|]. intros _. simpl.
  unfold get_user_topic.
  destruct (TopicProofs.save_user_states_fields
              (with_user_states tm (Dict.set user_id name (user_states tm))))
    as (_ & -> & _).
  simpl.
  destruct (decide (default 0 (effective_user update) = user_id)) as [->|Hne].
  - by rewrite DictFacts.get_set_eq.
  - by rewrite DictFacts.get_set_ne.
Qed.

Lemma cmd_current_after_selection_witness :
  let update := {| message := Some (photo_msg 1 "G"); effective_user := Some 7 |} in
  let tm := (add_topic "" "F1" None None tm_fresh).2 in
  (set_user_topic 7 "" tm).1 = true
  ∧ cmd_current update (set_user_topic 7 "" tm).2 = Reply no_topic_set_msg
  ∧ cmd_current update (set_user_topic 7 "work" tm_work).2 = Reply "Current topic: work".
Proof.
  intros update tm. split; [reflexivity|]. split.
  - exact (cmd_current_after_selection update (photo_msg 1 "G") 7 "" tm eq_refl eq_refl).
  - exact (cmd_current_after_selection update (photo_msg 1 "G") 7 "work" tm_work
             eq_refl eq_refl).
Defined.

End CommandProofs.

